(** * votuderep: ANI calculation and greedy clustering (core/dereplication.py)

    A shallow embedding of [src/votuderep/core/dereplication.py], with the
    parts of [utils/io.py] ([write_fasta], [filter_sequences]) and of
    [commands/derep.py] ([get_temp_directory], the [derep] steps) that use it.

    Modelling conventions:
    - Python floats are modelled by exact rationals [Q]: a parsed float is
      the exact value of its decimal text (the same number as Python's for
      integers below 2^53, such as sequence lengths), and [round(x, 2)] is
      round-half-to-even at two decimals on the exact rational value.  The
      product [1.10 * qry_len] of [prune_alignments] is computed as Python
      computes it: the double nearest to [1.10] times the length, rounded
      to the nearest double ([f64_mul]).
    - [float] accepts [inf], [infinity] and [nan]; the model has no
      non-finite values, and a conversion of such a text ends the modelled
      run with the marker [NonFiniteFloat] instead.
    - Python exceptions are the constructors of [py_error]; a computation
      that may raise returns [result A].
    - Python dicts are association lists in insertion order; [dict_set]
      overwrites a present key in place and appends an absent one.
    - Files are lists of lines (strings). *)

From Stdlib Require Import String Ascii List Bool ZArith QArith Lia.
From Stdlib Require Import Permutation Sorted Qround Lqa.
Import ListNotations.
Open Scope string_scope.

(** ** Exceptions and results *)

Inductive py_error :=
| IndexError
| ValueError
| StopIteration
| RuntimeError
| ZeroDivisionError
(** not a Python exception: [float] read [inf] or [nan], which the model's
    rational floats cannot represent (see [float_]) *)
| NonFiniteFloat.

Inductive result (A : Type) :=
| Ok : A -> result A
| Err : py_error -> result A.
Arguments Ok {A} _.
Arguments Err {A} _.

Definition bind {A B} (r : result A) (f : A -> result B) : result B :=
  match r with Ok a => f a | Err e => Err e end.

Notation "'let!' x := r 'in' k" := (bind r (fun x => k))
  (at level 200, x name, r at level 100, k at level 200).

Definition of_option {A} (e : py_error) (o : option A) : result A :=
  match o with Some a => Ok a | None => Err e end.

(** [lst[i]]: raises [IndexError] out of range. *)
Definition py_index {A} (l : list A) (i : nat) : result A :=
  of_option IndexError (nth_error l i).

(** ** Strings: [str.strip] and [str.split("\t")] *)

Definition tab : ascii := Ascii.ascii_of_nat 9.

(** [str.isspace] on a character; the model's characters are the code
    points below 256: [\t \n \v \f \r], the separators [\x1c]-[\x1f],
    the space, [\x85] and [\xa0]. *)
Definition is_space (c : ascii) : bool :=
  let n := Ascii.nat_of_ascii c in
  ((9 <=? n)%nat && (n <=? 13)%nat) || ((28 <=? n)%nat && (n <=? 32)%nat)
  || (n =? 133)%nat || (n =? 160)%nat.

Fixpoint lstrip (s : string) : string :=
  match s with
  | EmptyString => EmptyString
  | String c s' => if is_space c then lstrip s' else s
  end.

Fixpoint rev_string (s : string) (acc : string) : string :=
  match s with
  | EmptyString => acc
  | String c s' => rev_string s' (String c acc)
  end.

Definition rstrip (s : string) : string :=
  rev_string (lstrip (rev_string s EmptyString)) EmptyString.

Definition strip (s : string) : string := rstrip (lstrip s).

(** [s.split(sep)] for a one-character separator: always at least one
    field; the empty string splits to one empty field. *)
Fixpoint split_on (sep : ascii) (s : string) : list string :=
  match s with
  | EmptyString => [EmptyString]
  | String c s' =>
      let rest := split_on sep s' in
      if Ascii.eqb c sep then EmptyString :: rest
      else match rest with
           | f :: fs => String c f :: fs
           | [] => [String c EmptyString]
           end
  end.

Definition split_tab (s : string) : list string := split_on tab s.

(** A line of tab-separated fields. *)
Definition tsv (fields : list string) : string := String.concat (String tab EmptyString) fields.

(** ** Numeric parsing: [int(...)] and [float(...)]

    Surrounding whitespace is stripped as Python does (see [is_num_space]:
    [int] and [float] keep the ASCII separators [\x1c]-[\x1f] that
    [str.strip] removes, and so fail on them); an underscore is
    allowed only between two digits and is dropped first ([1_000]).  Then
    [int] reads an optional sign and digits; [float] reads an optional sign,
    digits with an optional fractional part ([12], [-3], [95.5], [.5], [7.])
    and an optional exponent ([1e-50]), or one of the words [inf],
    [infinity], [nan] in any case ([py_float_nonfinite]). *)

(** The blanks [int] and [float] strip: ASCII [\t \n \v \f \r] and the
    space (C's [isspace]), and the non-ASCII spaces [\x85] and [\xa0],
    which CPython first turns into spaces. *)
Definition is_num_space (c : ascii) : bool :=
  let n := Ascii.nat_of_ascii c in
  ((9 <=? n)%nat && (n <=? 13)%nat) || (n =? 32)%nat || (n =? 133)%nat || (n =? 160)%nat.

Fixpoint num_lstrip (s : string) : string :=
  match s with
  | EmptyString => EmptyString
  | String c s' => if is_num_space c then num_lstrip s' else s
  end.

Definition num_strip (s : string) : string :=
  rev_string (num_lstrip (rev_string (num_lstrip s) EmptyString)) EmptyString.

Definition digit_val (c : ascii) : option Z :=
  let n := Ascii.nat_of_ascii c in
  if ((48 <=? n)%nat && (n <=? 57)%nat) then Some (Z.of_nat (n - 48)) else None.

(** Digits of [s] folded into [acc]; also returns how many were read. *)
Fixpoint digits (s : string) (acc : Z) (k : nat) : Z * nat * string :=
  match s with
  | String c s' =>
      match digit_val c with
      | Some d => digits s' (10 * acc + d) (S k)
      | None => (acc, k, s)
      end
  | EmptyString => (acc, k, s)
  end.

Definition is_digit (c : ascii) : bool :=
  match digit_val c with Some _ => true | None => false end.

(** The underscore pass of [float] and [int]: [prev] is the previous
    character; an underscore must follow a digit, and the character after
    an underscore must be a digit. *)
Fixpoint drop_underscores (prev : ascii) (s : string) : option string :=
  match s with
  | EmptyString => if Ascii.eqb prev "_"%char then None else Some EmptyString
  | String c s' =>
      if Ascii.eqb c "_"%char then
        if is_digit prev then drop_underscores c s' else None
      else if Ascii.eqb prev "_"%char && negb (is_digit c) then None
      else option_map (String c) (drop_underscores c s')
  end.

Definition without_underscores (s : string) : option string :=
  drop_underscores (Ascii.ascii_of_nat 0) s.

Definition sign (s : string) : Z * string :=
  match s with
  | String c s' =>
      if Ascii.eqb c "-"%char then (-1, s')%Z
      else if Ascii.eqb c "+"%char then (1, s')%Z
      else (1%Z, s)
  | EmptyString => (1%Z, s)
  end.

Definition py_int (s : string) : option Z :=
  match without_underscores s with
  | None => None
  | Some s0 =>
      let '(sg, s1) := sign (num_strip s0) in
      match digits s1 0 0 with
      | (v, S _, EmptyString) => Some (sg * v)%Z
      | _ => None
      end
  end.

(** Optional fraction after the integer digits: [(fraction, count, rest)]. *)
Definition fraction (s : string) : Z * nat * string :=
  match s with
  | String c s' => if Ascii.eqb c "."%char then digits s' 0 0 else (0%Z, O, s)
  | EmptyString => (0%Z, O, s)
  end.

(** Optional exponent [e[+-]digits]; [None] when malformed. *)
Definition exponent (s : string) : option Z :=
  match s with
  | EmptyString => Some 0%Z
  | String c s' =>
      if Ascii.eqb c "e"%char || Ascii.eqb c "E"%char then
        let '(es, s2) := sign s' in
        match digits s2 0 0 with
        | (v, S _, EmptyString) => Some (es * v)%Z
        | _ => None
        end
      else None
  end.

(** A finite decimal float literal, after the underscore pass. *)
Definition decimal_float (s : string) : option Q :=
  let '(sg, s1) := sign (num_strip s) in
  let '(ip, k1, s2) := digits s1 0 0 in
  let '(fp, k2, s3) := fraction s2 in
  if (k1 + k2 =? 0)%nat then None
  else match exponent s3 with
       | Some x =>
           Some (Qmake (sg * (ip * 10 ^ Z.of_nat k2 + fp))
                       (Pos.of_nat (Nat.pow 10 k2)) * Qpower (inject_Z 10) x)
       | None => None
       end.

(** [float(s)] when the result is finite. *)
Definition py_float (s : string) : option Q :=
  match without_underscores s with
  | Some s0 => decimal_float s0
  | None => None
  end.

Definition lower_ascii (c : ascii) : ascii :=
  let n := Ascii.nat_of_ascii c in
  if ((65 <=? n) && (n <=? 90))%nat then Ascii.ascii_of_nat (n + 32) else c.

Fixpoint lower (s : string) : string :=
  match s with
  | EmptyString => EmptyString
  | String c s' => String (lower_ascii c) (lower s')
  end.

(** [float(s)] is infinite or nan: an optional sign and [inf], [infinity]
    or [nan] in any case. *)
Definition py_float_nonfinite (s : string) : bool :=
  match without_underscores s with
  | Some s0 =>
      let '(_, s1) := sign (num_strip s0) in
      let w := lower s1 in
      String.eqb w "inf" || String.eqb w "infinity" || String.eqb w "nan"
  | None => false
  end.

Definition int_ (s : string) : result Z := of_option ValueError (py_int s).

(** [float(s)]: [ValueError] when [s] is no float literal; a non-finite
    value ends the modelled run with [NonFiniteFloat]. *)
Definition float_ (s : string) : result Q :=
  match py_float s with
  | Some q => Ok q
  | None => if py_float_nonfinite s then Err NonFiniteFloat else Err ValueError
  end.

(** ** Alignment records (one BLAST ['6 std qlen slen'] line) *)

Record aln := mk_aln {
  qname : string;
  tname : string;
  pid : Q;
  len : Q;
  qcoords : Z * Z;
  tcoords : Z * Z;
  qlen : Q;
  tlen : Q;
  evalue : Q
}.

(** [sorted([a, b])] on a pair of ints. *)
Definition sorted2 (a b : Z) : Z * Z := (Z.min a b, Z.max a b).

(** [parse_blast_line]: the dict literal evaluates its entries in source
    order, so the first failing subscript or conversion decides the error. *)
Definition parse_blast_line (line : string) : result aln :=
  let fields := split_tab (strip line) in
  let! f0 := py_index fields 0 in
  let! f1 := py_index fields 1 in
  let! p := bind (py_index fields 2) float_ in
  let! l := bind (py_index fields 3) float_ in
  let! q6 := bind (py_index fields 6) int_ in
  let! q7 := bind (py_index fields 7) int_ in
  let! t8 := bind (py_index fields 8) int_ in
  let! t9 := bind (py_index fields 9) int_ in
  let! ql := bind (py_index fields 12) float_ in
  let! tl := bind (py_index fields 13) float_ in
  let! ev := bind (py_index fields 10) float_ in
  Ok {| qname := f0; tname := f1; pid := p; len := l;
        qcoords := sorted2 q6 q7; tcoords := sorted2 t8 t9;
        qlen := ql; tlen := tl; evalue := ev |}.




(** ** [yield_alignment_blocks]

    The generator is modelled by the list of blocks it yields before it
    stops, paired with the exception it stops with, if any.  On an empty
    file [next(handle)] raises [StopIteration] inside the generator body,
    which Python (PEP 479) turns into [RuntimeError]. *)

Definition key_eqb (k1 k2 : string * string) : bool :=
  String.eqb (fst k1) (fst k2) && String.eqb (snd k1) (snd k2).

Definition aln_key (a : aln) : string * string := (qname a, tname a).

Fixpoint blocks_loop (key : string * string) (alns : list aln) (lines : list string)
  : list (list aln) * option py_error :=
  match lines with
  | [] => (match alns with [] => [] | _ => [alns] end, None)
  | line :: lines' =>
      match parse_blast_line line with
      | Err e => ([], Some e)
      | Ok a =>
          if key_eqb (aln_key a) key then blocks_loop key (alns ++ [a]) lines'
          else let '(bs, e) := blocks_loop (aln_key a) [a] lines' in (alns :: bs, e)
      end
  end.

Definition yield_alignment_blocks (lines : list string)
  : list (list aln) * option py_error :=
  match lines with
  | [] => ([], Some RuntimeError)
  | first_line :: lines' =>
      match parse_blast_line first_line with
      | Err e => ([], Some e)
      | Ok first_aln => blocks_loop (aln_key first_aln) [first_aln] lines'
      end
  end.

(** ** [prune_alignments] *)

(** [max(qcoords) - min(qcoords) + 1] *)
Definition aln_len (a : aln) : Z :=
  let '(x, y) := qcoords a in Z.max x y - Z.min x y + 1.

Definition Qltb (x y : Q) : bool := negb (Qle_bool y x).

(** ** Binary64 arithmetic for [1.10 * qry_len] *)

(** [a / (d * 2^e)] as a numerator and a denominator. *)
Definition scale_pow2 (a d e : Z) : Z * Z :=
  if (0 <=? e)%Z then (a, d * 2 ^ e)%Z else (a * 2 ^ (- e), d)%Z.

(** The exponent [e] of the last significant bit when [a / d] is rounded:
    [2^52 <= a / (d * 2^e) < 2^53], or [e = -1074] for subnormals. *)
Definition f64_exponent (a d : Z) : Z :=
  let e0 := (Z.log2 a - Z.log2 d - 52)%Z in
  let e1 := let '(p, r) := scale_pow2 a d e0 in
            if (p <? 2 ^ 52 * r)%Z then (e0 - 1)%Z else e0 in
  Z.max e1 (-1074).

(** [a / d] rounded to a multiple of [2^e], ties to even. *)
Definition round_pow2 (a d e : Z) : Q :=
  let '(p, r) := scale_pow2 a d e in
  let m := (p / r)%Z in
  let rm := (p mod r)%Z in
  let m' := if (2 * rm <? r)%Z then m
            else if (r <? 2 * rm)%Z then (m + 1)%Z
            else if Z.even m then m else (m + 1)%Z in
  if (0 <=? e)%Z then inject_Z (m' * 2 ^ e) else Qmake m' (Z.to_pos (2 ^ (- e))).

(** Round to the nearest double, ties to even: 53 significant bits, and
    subnormal spacing [2^-1074] below [2^-1022].  Overflow to [inf] (at
    magnitudes beyond [2^1024]) is outside the model. *)
Definition f64_round (y : Q) : Q :=
  let a := Z.abs (Qnum y) in
  let d := Zpos (Qden y) in
  let v := if (a =? 0)%Z then 0 else round_pow2 a d (f64_exponent a d) in
  if (Qnum y <? 0)%Z then - v else v.

(** Python's [x * y] on two doubles. *)
Definition f64_mul (x y : Q) : Q := f64_round (x * y).

(** The literal [1.10]: the double nearest to 11/10. *)
Definition f64_1_10 : Q := 2476979795053773 # 2251799813685248.

Fixpoint prune_loop (qry_len : Q) (min_length : Z) (min_evalue : Q)
  (cur_aln : Z) (alns : list aln) : list aln :=
  match alns with
  | [] => []
  | a :: rest =>
      let l := aln_len a in
      if (l <? min_length)%Z || Qltb min_evalue (evalue a) then
        prune_loop qry_len min_length min_evalue cur_aln rest
      else if Qle_bool qry_len (inject_Z cur_aln)
              || Qle_bool (f64_mul f64_1_10 qry_len) (inject_Z (l + cur_aln)) then []
      else a :: prune_loop qry_len min_length min_evalue (cur_aln + l) rest
  end.

(** [qry_len = alns[0]["qlen"]] raises [IndexError] on an empty list. *)
Definition prune_alignments (alns : list aln) (min_length : Z) (min_evalue : Q)
  : result (list aln) :=
  let! first := py_index alns 0 in
  Ok (prune_loop (qlen first) min_length min_evalue 0 alns).

(** [cur_aln] after the loop: the summed lengths of the kept records. *)
Fixpoint kept_length (alns : list aln) : Z :=
  match alns with
  | [] => 0%Z
  | a :: rest => (aln_len a + kept_length rest)%Z
  end.

(** Order-preserving subsequence. *)
Inductive subseq {A} : list A -> list A -> Prop :=
| subseq_nil : subseq [] []
| subseq_skip x l1 l2 : subseq l1 l2 -> subseq l1 (x :: l2)
| subseq_take x l1 l2 : subseq l1 l2 -> subseq (x :: l1) (x :: l2).

(** ** [compute_ani] *)

(** [round(x, 2)]: round half to even at two decimals. *)
Definition round2 (x : Q) : Q :=
  let y := x * 100 in
  let n := Qfloor y in
  let fr := y - inject_Z n in
  let m := if Qltb fr (1 # 2) then n
           else if Qltb (1 # 2) fr then (n + 1)%Z
           else if Z.even n then n else (n + 1)%Z in
  Qmake m 100.

Definition sumQ {A} (f : A -> Q) (l : list A) : Q :=
  fold_left (fun acc a => acc + f a) l 0.

Definition compute_ani (alns : list aln) : Q :=
  let weighted_sum := sumQ (fun a => len a * pid a) alns in
  let total_len := sumQ len alns in
  if Qltb 0 total_len then round2 (weighted_sum / total_len) else 0.
(** ** [compute_coverage] *)

(** Python compares two-element int lists lexicographically. *)
Definition span_leb (x y : Z * Z) : bool :=
  (fst x <? fst y)%Z || ((fst x =? fst y)%Z && (snd x <=? snd y)%Z).

(** [sorted(...)]: Python's sort is stable.  Modelled by an insertion sort
    that places each element after the ones [leb]-below it. *)
Fixpoint insert_by {A} (leb : A -> A -> bool) (x : A) (l : list A) : list A :=
  match l with
  | [] => [x]
  | y :: l' => if leb y x then y :: insert_by leb x l' else x :: y :: l'
  end.

Definition sort_by {A} (leb : A -> A -> bool) (l : list A) : list A :=
  fold_left (fun acc x => insert_by leb x acc) l [].

Definition sort_spans (l : list (Z * Z)) : list (Z * Z) := sort_by span_leb l.

(** The merge loop; [cur] is [nr_coords[-1]], the spans before it are
    already final. *)
Fixpoint merge_spans (cur : Z * Z) (l : list (Z * Z)) : list (Z * Z) :=
  match l with
  | [] => [cur]
  | (start, stop) :: l' =>
      if (start <=? snd cur + 1)%Z then merge_spans (fst cur, Z.max (snd cur) stop) l'
      else cur :: merge_spans (start, stop) l'
  end.

Definition merged_length (spans : list (Z * Z)) : Z :=
  fold_left (fun acc sp => acc + (snd sp - fst sp + 1))%Z spans 0%Z.

(** [round(100.0 * covered / total, 2)]; a zero total raises. *)
Definition percent (covered : Z) (total : Q) : result Q :=
  if Qeq_bool total 0 then Err ZeroDivisionError
  else Ok (round2 (100 * inject_Z covered / total)).

(** Merge one side's spans: [sorted], then [[coords[0][:]]] and the loop. *)
Definition merge_side (spans : list (Z * Z)) : result (list (Z * Z)) :=
  let sorted_spans := sort_spans spans in
  let! first := py_index sorted_spans 0 in
  Ok (merge_spans first (tl sorted_spans)).

Definition compute_coverage (alns : list aln) : result (Q * Q) :=
  let! nr_qcoords := merge_side (map qcoords alns) in
  let! a0 := py_index alns 0 in
  let! qcov := percent (merged_length nr_qcoords) (qlen a0) in
  let! nr_tcoords := merge_side (map tcoords alns) in
  let! tcov := percent (merged_length nr_tcoords) (tlen a0) in
  Ok (qcov, tcov).

(** ** [calculate_ani]: the summary writer *)

Record summary_row := mk_row {
  row_qname : string;
  row_tname : string;
  row_num_alns : nat;
  row_pid : Q;
  row_qcov : Q;
  row_tcov : Q
}.

Inductive out_line :=
| HeaderLine (fields : list string)
| DataLine (r : summary_row).

Definition header_fields : list string :=
  ["qname"; "tname"; "num_alns"; "pid"; "qcov"; "tcov"].

(** [prune_alignments(alns, min_length=min_length)]: default [min_evalue=1e-3]. *)
Definition default_min_evalue : Q := 1 # 1000.

(** One loop iteration: [None] when the block is skipped. *)
Definition summarise_block (min_length : Z) (b : list aln)
  : result (option summary_row) :=
  let! alns := prune_alignments b min_length default_min_evalue in
  match alns with
  | [] => Ok None
  | a0 :: _ =>
      let ani := compute_ani alns in
      let! cov := compute_coverage alns in
      Ok (Some {| row_qname := qname a0; row_tname := tname a0;
                  row_num_alns := length alns; row_pid := ani;
                  row_qcov := fst cov; row_tcov := snd cov |})
  end.

Fixpoint write_blocks (min_length : Z) (bs : list (list aln))
  : list summary_row * option py_error :=
  match bs with
  | [] => ([], None)
  | b :: bs' =>
      match summarise_block min_length b with
      | Err e => ([], Some e)
      | Ok None => write_blocks min_length bs'
      | Ok (Some r) => let '(rs, e) := write_blocks min_length bs' in (r :: rs, e)
      end
  end.

(** The lines written to [output_file] and the exception [calculate_ani]
    ends with, if any.  The generator is consumed lazily, so an exception
    it raises comes after the rows of the blocks it yielded. *)
Definition calculate_ani (blast_lines : list string) (min_length : Z)
  : list out_line * option py_error :=
  let '(bs, gen_err) := yield_alignment_blocks blast_lines in
  let '(rs, err) := write_blocks min_length bs in
  (HeaderLine header_fields :: map DataLine rs,
   match err with Some e => Some e | None => gen_err end).

(** ** [cluster_by_ani]: the greedy cluster builder *)

(** Python dicts keyed by strings. *)
Fixpoint dict_set {V} (k : string) (v : V) (d : list (string * V)) : list (string * V) :=
  match d with
  | [] => [(k, v)]
  | (k', v') :: d' => if String.eqb k k' then (k, v) :: d' else (k', v') :: dict_set k v d'
  end.

Fixpoint dict_get {V} (k : string) (d : list (string * V)) : option V :=
  match d with
  | [] => None
  | (k', v) :: d' => if String.eqb k k' then Some v else dict_get k d'
  end.

Definition dict_mem {V} (k : string) (d : list (string * V)) : bool :=
  existsb (fun p => String.eqb k (fst p)) d.

(** [d[k].append(x)] on a present key. *)
Fixpoint dict_append {V} (k : string) (x : V) (d : list (string * list V))
  : list (string * list V) :=
  match d with
  | [] => []
  | (k', l) :: d' => if String.eqb k k' then (k', (l ++ [x])%list) :: d' else (k', l) :: dict_append k x d'
  end.

(** [read_fasta] yields [(seq_id, seq)] records. *)
Definition fasta := list (string * string).

(** [seqs = {}; for seq_id, seq in read_fasta(...): if len(seq) >= min_length:
    seqs[seq_id] = len(seq)] *)
Definition load_seqs (records : fasta) (min_length : nat) : list (string * nat) :=
  fold_left (fun seqs r =>
               if (min_length <=? String.length (snd r))%nat
               then dict_set (fst r) (String.length (snd r)) seqs else seqs)
            records [].

(** [sorted(seqs.items(), key=lambda x: x[1], reverse=True)]: Python's sort
    is stable also with [reverse=True], so items of equal length keep their
    dict order: each item goes after the ones at least as long. *)
Definition longer_eqb (x y : string * nat) : bool := (snd y <=? snd x)%nat.

Definition sort_desc (items : list (string * nat)) : list (string * nat) :=
  sort_by longer_eqb items.

Definition sorted_seqs_of (seqs : list (string * nat)) : list string :=
  map fst (sort_desc seqs).

(** A data line of the ANI file: [qname, tname] and the three floats. *)
Record ani_row := mk_ani_row {
  a_qname : string;
  a_tname : string;
  a_ani : Q;
  a_qcov : Q;
  a_tcov : Q
}.

Definition parse_ani_line (line : string) : result ani_row :=
  let fields := split_tab (strip line) in
  let! q := py_index fields 0 in
  let! t := py_index fields 1 in
  let! ani := bind (py_index fields 3) float_ in
  let! qcov := bind (py_index fields 4) float_ in
  let! tcov := bind (py_index fields 5) float_ in
  Ok (mk_ani_row q t ani qcov tcov).

Fixpoint map_result {A B} (f : A -> result B) (l : list A) : result (list B) :=
  match l with
  | [] => Ok []
  | x :: l' => let! y := f x in let! ys := map_result f l' in Ok (y :: ys)
  end.

Section Clustering.

Variables (min_ani min_qcov min_tcov : Q).

(** One iteration of the edge-building loop. *)
Definition add_edge (edges : list (string * list string)) (r : ani_row)
  : list (string * list string) :=
  if String.eqb (a_qname r) (a_tname r) then edges
  else if negb (dict_mem (a_qname r) edges) || negb (dict_mem (a_tname r) edges) then edges
  else if Qltb (a_qcov r) min_qcov || Qltb (a_tcov r) min_tcov || Qltb (a_ani r) min_ani
  then edges
  else dict_append (a_qname r) (a_tname r) edges.

Definition build_edges (sorted_seqs : list string) (rows : list ani_row)
  : list (string * list string) :=
  fold_left add_edge rows (map (fun s => (s, [])) sorted_seqs).

End Clustering.

(** Greedy state: [(clust_to_seqs, seq_to_clust)]. *)
Definition gstate : Type := list (string * list string) * list (string * string).

(** The inner loop over [edges[seq_id]]: returns the members appended to
    the new cluster (after the centroid) and the updated [seq_to_clust]. *)
Fixpoint add_members (c : string) (nbrs : list string) (acc : list string)
  (seq_to_clust : list (string * string)) : list string * list (string * string) :=
  match nbrs with
  | [] => (acc, seq_to_clust)
  | m :: nbrs' =>
      if dict_mem m seq_to_clust then add_members c nbrs' acc seq_to_clust
      else add_members c nbrs' ((acc ++ [m])%list) (dict_set m c seq_to_clust)
  end.

(** [edges[seq_id]]: every id of [sorted_seqs] is a key of [edges], so the
    lookup in the loop below always finds its entry. *)
Definition neighbours (edges : list (string * list string)) (seq_id : string) : list string :=
  match dict_get seq_id edges with Some l => l | None => [] end.

(** One iteration of the greedy loop. *)
Definition greedy_step (edges : list (string * list string)) (st : gstate) (seq_id : string)
  : gstate :=
  let '(clust_to_seqs, seq_to_clust) := st in
  if dict_mem seq_id seq_to_clust then st
  else
    let '(added, seq_to_clust') :=
      add_members seq_id (neighbours edges seq_id) [] (dict_set seq_id seq_id seq_to_clust) in
    (dict_set seq_id (seq_id :: added) clust_to_seqs, seq_to_clust').

(** [for seq_id in sorted_seqs: ...] *)
Fixpoint greedy (edges : list (string * list string)) (sorted_seqs : list string)
  (st : gstate) : gstate :=
  match sorted_seqs with
  | [] => st
  | seq_id :: rest => greedy edges rest (greedy_step edges st seq_id)
  end.

(** [cluster_by_ani].  The ANI file is read after the header line skipped by
    [next(handle)]; a line that fails to parse aborts the call, so parsing
    all lines before building the edges is the same computation. *)
Definition cluster_by_ani (records : fasta) (ani_lines : list string)
  (min_ani min_qcov min_tcov : Q) (min_length : nat)
  : result (list (string * list string)) :=
  let seqs := load_seqs records min_length in
  let sorted_seqs := sorted_seqs_of seqs in
  match ani_lines with
  | [] => Err StopIteration
  | _header :: lines =>
      let! rows := map_result parse_ani_line lines in
      let edges := build_edges min_ani min_qcov min_tcov sorted_seqs rows in
      Ok (fst (greedy edges sorted_seqs ([], [])))
  end.

(** ** [compute_coverage] over the Python object store

    In the source each record's ["qcoords"] and ["tcoords"] are list objects;
    [sorted([a["qcoords"] for a in alns])] is a new list holding the same
    objects, [qcoords[0][:]] copies one of them, and the loop writes
    [nr_qcoords[-1][1]].  This module keeps the coordinate lists in a store
    of mutable two-element lists so that the aliasing is explicit. *)
Module Store.

Definition loc := nat.
Definition heap := loc -> option (Z * Z).
(** The heap and the next free location. *)
Definition store : Type := heap * loc.

Record haln := mk_haln {
  h_qname : string;
  h_tname : string;
  h_pid : Q;
  h_len : Q;
  h_qcoords : loc;
  h_tcoords : loc;
  h_qlen : Q;
  h_tlen : Q;
  h_evalue : Q
}.

Definition deref (h : heap) (l : loc) : Z * Z :=
  match h l with Some v => v | None => (0%Z, 0%Z) end.

Definition upd (h : heap) (l : loc) (v : Z * Z) : heap :=
  fun l' => if Nat.eqb l' l then Some v else h l'.

(** A new two-element list object. *)
Definition alloc (st : store) (v : Z * Z) : loc * store :=
  let '(h, n) := st in (n, (upd h n v, S n)).

(** [x[1] = v] on the list object at [l]. *)
Definition set_stop (st : store) (l : loc) (v : Z) : store :=
  let '(h, n) := st in (upd h l (fst (deref h l), v), n).

(** The record seen as a value, coordinate lists read from the heap. *)
Definition to_aln (h : heap) (a : haln) : aln :=
  {| qname := h_qname a; tname := h_tname a; pid := h_pid a; len := h_len a;
     qcoords := deref h (h_qcoords a); tcoords := deref h (h_tcoords a);
     qlen := h_qlen a; tlen := h_tlen a; evalue := h_evalue a |}.

(** [sorted] of a list of list objects: compares their contents, returns
    the same objects. *)
Definition sort_refs (h : heap) (l : list loc) : list loc :=
  sort_by (fun x y => span_leb (deref h x) (deref h y)) l.

(** The loop [for start, stop in coords[1:]]; [nr] are the closed entries
    of [nr_coords] and [cur] is [nr_coords[-1]]. *)
Fixpoint merge_refs (st : store) (nr : list loc) (cur : loc) (l : list loc)
  : list loc * store :=
  match l with
  | [] => ((nr ++ [cur])%list, st)
  | x :: l' =>
      let '(start, stop) := deref (fst st) x in
      if (start <=? snd (deref (fst st) cur) + 1)%Z
      then merge_refs (set_stop st cur (Z.max (snd (deref (fst st) cur)) stop)) nr cur l'
      else let '(c', st') := alloc st (start, stop) in merge_refs st' (nr ++ [cur])%list c' l'
  end.

Definition merge_side_refs (st : store) (refs : list loc) : result (list loc) * store :=
  match sort_refs (fst st) refs with
  | [] => (Err IndexError, st)
  | first :: rest =>
      let '(c, st1) := alloc st (deref (fst st) first) in
      let '(nr, st2) := merge_refs st1 [] c rest in
      (Ok nr, st2)
  end.

(** The result and the store after the call. *)
Definition compute_coverage_st (alns : list haln) (st : store) : result (Q * Q) * store :=
  match merge_side_refs st (map h_qcoords alns) with
  | (Err e, st1) => (Err e, st1)
  | (Ok nr_q, st1) =>
      match alns with
      | [] => (Err IndexError, st1)
      | a0 :: _ =>
          match percent (merged_length (map (deref (fst st1)) nr_q)) (h_qlen a0) with
          | Err e => (Err e, st1)
          | Ok qcov =>
              match merge_side_refs st1 (map h_tcoords alns) with
              | (Err e, st2) => (Err e, st2)
              | (Ok nr_t, st2) =>
                  match percent (merged_length (map (deref (fst st2)) nr_t)) (h_tlen a0) with
                  | Err e => (Err e, st2)
                  | Ok tcov => (Ok (qcov, tcov), st2)
                  end
              end
          end
      end
  end.

(** [compute_ani] reads only ["len"] and ["pid"], which are not list objects. *)
Definition compute_ani_st (alns : list haln) (st : store) : Q * store :=
  (compute_ani (map (to_aln (fst st)) alns), st).

End Store.

(** The invariant of the greedy walk: the concatenated member lists are
    the keys of [seq_to_clust] in order, without repetition; every centroid
    is assigned; every member list starts with its centroid. *)
Definition greedy_inv (st : gstate) : Prop :=
  concat (map snd (fst st)) = map fst (snd st) /\
  NoDup (map fst (snd st)) /\
  (forall k, In k (map fst (fst st)) -> In k (map fst (snd st))) /\
  Forall (fun p => exists t, snd p = fst p :: t) (fst st).

(** A sequence of [n] bases, for concrete FASTA records. *)
Fixpoint poly_a (n : nat) : string :=
  match n with O => EmptyString | S k => String "A"%char (poly_a k) end.

(** The rows the summary is specified to hold, one per block whose pruned
    list is non-empty: the pair of its first kept record, the number of kept
    records, their ANI and their coverage (blocks are never empty). *)
Definition expected_rows (min_length : Z) (bs : list (list aln)) : list summary_row :=
  flat_map (fun b =>
    match b with
    | [] => []
    | a :: _ =>
        match prune_loop (qlen a) min_length default_min_evalue 0 b with
        | [] => []
        | (k0 :: _) as kept =>
            match compute_coverage kept with
            | Ok cov => [mk_row (qname k0) (tname k0) (length kept) (compute_ani kept)
                                (fst cov) (snd cov)]
            | Err _ => []
            end
        end
    end) bs.

(** ** [utils/io.py]: [write_fasta] and [filter_sequences] *)

Definition newline : string := String (Ascii.ascii_of_nat 10) EmptyString.

(** [for i in range(0, len(sequence), line_width): sequence[i : i + line_width]]
    for [line_width = w > 0]: the slices starting below the length; [fuel]
    bounds the number of steps. *)
Fixpoint wrap_from (fuel w i : nat) (sequence : string) : list string :=
  match fuel with
  | O => []
  | S fuel' =>
      if (i <? String.length sequence)%nat
      then substring i w sequence :: wrap_from fuel' w (i + w) sequence
      else []
  end.

(** The strings [write_fasta] passes to [handle.write] for one record. *)
Definition write_record (line_width : Z) (r : string * string) : list string :=
  let '(seq_id, sequence) := r in
  String ">"%char (seq_id ++ newline) ::
  (if (0 <? line_width)%Z
   then map (fun chunk => chunk ++ newline)
            (wrap_from (String.length sequence) (Z.to_nat line_width) 0 sequence)
   else [sequence ++ newline]).

(** [write_fasta(sequences, output_path, line_width)]: the writes, in order,
    to the output file or to stdout. *)
Definition write_fasta (sequences : fasta) (line_width : Z) : list string :=
  flat_map (write_record line_width) sequences.

(** [seq_id in sequence_ids] for the set of ids, given as a list. *)
Definition mem_ids (sequence_ids : list string) (seq_id : string) : bool :=
  existsb (String.eqb seq_id) sequence_ids.

(** [filter_sequences(file_path, sequence_ids, output_path, exclude)]: the
    records of the FASTA file are streamed through the generator
    [filtered_sequences] into [write_fasta] (default [line_width=80]); the
    returned [count] is read after [write_fasta] has consumed the generator.
    Returns the writes and [count]. *)
Definition filter_sequences (records : fasta) (sequence_ids : list string) (exclude : bool)
  : list string * nat :=
  let filtered :=
    filter (fun r => xorb (mem_ids sequence_ids (fst r)) exclude) records in
  (write_fasta filtered 80, length filtered).

(** ** [commands/derep.py]: [get_temp_directory]

    [os.path.isdir] and [os.environ.get] are parameters: [isdir] tells which
    paths are directories, [environ] the environment.  [None] is the
    [VotuDerepError] raised when no candidate is usable. *)

(** [if temp_dir and os.path.isdir(temp_dir)]: [None] and the empty string are falsy. *)
Definition usable_dir (isdir : string -> bool) (d : option string) : bool :=
  match d with
  | Some s => negb (String.eqb s EmptyString) && isdir s
  | None => false
  end.

Fixpoint first_usable (isdir : string -> bool) (ds : list (option string)) : option string :=
  match ds with
  | [] => None
  | d :: ds' => if usable_dir isdir d then d else first_usable isdir ds'
  end.

Definition get_temp_directory (isdir : string -> bool) (environ : string -> option string)
  (tmp_arg : string) : option string :=
  if usable_dir isdir (Some tmp_arg) then Some tmp_arg
  else first_usable isdir [environ "TEMP"; environ "TMP"; Some "/tmp"; Some "."].

(** ** The ANI file: written by [calculate_ani], read by [cluster_by_ani] *)

Definition digit_char (d : Z) : ascii := Ascii.ascii_of_nat (48 + Z.to_nat d).

(** The decimal digits of [n >= 0], most significant first, in front of
    [acc]; [fuel] bounds the number of digits. *)
Fixpoint dec_digits (fuel : nat) (n : Z) (acc : string) : string :=
  match fuel with
  | O => acc
  | S fuel' =>
      let acc' := String (digit_char (n mod 10)) acc in
      if (n <? 10)%Z then acc' else dec_digits fuel' (n / 10) acc'
  end.

(** [str(n)] of an int. *)
Definition str_int (n : Z) : string :=
  if (n <? 0)%Z then String "-"%char (dec_digits (S (Z.to_nat (Z.log2 (- n)))) (- n) EmptyString)
  else dec_digits (S (Z.to_nat (Z.log2 n))) n EmptyString.

(** [str(x)] of a float that [round(..., 2)] returned, i.e. of [m / 100]
    for an integer [m].  Python prints the shortest decimal that reads back
    as the same float; for [|m| < 10^15] that is the integer part, a dot and
    the two decimals with a trailing zero dropped ([93.33], [20.0], [12.5]).
    Python's [-0.0] (a negative value rounded to zero) is printed [0.0]
    here; both read back as zero. *)
Definition str_float2 (x : Q) : string :=
  let m := Qfloor (x * 100) in
  let a := Z.abs m in
  let ip := (a / 100)%Z in
  let d1 := ((a mod 100) / 10)%Z in
  let d2 := (a mod 10)%Z in
  let frac := if (d2 =? 0)%Z then String (digit_char d1) EmptyString
              else String (digit_char d1) (String (digit_char d2) EmptyString) in
  let body := dec_digits (S (Z.to_nat (Z.log2 ip))) ip (String "."%char frac) in
  if (m <? 0)%Z then String "-"%char body else body.

(** [row = [qname, tname, len(alns), ani, qcov, tcov]] written as
    ["\t".join(str(x) for x in row)]; the header is ["\t".join(fields)]. *)
Definition render_line (l : out_line) : string :=
  match l with
  | HeaderLine fields => tsv fields
  | DataLine r =>
      tsv [row_qname r; row_tname r; str_int (Z.of_nat (row_num_alns r));
           str_float2 (row_pid r); str_float2 (row_qcov r); str_float2 (row_tcov r)]
  end.

(** The text written to the ANI file: each line followed by ["\n"]. *)
Definition ani_text (ls : list out_line) : string :=
  String.concat EmptyString (map (fun l => render_line l ++ newline) ls).

Definition lf : ascii := Ascii.ascii_of_nat 10.
Definition cr : ascii := Ascii.ascii_of_nat 13.

(** [for line in handle] on a file opened in text mode: universal newlines
    read ["\r\n"] and ["\r"] as ["\n"]; each line keeps its ["\n"], and a
    last line without one is yielded as it is. *)
Fixpoint text_lines (s : string) : list string :=
  match s with
  | EmptyString => []
  | String c s' =>
      if Ascii.eqb c lf then newline :: text_lines s'
      else if Ascii.eqb c cr then
        match s' with
        | String c' s'' =>
            if Ascii.eqb c' lf then newline :: text_lines s'' else newline :: text_lines s'
        | EmptyString => [newline]
        end
      else match text_lines s' with
           | [] => [String c EmptyString]
           | l :: ls => String c l :: ls
           end
  end.

(** [dereplicate_sequences(fasta_file, blast_file, output_ani, min_ani,
    min_tcov)]: [calculate_ani] with its default [min_length=0] writes the
    ANI file, which [cluster_by_ani] with its defaults [min_qcov=0.0] and
    [min_length=1] reads back; an exception of either propagates.  The
    returned [set(clusters.keys())] is given as the list of keys. *)
Definition dereplicate_sequences (records : fasta) (blast_lines : list string)
  (min_ani min_tcov : Q) : result (list string) :=
  let '(out, err) := calculate_ani blast_lines 0 in
  match err with
  | Some e => Err e
  | None =>
      let! clusters := cluster_by_ani records (text_lines (ani_text out)) min_ani 0 min_tcov 1 in
      Ok (map fst clusters)
  end.

(** Steps 3 and 4 of the [derep] command on the BLAST output: the
    representatives, then [filter_sequences(input, representative_ids,
    output)]; returns the writes and [num_written]. *)
Definition derep_output (records : fasta) (blast_lines : list string) (min_ani min_tcov : Q)
  : result (list string * nat) :=
  let! representative_ids := dereplicate_sequences records blast_lines min_ani min_tcov in
  Ok (filter_sequences records representative_ids false).

(** The values of a summary row that [cluster_by_ani] reads back. *)
Definition summary_ani_row (r : summary_row) : ani_row :=
  mk_ani_row (row_qname r) (row_tname r) (row_pid r) (row_qcov r) (row_tcov r).

(** A name that the ANI file carries as one field of one line: it holds no
    tab and no line break. *)
Definition field_safe (s : string) : Prop :=
  ~ In tab (list_ascii_of_string s) /\ ~ In lf (list_ascii_of_string s) /\
  ~ In cr (list_ascii_of_string s).

Definition starts_nonspace (s : string) : Prop :=
  exists c t, s = String c t /\ is_space c = false.

(** The characters [str] prints for numbers. *)
Definition num_char (c : ascii) : Prop :=
  c = "-"%char \/ c = "."%char \/ exists d, (0 <= d <= 9)%Z /\ c = digit_char d.

(** Two rows with the same names and equal values. *)
Definition same_row (r r' : ani_row) : Prop :=
  a_qname r = a_qname r' /\ a_tname r = a_tname r' /\
  a_ani r == a_ani r' /\ a_qcov r == a_qcov r' /\ a_tcov r == a_tcov r'.

(** The key [(qname, tname)] of a block of alignments, read off its first record. *)
Definition block_key (b : list aln) : option (string * string) :=
  option_map aln_key (hd_error b).

(** A block is nonempty and all its records share its key. *)
Definition uniform_block (b : list aln) : Prop :=
  b <> [] /\ Forall (fun a => Some (aln_key a) = block_key b) b.

(** Consecutive blocks have different keys. *)
Definition adjacent_distinct (bs : list (list aln)) : Prop :=
  forall i b1 b2, nth_error bs i = Some b1 -> nth_error bs (S i) = Some b2 ->
                  block_key b1 <> block_key b2.

(** The ids of [l] in the order of their first occurrence, leaving out
    those already in [seen]. *)
Fixpoint first_occurrences (seen : list string) (l : list string) : list string :=
  match l with
  | [] => []
  | x :: l' => if mem_ids seen x then first_occurrences seen l'
               else x :: first_occurrences (x :: seen) l'
  end.

(** * Proofs *)

(** ** Insertion sort *)

Section SortBy.
Context {A : Type} (leb : A -> A -> bool).
Hypothesis leb_total : forall x y, leb x y = false -> leb y x = true.

Let R x y := leb x y = true.

Lemma insert_by_perm x l : Permutation (insert_by leb x l) (x :: l).
Proof.
  induction l as [|y l IH]; simpl; [reflexivity|].
  destruct (leb y x).
  - rewrite IH. apply perm_swap.
  - reflexivity.
Qed.

Lemma sort_by_perm_acc l acc :
  Permutation (fold_left (fun acc x => insert_by leb x acc) l acc) (l ++ acc).
Proof.
  revert acc; induction l as [|x l IH]; intro acc; simpl; [reflexivity|].
  rewrite IH, insert_by_perm. symmetry. apply Permutation_middle.
Qed.

Lemma sort_by_perm l : Permutation (sort_by leb l) l.
Proof. unfold sort_by. rewrite sort_by_perm_acc, app_nil_r. reflexivity. Qed.

Lemma insert_by_hd y x l : HdRel R y l -> R y x -> HdRel R y (insert_by leb x l).
Proof.
  intros Hh Hx. destruct l as [|z l]; simpl; [now constructor|].
  destruct (leb z x); constructor; [now inversion Hh | assumption].
Qed.

Lemma insert_by_sorted x l : Sorted R l -> Sorted R (insert_by leb x l).
Proof.
  induction l as [|y l IH]; intro Hs; simpl; [now repeat constructor|].
  inversion Hs as [|? ? Hs' Hh]; subst.
  destruct (leb y x) eqn:E.
  - constructor; [now apply IH | now apply insert_by_hd].
  - constructor; [assumption|]. constructor. now apply leb_total.
Qed.

Lemma sort_by_sorted_acc l acc :
  Sorted R acc -> Sorted R (fold_left (fun acc x => insert_by leb x acc) l acc).
Proof.
  revert acc; induction l as [|x l IH]; intros acc H; simpl; [assumption|].
  apply IH, insert_by_sorted, H.
Qed.

Lemma sort_by_sorted l : Sorted R (sort_by leb l).
Proof. apply sort_by_sorted_acc. constructor. Qed.

End SortBy.

Lemma Sorted_mono {A} (R1 R2 : A -> A -> Prop) l :
  (forall x y, R1 x y -> R2 x y) -> Sorted R1 l -> Sorted R2 l.
Proof.
  intros HR Hs; induction Hs as [|x l Hs IH Hh]; constructor; [assumption|].
  destruct Hh; constructor; auto.
Qed.

Lemma span_leb_total x y : span_leb x y = false -> span_leb y x = true.
Proof.
  unfold span_leb; destruct x as [a b], y as [c d]; simpl.
  destruct (Z.ltb_spec a c), (Z.ltb_spec c a), (Z.eqb_spec a c), (Z.eqb_spec c a),
    (Z.leb_spec b d), (Z.leb_spec d b); simpl; intros; try discriminate; try reflexivity; lia.
Qed.

Lemma span_leb_fst x y : span_leb x y = true -> (fst x <= fst y)%Z.
Proof.
  unfold span_leb; intro H. apply orb_true_iff in H as [H|H].
  - apply Z.ltb_lt in H; lia.
  - apply andb_true_iff in H as [H _]. apply Z.eqb_eq in H; lia.
Qed.

Lemma sort_spans_sorted l : Sorted (fun x y => (fst x <= fst y)%Z) (sort_spans l).
Proof.
  eapply Sorted_mono; [|apply (sort_by_sorted span_leb span_leb_total)].
  intros x y; apply span_leb_fst.
Qed.

(** ** Reflection of the boolean comparisons *)

Lemma Qltb_iff x y : Qltb x y = true <-> x < y.
Proof.
  unfold Qltb. rewrite negb_true_iff. split; intro H.
  - apply Qnot_le_lt. intro H'. apply Qle_bool_iff in H'. congruence.
  - destruct (Qle_bool y x) eqn:E; [|reflexivity].
    apply Qle_bool_iff in E. exfalso. apply (Qlt_not_le x y); assumption.
Qed.

Lemma Qltb_false x y : Qltb x y = false <-> y <= x.
Proof.
  unfold Qltb. rewrite negb_false_iff. apply Qle_bool_iff.
Qed.

(** ** Identity: [compute_ani] *)

(** C5: [compute_ani] is the length-weighted mean identity rounded to two
    decimals when the total length is positive, and 0.0 when it is zero
    (the empty list included), without dividing; the two-record block
    (len=100, pid=95.0), (len=50, pid=90.0) gives 93.33. *)
Theorem compute_ani_weighted_mean (alns : list aln) :
  (0 < sumQ len alns ->
   compute_ani alns = round2 (sumQ (fun a => len a * pid a) alns / sumQ len alns)) /\
  (sumQ len alns == 0 -> compute_ani alns = 0) /\
  compute_ani [] = 0 /\
  compute_ani [mk_aln "q" "t" 95 100 (1, 100)%Z (1, 100)%Z 1000 1000 0;
               mk_aln "q" "t" 90 50 (101, 150)%Z (101, 150)%Z 1000 1000 0] == 93.33.
Proof.
  unfold compute_ani. repeat split.
  - intro H. destruct (Qltb 0 (sumQ len alns)) eqn:E; [reflexivity|].
    apply Qltb_false in E. exfalso. now apply (Qlt_not_le _ _ H).
  - intro H. destruct (Qltb 0 (sumQ len alns)) eqn:E; [|reflexivity].
    apply Qltb_iff in E. rewrite H in E. discriminate.
Qed.

(** ** Coverage: [compute_coverage] *)

(** C6: on a non-empty block (with non-zero sequence lengths) each side's
    spans are sorted by start (a permutation of the block's spans), merged
    by [merge_spans] (merge when [start <= stop + 1], keeping the larger
    stop), their lengths summed, divided by the total length, times 100,
    rounded to two decimals; spans [1,100],[201,300] and [1,100],[50,150]
    on a 1000-length query give 20.0 and 15.0. *)
Theorem compute_coverage_merge (a0 : aln) (rest : list aln) :
  ~ qlen a0 == 0 -> ~ tlen a0 == 0 ->
  let sq := sort_spans (map qcoords (a0 :: rest)) in
  let st := sort_spans (map tcoords (a0 :: rest)) in
  Sorted (fun x y => (fst x <= fst y)%Z) sq /\ Permutation sq (map qcoords (a0 :: rest)) /\
  Sorted (fun x y => (fst x <= fst y)%Z) st /\ Permutation st (map tcoords (a0 :: rest)) /\
  compute_coverage (a0 :: rest) =
    Ok (round2 (100 * inject_Z (merged_length (merge_spans (hd (0, 0)%Z sq) (tl sq)))
                / qlen a0),
        round2 (100 * inject_Z (merged_length (merge_spans (hd (0, 0)%Z st) (tl st)))
                / tlen a0)) /\
  (match compute_coverage
           [mk_aln "q" "t" 95 100 (1, 100)%Z (1, 100)%Z 1000 1000 0;
            mk_aln "q" "t" 95 100 (201, 300)%Z (1, 100)%Z 1000 1000 0] with
   | Ok (qcov, _) => qcov == 20 | Err _ => False end) /\
  (match compute_coverage
           [mk_aln "q" "t" 95 100 (1, 100)%Z (1, 100)%Z 1000 1000 0;
            mk_aln "q" "t" 95 101 (50, 150)%Z (1, 100)%Z 1000 1000 0] with
   | Ok (qcov, _) => qcov == 15 | Err _ => False end).
Proof.
  intros Hq Ht sq st.
  assert (Psq : Permutation sq (map qcoords (a0 :: rest))) by apply sort_by_perm.
  assert (Pst : Permutation st (map tcoords (a0 :: rest))) by apply sort_by_perm.
  split; [apply sort_spans_sorted|]. split; [exact Psq|].
  split; [apply sort_spans_sorted|]. split; [exact Pst|].
  split; [|split; vm_compute; reflexivity].
  unfold compute_coverage, merge_side, percent. fold sq st.
  destruct sq as [|s1 sq'] eqn:Esq.
  { apply Permutation_length in Psq. discriminate. }
  destruct st as [|t1 st'] eqn:Est.
  { apply Permutation_length in Pst. discriminate. }
  simpl.
  destruct (Qeq_bool (qlen a0) 0) eqn:E1; [apply Qeq_bool_iff in E1; contradiction|].
  destruct (Qeq_bool (tlen a0) 0) eqn:E2; [apply Qeq_bool_iff in E2; contradiction|].
  reflexivity.
Qed.

(** ** Pruning: [prune_alignments] *)

Lemma round_pow2_nonneg a d e : (0 <= a)%Z -> (0 < d)%Z -> 0 <= round_pow2 a d e.
Proof.
  intros Ha Hd. unfold round_pow2, scale_pow2.
  assert (H2 : forall k, (0 <= 2 ^ k)%Z) by (intro k; apply Z.pow_nonneg; lia).
  destruct (0 <=? e)%Z eqn:He.
  - assert (Hr : (0 < d * 2 ^ e)%Z).
    { apply Z.mul_pos_pos; [lia|]. apply Z.pow_pos_nonneg; [lia|]. apply Z.leb_le, He. }
    assert (Hm : (0 <= a / (d * 2 ^ e))%Z) by (apply Z.div_pos; lia).
    unfold Qle; simpl. rewrite Z.mul_1_r.
    destruct (_ <? _)%Z; [|destruct (_ <? _)%Z; [|destruct Z.even]];
      apply Z.mul_nonneg_nonneg; try lia; apply H2.
  - assert (Hm : (0 <= a * 2 ^ (- e) / d)%Z).
    { apply Z.div_pos; [apply Z.mul_nonneg_nonneg; [lia|apply H2]|lia]. }
    unfold Qle; simpl. rewrite Z.mul_1_r.
    destruct (_ <? _)%Z; [|destruct (_ <? _)%Z; [|destruct Z.even]]; lia.
Qed.

Lemma f64_round_nonneg y : 0 <= y -> 0 <= f64_round y.
Proof.
  destruct y as [n d]. unfold f64_round; cbn [Qnum Qden]. intro Hn.
  assert (Hn' : (0 <= n)%Z) by (unfold Qle in Hn; simpl in Hn; lia).
  rewrite (proj2 (Z.ltb_ge n 0) Hn').
  destruct (Z.abs n =? 0)%Z; [apply Qle_refl|].
  apply round_pow2_nonneg; lia.
Qed.

(** Rounding at a negative exponent [e] lands within half a unit
    [2^e] of [a / d]. *)
Lemma round_pow2_neg_bound a d e : (0 < d)%Z -> (e < 0)%Z ->
  exists m, round_pow2 a d e = Qmake m (Z.to_pos (2 ^ (- e))) /\
            (2 * m * d <= 2 * (a * 2 ^ (- e)) + d)%Z.
Proof.
  intros Hd He. unfold round_pow2, scale_pow2.
  destruct (Z.leb_spec 0 e) as [He'|_]; [lia|].
  set (p := (a * 2 ^ (- e))%Z).
  pose proof (Z.div_mod p d ltac:(lia)) as Hdm.
  pose proof (Z.mod_pos_bound p d Hd) as Hb.
  set (m := (p / d)%Z) in *. set (rm := (p mod d)%Z) in *.
  destruct (Z.ltb_spec (2 * rm) d);
    [|destruct (Z.ltb_spec d (2 * rm)); [|destruct (Z.even m)]];
    eexists; (split; [reflexivity|]); nia.
Qed.

Lemma f64_exponent_le a d : (f64_exponent a d <= Z.max (Z.log2 a - Z.log2 d - 52) (-1074))%Z.
Proof.
  unfold f64_exponent. destruct (scale_pow2 _ _ _) as [p r]. destruct (_ <? _)%Z; lia.
Qed.

(** For an integral [qlen] up to [2^45], an integer below the double
    [1.10 * qlen] is at most [11/10 * qlen]. *)
Lemma f64_mul_1_10_int (z : Z) (q : Q) (T : Z) :
  q == inject_Z z -> (0 <= z <= 2 ^ 45)%Z -> inject_Z T < f64_mul f64_1_10 q ->
  (10 * T <= 11 * z)%Z.
Proof.
  destruct q as [n d']. unfold Qeq; cbn [Qnum Qden inject_Z]. intros Hz Hzb.
  assert (Hn : n = (z * Z.pos d')%Z) by lia. subst n.
  unfold f64_mul, f64_1_10, f64_round, Qmult; cbn [Qnum Qden].
  set (c := 2476979795053773%Z).
  assert (Hpos : (0 <= c * (z * Z.pos d'))%Z) by (unfold c; nia).
  rewrite (proj2 (Z.ltb_ge _ 0) Hpos). rewrite (Z.abs_eq _ Hpos).
  destruct (Z.eqb_spec (c * (z * Z.pos d')) 0) as [H0|H0].
  { unfold Qlt, inject_Z; cbn [Qnum Qden]. lia. }
  assert (Hz0 : (0 < z)%Z) by (destruct (Z.eq_dec z 0) as [->|]; [rewrite Z.mul_0_l, Z.mul_0_r in H0; lia|lia]).
  set (D := Z.pos (2251799813685248 * d')).
  assert (HD : D = (2 ^ 51 * Z.pos d')%Z) by (unfold D; rewrite Pos2Z.inj_mul; reflexivity).
  set (e := f64_exponent (c * (z * Z.pos d')) D).
  assert (He : (e <= -5)%Z).
  { pose proof (f64_exponent_le (c * (z * Z.pos d')) D) as Hle. fold e in Hle.
    assert (Hla : (Z.log2 (c * (z * Z.pos d')) <= 51 + (45 + Z.log2 (Z.pos d') + 1) + 1)%Z).
    { assert (Hc : Z.log2 c = 51%Z) by reflexivity.
      assert (Hlz : (Z.log2 z <= 45)%Z).
      { change 45%Z with (Z.log2 (2 ^ 45)). apply Z.log2_le_mono. lia. }
      pose proof (Z.log2_mul_above c (z * Z.pos d') ltac:(unfold c; lia) ltac:(nia)) as H1.
      pose proof (Z.log2_mul_above z (Z.pos d') ltac:(lia) ltac:(lia)) as H2.
      lia. }
    assert (Hld : Z.log2 D = (Z.log2 (Z.pos d') + 51)%Z).
    { rewrite HD, Z.mul_comm, Z.add_comm. apply Z.log2_mul_pow2; lia. }
    lia. }
  destruct (round_pow2_neg_bound (c * (z * Z.pos d')) D e ltac:(lia) ltac:(lia)) as [m [Hr Hm]].
  rewrite Hr. unfold Qlt, inject_Z; cbn [Qnum Qden]. intro HT.
  set (P := (2 ^ (- e))%Z) in *.
  assert (HP : (32 <= P)%Z).
  { unfold P. change 32%Z with (2 ^ 5)%Z. apply Z.pow_le_mono_r; lia. }
  assert (HP' : Z.pos (Z.to_pos P) = P) by (apply Z2Pos.id; lia).
  rewrite HP' in HT.
  (* [T * P < m], hence [2^52 * T * P < 2 * c * z * P + 2^51] *)
  assert (X : (2 ^ 52 * T * P * Z.pos d' < (2 * c * z * P + 2 ^ 51) * Z.pos d')%Z).
  { rewrite HD in Hm. nia. }
  apply Z.mul_lt_mono_pos_r in X; [|lia].
  unfold c in X. nia.
Qed.

Section Prune.
Variables (q : Q) (min_length : Z) (min_evalue : Q).

Definition skipped (a : aln) : Prop := (aln_len a < min_length)%Z \/ min_evalue < evalue a.
Definition saturated (cur : Z) (a : aln) : Prop :=
  q <= inject_Z cur \/ f64_mul f64_1_10 q <= inject_Z (aln_len a + cur).

Lemma skipped_b a :
  ((aln_len a <? min_length)%Z || Qltb min_evalue (evalue a)) = true <-> skipped a.
Proof.
  unfold skipped. rewrite orb_true_iff, Z.ltb_lt, Qltb_iff. reflexivity.
Qed.

Lemma saturated_b cur a :
  (Qle_bool q (inject_Z cur) || Qle_bool (f64_mul f64_1_10 q) (inject_Z (aln_len a + cur))) = true
  <-> saturated cur a.
Proof.
  unfold saturated. rewrite orb_true_iff, !Qle_bool_iff. reflexivity.
Qed.

Lemma prune_loop_skip cur a l :
  skipped a -> prune_loop q min_length min_evalue cur (a :: l) = prune_loop q min_length min_evalue cur l.
Proof. intro H. apply skipped_b in H. simpl. now rewrite H. Qed.

Lemma prune_loop_stop cur a l :
  ~ skipped a -> saturated cur a -> prune_loop q min_length min_evalue cur (a :: l) = [].
Proof.
  intros H1 H2. rewrite <- skipped_b in H1. apply not_true_is_false in H1.
  apply saturated_b in H2. simpl. now rewrite H1, H2.
Qed.

Lemma prune_loop_keep cur a l :
  ~ skipped a -> ~ saturated cur a ->
  prune_loop q min_length min_evalue cur (a :: l) = a :: prune_loop q min_length min_evalue (cur + aln_len a) l.
Proof.
  intros H1 H2. rewrite <- skipped_b in H1. apply not_true_is_false in H1.
  rewrite <- saturated_b in H2. apply not_true_is_false in H2. simpl. now rewrite H1, H2.
Qed.

Lemma subseq_nil_any {A} (l : list A) : subseq [] l.
Proof. induction l; constructor; assumption. Qed.

Lemma prune_loop_subseq cur l : subseq (prune_loop q min_length min_evalue cur l) l.
Proof.
  revert cur; induction l as [|a l IH]; intro cur; simpl; [constructor|].
  destruct (_ || _); [now constructor|].
  destruct (_ || _); [|now constructor].
  apply subseq_nil_any.
Qed.

Lemma prune_loop_bound cur l :
  prune_loop q min_length min_evalue cur l = [] \/
  inject_Z (cur + kept_length (prune_loop q min_length min_evalue cur l)) < f64_mul f64_1_10 q.
Proof.
  revert cur; induction l as [|a l IH]; intro cur; [now left|].
  simpl. destruct (_ || _); [apply IH|].
  destruct (_ || _) eqn:E; [now left|right].
  apply orb_false_iff in E as [_ E].
  assert (Hlt : inject_Z (aln_len a + cur) < f64_mul f64_1_10 q).
  { apply Qnot_le_lt. intro H. apply Qle_bool_iff in H. congruence. }
  simpl. destruct (IH (cur + aln_len a)%Z) as [H|H].
  - rewrite H. simpl. rewrite Z.add_0_r, Z.add_comm. exact Hlt.
  - rewrite Z.add_assoc. exact H.
Qed.

End Prune.

(** C4 (counterexample): the stop test compares with the binary64 product
    [1.10 * qlen], which for [qlen = 100] is [110.00000000000001].  Two
    records of lengths 60 and 50 reach [covered + len = 110 = 11/10 * 100],
    yet the second one is kept and the scan goes on. *)
Lemma prune_alignments_f64_threshold :
  let a1 := mk_aln "q" "t" 99 60 (1, 60)%Z (1, 60)%Z 100 100 0 in
  let a2 := mk_aln "q" "t" 99 50 (41, 90)%Z (41, 90)%Z 100 100 0 in
  ~ (aln_len a1 < 0)%Z /\ ~ (1 # 1000) < evalue a1 /\
  ~ (aln_len a2 < 0)%Z /\ ~ (1 # 1000) < evalue a2 /\
  ~ 100 <= inject_Z (aln_len a1) /\
  (11 # 10) * 100 <= inject_Z (aln_len a1 + aln_len a2) /\
  f64_mul f64_1_10 100 == 110 + (1 # 70368744177664) /\
  prune_alignments [a1; a2] 0 (1 # 1000) = Ok [a1; a2].
Proof.
  intros a1 a2. vm_compute.
  repeat split; try reflexivity; try discriminate; intro Hc; apply Hc; reflexivity.
Qed.

(** C4 (amended): the pruner on a non-empty block scans from
    [covered = 0]; a record that is too short or whose e-value is too large
    is skipped without changing [covered]; otherwise the scan stops, with
    no later record examined, when [covered >= qlen] or when
    [covered + len] reaches the binary64 product [1.10 * qlen]
    ([f64_mul f64_1_10 qlen]); otherwise the record is kept and [covered]
    grows by its length.  The kept records form an order-preserving
    subsequence; their total length is below that product when some record
    is kept, and at most that product for a non-negative query length.  For
    an integral query length up to [2^45] the total is at most
    [11/10 * qlen]. *)
Theorem prune_alignments_scan (alns : list aln) (min_length : Z) (min_evalue : Q)
  (a0 : aln) (rest : list aln) :
  alns = a0 :: rest ->
  let q := qlen a0 in
  prune_alignments alns min_length min_evalue = Ok (prune_loop q min_length min_evalue 0 alns) /\
  (forall cur a l, skipped min_length min_evalue a ->
     prune_loop q min_length min_evalue cur (a :: l) = prune_loop q min_length min_evalue cur l) /\
  (forall cur a l, ~ skipped min_length min_evalue a -> saturated q cur a ->
     prune_loop q min_length min_evalue cur (a :: l) = []) /\
  (forall cur a l, ~ skipped min_length min_evalue a -> ~ saturated q cur a ->
     prune_loop q min_length min_evalue cur (a :: l) =
     a :: prune_loop q min_length min_evalue (cur + aln_len a) l) /\
  subseq (prune_loop q min_length min_evalue 0 alns) alns /\
  (prune_loop q min_length min_evalue 0 alns = [] \/
   inject_Z (kept_length (prune_loop q min_length min_evalue 0 alns)) < f64_mul f64_1_10 q) /\
  (0 <= q -> inject_Z (kept_length (prune_loop q min_length min_evalue 0 alns)) <= f64_mul f64_1_10 q) /\
  (forall z, q == inject_Z z -> (0 <= z <= 2 ^ 45)%Z ->
   inject_Z (kept_length (prune_loop q min_length min_evalue 0 alns)) <= (11 # 10) * q).
Proof.
  intros -> q. split; [reflexivity|].
  split; [intros; now apply prune_loop_skip|].
  split; [intros; now apply prune_loop_stop|].
  split; [intros; now apply prune_loop_keep|].
  split; [apply prune_loop_subseq|].
  split; [exact (prune_loop_bound q min_length min_evalue 0 (a0 :: rest))|].
  split.
  - intro Hq. destruct (prune_loop_bound q min_length min_evalue 0 (a0 :: rest)) as [H|H].
    + rewrite H. apply f64_round_nonneg. unfold f64_1_10.
      apply Qmult_le_0_compat; [discriminate|exact Hq].
    + apply Qlt_le_weak. exact H.
  - intros z Hz Hzb.
    setoid_replace ((11 # 10) * q) with ((11 # 10) * inject_Z z) by (rewrite Hz; reflexivity).
    destruct (prune_loop_bound q min_length min_evalue 0 (a0 :: rest)) as [H|H].
    + rewrite H. unfold Qle, Qmult, inject_Z; cbn [Qnum Qden Pos.mul kept_length]. lia.
    + pose proof (f64_mul_1_10_int z q _ Hz Hzb H) as H10.
      unfold Qle, Qmult, inject_Z; cbn [Qnum Qden Pos.mul]. lia.
Qed.

(** ** Parsing: [parse_blast_line] *)
























(** The literal forms of [float] and [int] on sample texts: underscores
    between digits, exponents, [inf] and [nan] in any case, and the blanks
    each conversion strips. *)
Lemma numeric_literals :
  (exists q, py_float "1_000" = Some q /\ q == 1000) /\
  (exists q, py_float "1e1_0" = Some q /\ q == 10000000000) /\
  (exists q, py_float "1_0.2_5" = Some q /\ q == 41 # 4) /\
  float_ "1__0" = Err ValueError /\ float_ "1_" = Err ValueError /\
  float_ "_1" = Err ValueError /\ float_ "in_f" = Err ValueError /\
  float_ " -Infinity " = Err NonFiniteFloat /\ float_ "nan" = Err NonFiniteFloat /\
  py_int " 1_0 " = Some 10%Z /\ py_int (String (Ascii.ascii_of_nat 160) "12") = Some 12%Z /\
  py_int (String (Ascii.ascii_of_nat 28) "7") = None /\
  parse_ani_line (tsv ["A"; "A"; "1"; "nan"; "0"; "0"]) = Err NonFiniteFloat /\
  parse_ani_line (tsv ["A"; "B"; "1"; "inf"; "5"]) = Err NonFiniteFloat.
Proof.
  split; [eexists; split; [reflexivity|vm_compute; reflexivity]|].
  split; [eexists; split; [reflexivity|vm_compute; reflexivity]|].
  split; [eexists; split; [reflexivity|vm_compute; reflexivity]|].
  repeat split; vm_compute; reflexivity.
Qed.



(** ** Dicts as association lists *)

Section Dicts.
Context {V : Type}.

Lemma dict_mem_In (k : string) (d : list (string * V)) : dict_mem k d = true <-> In k (map fst d).
Proof.
  unfold dict_mem. rewrite existsb_exists. split.
  - intros [[k' v] [Hin Hk]]. apply String.eqb_eq in Hk. simpl in Hk. rewrite Hk.
    apply in_map_iff. now exists (k', v).
  - intro H. apply in_map_iff in H as [[k' v] [Hk Hin]]. simpl in Hk. rewrite <- Hk.
    exists (k', v). split; [assumption|]. apply String.eqb_refl.
Qed.

Lemma dict_mem_false (k : string) (d : list (string * V)) : dict_mem k d = false <-> ~ In k (map fst d).
Proof. rewrite <- dict_mem_In. destruct (dict_mem k d); split; congruence. Qed.

Lemma dict_set_new (k : string) (v : V) d :
  ~ In k (map fst d) -> dict_set k v d = (d ++ [(k, v)])%list.
Proof.
  induction d as [|[k' v'] d IH]; intro H; [reflexivity|]. simpl in *.
  destruct (String.eqb_spec k k'); [subst; tauto|]. f_equal. apply IH. tauto.
Qed.

Lemma dict_set_keys (k : string) (v : V) d :
  In k (map fst d) -> map fst (dict_set k v d) = map fst d.
Proof.
  induction d as [|[k' v'] d IH]; intro H; [destruct H|]. simpl in *.
  destruct (String.eqb_spec k k'); simpl; [congruence|]. f_equal. apply IH.
  destruct H; [congruence|assumption].
Qed.

Lemma dict_get_set_other (k k' : string) (v : V) d :
  k' <> k -> dict_get k' (dict_set k v d) = dict_get k' d.
Proof.
  intro Hne. induction d as [|[k0 v0] d IH]; simpl.
  - destruct (String.eqb_spec k' k); congruence.
  - destruct (String.eqb_spec k k0); simpl.
    + subst. destruct (String.eqb_spec k' k0); congruence.
    + destruct (String.eqb k' k0); congruence.
Qed.

Lemma dict_get_app_new (k : string) (v : V) d :
  ~ In k (map fst d) -> dict_get k (d ++ [(k, v)])%list = Some v.
Proof.
  induction d as [|[k' v'] d IH]; intro H; simpl.
  - now rewrite String.eqb_refl.
  - simpl in H. destruct (String.eqb_spec k k'); [subst; tauto|]. apply IH. tauto.
Qed.

Lemma dict_get_In (k : string) (v : V) d : dict_get k d = Some v -> In (k, v) d.
Proof.
  induction d as [|[k' v'] d IH]; simpl; [discriminate|].
  destruct (String.eqb_spec k k'); [intro H; injection H as <-; subst; now left|].
  intro H; right; now apply IH.
Qed.

Lemma dict_get_None (k : string) d : dict_get k d = None <-> ~ In k (map fst (d : list (string * V))).
Proof.
  induction d as [|[k' v'] d IH]; simpl; [tauto|].
  destruct (String.eqb_spec k k'); [subst; split; [discriminate| tauto]|].
  rewrite IH. split; [intros H [H'|H']; [congruence|tauto] | tauto].
Qed.

End Dicts.

Lemma dict_append_keys k (x : string) (d : list (string * list string)) :
  map fst (dict_append k x d) = map fst d.
Proof.
  induction d as [|[k' l] d IH]; simpl; [reflexivity|].
  destruct (String.eqb k k'); simpl; congruence.
Qed.

Lemma dict_get_append k k' (x : string) (d : list (string * list string)) :
  dict_get k' (dict_append k x d) =
  match dict_get k' d with
  | Some l => Some (if String.eqb k' k then (l ++ [x])%list else l)
  | None => None
  end.
Proof.
  induction d as [|[k0 l] d IH]; simpl; [reflexivity|].
  destruct (String.eqb_spec k k0); simpl.
  - subst k0. destruct (String.eqb_spec k' k).
    + subst. reflexivity.
    + destruct (dict_get k' d); reflexivity.
  - destruct (String.eqb_spec k' k0); [subst; destruct (String.eqb_spec k0 k); congruence|].
    exact IH.
Qed.

(** ** Edges: [build_edges] *)

Section Edges.
Variables (min_ani min_qcov min_tcov : Q).

(** The condition under which a row adds the edge [qname -> tname]. *)
Definition qualifies (keys : list string) (r : ani_row) : Prop :=
  a_qname r <> a_tname r /\ In (a_qname r) keys /\ In (a_tname r) keys /\
  min_qcov <= a_qcov r /\ min_tcov <= a_tcov r /\ min_ani <= a_ani r.

Lemma add_edge_spec edges r q :
  map fst (add_edge min_ani min_qcov min_tcov edges r) = map fst edges /\
  neighbours (add_edge min_ani min_qcov min_tcov edges r) q =
  if String.eqb q (a_qname r) then
    (neighbours edges q ++
       (if String.eqb (a_qname r) (a_tname r) then []
        else if dict_mem (a_qname r) edges && dict_mem (a_tname r) edges
                && negb (Qltb (a_qcov r) min_qcov || Qltb (a_tcov r) min_tcov
                         || Qltb (a_ani r) min_ani)
             then [a_tname r] else []))%list
  else neighbours edges q.
Proof.
  unfold add_edge, neighbours.
  destruct (String.eqb (a_qname r) (a_tname r)) eqn:Eqt.
  { split; [reflexivity|]. destruct (String.eqb q _); [now rewrite app_nil_r|reflexivity]. }
  destruct (dict_mem (a_qname r) edges) eqn:Eq, (dict_mem (a_tname r) edges) eqn:Et; simpl;
    try (split; [reflexivity|]; destruct (String.eqb q _); [now rewrite app_nil_r|reflexivity]).
  destruct (Qltb (a_qcov r) min_qcov || Qltb (a_tcov r) min_tcov || Qltb (a_ani r) min_ani);
    simpl; try (split; [reflexivity|]; destruct (String.eqb q _); [now rewrite app_nil_r|reflexivity]).
  split; [apply dict_append_keys|].
  rewrite dict_get_append.
  destruct (dict_get q edges) as [l|] eqn:Eg.
  - destruct (String.eqb q (a_qname r)); reflexivity.
  - destruct (String.eqb_spec q (a_qname r)); [|reflexivity].
    subst. apply dict_get_None in Eg. apply dict_mem_In in Eq. contradiction.
Qed.

Lemma add_edge_In edges r q t :
  In t (neighbours (add_edge min_ani min_qcov min_tcov edges r) q) <->
  In t (neighbours edges q) \/ (q = a_qname r /\ t = a_tname r /\ qualifies (map fst edges) r).
Proof.
  destruct (add_edge_spec edges r q) as [_ ->]. unfold qualifies.
  rewrite <- !dict_mem_In.
  destruct (String.eqb_spec q (a_qname r)).
  2:{ split; [tauto|]. intros [H|H]; [exact H|tauto]. }
  rewrite in_app_iff.
  destruct (String.eqb_spec (a_qname r) (a_tname r)); simpl.
  { split; [intros [H|[]]; now left|]. intros [H|H]; [now left|tauto]. }
  destruct (dict_mem (a_qname r) edges), (dict_mem (a_tname r) edges); simpl;
    try (split; [intros [H|[]]; now left|]; intros [H|H]; [now left|]; decompose [and] H; discriminate).
  destruct (Qltb (a_qcov r) min_qcov) eqn:E1, (Qltb (a_tcov r) min_tcov) eqn:E2,
    (Qltb (a_ani r) min_ani) eqn:E3; simpl;
    try (split; [intros [H|[]]; now left|]; intros [H|H]; [now left|];
         decompose [and] H; exfalso;
         first [ apply Qltb_iff in E1; apply (Qlt_not_le _ _ E1); assumption
               | apply Qltb_iff in E2; apply (Qlt_not_le _ _ E2); assumption
               | apply Qltb_iff in E3; apply (Qlt_not_le _ _ E3); assumption ]).
  apply Qltb_false in E1, E2, E3.
  split.
  - intros [H|[H|[]]]; [now left|right]. subst. repeat split; auto.
  - intros [H|H]; [now left|right; left]. decompose [and] H. congruence.
Qed.

Lemma add_edge_in_keys edges r :
  map fst (add_edge min_ani min_qcov min_tcov edges r) = map fst edges.
Proof. exact (proj1 (add_edge_spec edges r EmptyString)). Qed.

Lemma build_edges_fold rows edges q t :
  In t (neighbours (fold_left (add_edge min_ani min_qcov min_tcov) rows edges) q) <->
  In t (neighbours edges q) \/
  (exists r, In r rows /\ a_qname r = q /\ a_tname r = t /\ qualifies (map fst edges) r).
Proof.
  revert edges; induction rows as [|r rows IH]; intro edges; simpl.
  - split; [now left|]. intros [H|[r [[] _]]]. exact H.
  - rewrite IH, add_edge_in_keys, add_edge_In. clear IH. split.
    + intros [[H|[H1 [H2 H3]]]|[r' [Hr' H']]]; [now left|right|right].
      * exists r. subst. split; [now left|]. split; [reflexivity|]. split; [reflexivity|exact H3].
      * exists r'. now split; [right|].
    + intros [H|[r' [[<-|Hr'] [H1 [H2 H3]]]]]; [now left; left|left; right; auto|].
      right. exists r'. auto.
Qed.

End Edges.

Lemma neighbours_init (keys : list string) q : neighbours (map (fun s => (s, [])) keys) q = [].
Proof.
  unfold neighbours. induction keys as [|k keys IH]; simpl; [reflexivity|].
  destruct (String.eqb q k); [reflexivity|exact IH].
Qed.


Lemma build_edges_keys_gen min_ani min_qcov min_tcov rows e :
  map fst (fold_left (add_edge min_ani min_qcov min_tcov) rows e) = map fst e.
Proof.
  revert e; induction rows as [|r rows IH]; intro e; simpl; [reflexivity|].
  rewrite IH. apply add_edge_in_keys.
Qed.

Lemma keys_init (keys : list string) : map fst (map (fun s => (s, [] : list string)) keys) = keys.
Proof. rewrite map_map. simpl. apply map_id. Qed.

Lemma build_edges_In min_ani min_qcov min_tcov sorted_seqs rows q t :
  In t (neighbours (build_edges min_ani min_qcov min_tcov sorted_seqs rows) q) <->
  exists r, In r rows /\ a_qname r = q /\ a_tname r = t /\
            qualifies min_ani min_qcov min_tcov sorted_seqs r.
Proof.
  unfold build_edges. rewrite build_edges_fold, neighbours_init, keys_init.
  split; [intros [[]|H]; exact H | intro H; now right].
Qed.

(** C3: the edge list built from the summary rows has exactly the catalog
    ids as keys, and [tname] is a neighbour of [qname] iff some row names
    the pair with [qname <> tname], both ids in the catalog and
    [qcov >= min_qcov], [tcov >= min_tcov], [pid >= min_ani].  Edges are
    directed (a row [A -> B] gives [B] no neighbour), a self-pair row adds
    no edge whatever its values, and a row naming an id absent from the
    catalog is dropped without an exception. *)
Theorem build_edges_directed (min_ani min_qcov min_tcov : Q) (sorted_seqs : list string)
  (rows : list ani_row) :
  map fst (build_edges min_ani min_qcov min_tcov sorted_seqs rows) = sorted_seqs /\
  (forall q t,
     In t (neighbours (build_edges min_ani min_qcov min_tcov sorted_seqs rows) q) <->
     exists r, In r rows /\ a_qname r = q /\ a_tname r = t /\
       q <> t /\ In q sorted_seqs /\ In t sorted_seqs /\
       min_qcov <= a_qcov r /\ min_tcov <= a_tcov r /\ min_ani <= a_ani r) /\
  neighbours (build_edges 95 0 85 ["A"; "B"] [mk_ani_row "A" "B" 99 100 100]) "B" = [] /\
  neighbours (build_edges 95 0 85 ["A"; "B"] [mk_ani_row "A" "A" 100 100 100]) "A" = [] /\
  cluster_by_ani [("A", poly_a 10); ("B", poly_a 5)]
    [tsv header_fields; tsv ["A"; "Z"; "1"; "99.0"; "100.0"; "100.0"];
     tsv ["Z"; "B"; "1"; "99.0"; "100.0"; "100.0"]] 95 0 85 1
  = Ok [("A", ["A"]); ("B", ["B"])].
Proof.
  split; [unfold build_edges; rewrite build_edges_keys_gen; apply keys_init|].
  split; [|vm_compute; repeat split; reflexivity].
  intros q t. rewrite build_edges_In. unfold qualifies.
  split; intros [r H]; exists r; decompose [and] H; subst; tauto.
Qed.

(** ** The catalog: [load_seqs] and the length order *)

Lemma load_seqs_acc (records : fasta) (min_length : nat) (acc : list (string * nat)) :
  NoDup (map fst acc) ->
  let d := fold_left (fun seqs r =>
               if (min_length <=? String.length (snd r))%nat
               then dict_set (fst r) (String.length (snd r)) seqs else seqs) records acc in
  NoDup (map fst d) /\
  (forall x, In x (map fst d) <->
             In x (map fst acc) \/
             exists s, In (x, s) records /\ (min_length <= String.length s)%nat).
Proof.
  revert acc; induction records as [|[x0 s0] records IH]; intros acc Hnd; simpl.
  - split; [exact Hnd|]. intro x. split; [now left|]. intros [H|[s [[] _]]]. exact H.
  - destruct (Nat.leb_spec min_length (String.length s0)) as [Hle|Hlt].
    + assert (Hnd' : NoDup (map fst (dict_set x0 (String.length s0) acc)) /\
                     forall x, In x (map fst (dict_set x0 (String.length s0) acc)) <->
                               In x (map fst acc) \/ x = x0).
      { destruct (in_dec string_dec x0 (map fst acc)) as [Hin|Hin].
        - rewrite dict_set_keys by exact Hin. split; [exact Hnd|].
          intro x; split; [now left|]. intros [H| ->]; assumption.
        - rewrite dict_set_new by exact Hin. rewrite map_app. simpl. split.
          + apply NoDup_app; [exact Hnd|repeat constructor; simpl; tauto|].
            intros x Hx [Hx'|[]]. subst. contradiction.
          + intro x. rewrite in_app_iff. simpl. intuition. }
      destruct Hnd' as [Hnd' Hk].
      destruct (IH _ Hnd') as [IH1 IH2]. split; [exact IH1|].
      intro x. rewrite IH2, Hk. split.
      * intros [[H| ->]|[s [Hs Hl]]]; [now left|right|right].
        -- exists s0. split; [now left|exact Hle].
        -- exists s. split; [now right|exact Hl].
      * intros [H|[s [[Hs|Hs] Hl]]]; [now left; left| |now right; exists s].
        injection Hs as -> ->. left; now right.
    + destruct (IH _ Hnd) as [IH1 IH2]. split; [exact IH1|].
      intro x. rewrite IH2. split.
      * intros [H|[s [Hs Hl]]]; [now left|right]. exists s. split; [now right|exact Hl].
      * intros [H|[s [[Hs|Hs] Hl]]]; [now left| |right; now exists s].
        injection Hs as -> ->. lia.
Qed.

Lemma load_seqs_spec (records : fasta) (min_length : nat) :
  NoDup (map fst (load_seqs records min_length)) /\
  (forall x, In x (map fst (load_seqs records min_length)) <->
             exists s, In (x, s) records /\ (min_length <= String.length s)%nat).
Proof.
  destruct (load_seqs_acc records min_length [] (NoDup_nil _)) as [H1 H2].
  split; [exact H1|]. intro x. unfold load_seqs. rewrite H2. simpl. tauto.
Qed.

Lemma longer_eqb_total x y : longer_eqb x y = false -> longer_eqb y x = true.
Proof. unfold longer_eqb. intro H. apply Nat.leb_gt in H. apply Nat.leb_le. lia. Qed.

Definition longer_eq (x y : string * nat) : Prop := longer_eqb x y = true.

Lemma sort_desc_sorted items : Sorted (fun x y => (snd y <= snd x)%nat) (sort_desc items).
Proof.
  eapply Sorted_mono; [|apply (sort_by_sorted longer_eqb longer_eqb_total)].
  intros x y H. apply Nat.leb_le. exact H.
Qed.

Lemma filter_none {A} (f : A -> bool) l : (forall z, In z l -> f z = false) -> filter f l = [].
Proof.
  induction l as [|z l IH]; intro H; simpl; [reflexivity|].
  rewrite (H z (or_introl eq_refl)). apply IH. intros w Hw. apply H. now right.
Qed.

Lemma insert_desc_filter (n : nat) x acc :
  Sorted longer_eq acc ->
  filter (fun p => Nat.eqb (snd p) n) (insert_by longer_eqb x acc) =
  (filter (fun p => Nat.eqb (snd p) n) acc ++
   (if Nat.eqb (snd x) n then [x] else []))%list.
Proof.
  induction acc as [|y acc IH]; intro Hs; simpl; [destruct (Nat.eqb (snd x) n); reflexivity|].
  inversion Hs as [|? ? Hs' Hh]; subst.
  destruct (longer_eqb y x) eqn:E; simpl.
  - rewrite IH by exact Hs'. destruct (Nat.eqb (snd y) n); reflexivity.
  - unfold longer_eqb in E. apply Nat.leb_gt in E.
    destruct (Nat.eqb_spec (snd x) n) as [Hx|Hx]; simpl.
    + assert (Hall : forall z, In z (y :: acc) -> (snd z <= snd y)%nat).
      { apply Sorted_StronglySorted in Hs.
        - inversion Hs as [|? ? _ Hf]; subst. intros z [<-|Hz]; [lia|].
          rewrite Forall_forall in Hf. specialize (Hf z Hz). unfold longer_eq, longer_eqb in Hf.
          apply Nat.leb_le in Hf. exact Hf.
        - intros a b c H1 H2. unfold longer_eq, longer_eqb in *.
          apply Nat.leb_le in H1, H2. apply Nat.leb_le. lia. }
      pose proof (filter_none (fun p => Nat.eqb (snd p) n) (y :: acc)) as Hnil.
      simpl in Hnil. rewrite Hnil; [reflexivity|].
      intros z Hz. apply Nat.eqb_neq. specialize (Hall z Hz). lia.
    + rewrite app_nil_r. reflexivity.
Qed.

Lemma sort_desc_stable_acc (n : nat) items acc :
  Sorted longer_eq acc ->
  filter (fun p => Nat.eqb (snd p) n) (fold_left (fun acc x => insert_by longer_eqb x acc) items acc) =
  (filter (fun p => Nat.eqb (snd p) n) acc ++ filter (fun p => Nat.eqb (snd p) n) items)%list.
Proof.
  revert acc; induction items as [|x items IH]; intros acc Hs; simpl; [now rewrite app_nil_r|].
  rewrite IH by (apply insert_by_sorted; [exact longer_eqb_total|exact Hs]).
  rewrite insert_desc_filter by exact Hs. rewrite <- app_assoc.
  destruct (Nat.eqb (snd x) n); reflexivity.
Qed.

(** Items of equal length keep their catalog order. *)
Lemma sort_desc_stable (n : nat) items :
  filter (fun p => Nat.eqb (snd p) n) (sort_desc items) = filter (fun p => Nat.eqb (snd p) n) items.
Proof. unfold sort_desc, sort_by. rewrite sort_desc_stable_acc; [reflexivity|constructor]. Qed.

(** ** The greedy walk *)

Lemma dict_get_app_some {V} (k : string) (v : V) d d' :
  dict_get k d = Some v -> dict_get k (d ++ d')%list = Some v.
Proof.
  induction d as [|[k' v'] d IH]; simpl; [discriminate|].
  destruct (String.eqb k k'); [tauto|exact IH].
Qed.

Lemma add_members_spec c nbrs acc S acc' S' :
  add_members c nbrs acc S = (acc', S') ->
  exists added, acc' = (acc ++ added)%list /\ map fst S' = (map fst S ++ added)%list /\
    (forall x, In x added <-> In x nbrs /\ ~ In x (map fst S)) /\ NoDup added.
Proof.
  revert acc S; induction nbrs as [|m nbrs IH]; intros acc S H; simpl in H.
  - injection H as <- <-. exists []. rewrite !app_nil_r.
    split; [reflexivity|]. split; [reflexivity|]. split; [simpl; tauto|constructor].
  - destruct (dict_mem m S) eqn:Em.
    + destruct (IH _ _ H) as [added [H1 [H2 [H3 H4]]]]. exists added.
      split; [exact H1|]. split; [exact H2|]. split; [|exact H4].
      apply dict_mem_In in Em. intro x. rewrite H3. simpl. split; [tauto|].
      intros [[<-|Hx] Hn]; [contradiction|tauto].
    + apply dict_mem_false in Em. rewrite dict_set_new in H by exact Em.
      destruct (IH _ _ H) as [added [H1 [H2 [H3 H4]]]]. exists (m :: added).
      split; [rewrite H1, <- app_assoc; reflexivity|].
      split; [rewrite H2, map_app, <- app_assoc; reflexivity|].
      split.
      * intro x. simpl. rewrite H3, map_app, in_app_iff. simpl. split.
        -- intros [<-|[Hx Hn]]; [split; [now left|exact Em]|split; [now right|tauto]].
        -- intros [[<-|Hx] Hn]; [now left|].
           destruct (string_dec m x) as [<-|Hne]; [now left|right].
           split; [exact Hx|]. intros [H'|[H'|[]]]; [contradiction|congruence].
      * constructor; [|exact H4].
        intro Hm. apply H3 in Hm as [_ Hm]. apply Hm. rewrite map_app, in_app_iff. right; now left.
Qed.

Section Greedy.
Variable edges : list (string * list string).

Local Arguments greedy_step : simpl never.

Lemma greedy_step_old C S x :
  In x (map fst S) -> greedy_step edges (C, S) x = (C, S).
Proof. intro H. apply dict_mem_In in H. unfold greedy_step. now rewrite H. Qed.

Lemma greedy_step_new C S x :
  greedy_inv (C, S) -> ~ In x (map fst S) ->
  exists added S', greedy_step edges (C, S) x = ((C ++ [(x, x :: added)])%list, S') /\
    map fst S' = (map fst S ++ x :: added)%list /\
    (forall y, In y added <-> In y (neighbours edges x) /\ ~ In y (map fst S) /\ y <> x) /\
    NoDup added.
Proof.
  intros [_ [_ [Hk _]]] Hx. simpl in Hk.
  unfold greedy_step. pose proof Hx as Hx'. apply dict_mem_false in Hx'. rewrite Hx'.
  rewrite dict_set_new by exact Hx.
  destruct (add_members x (neighbours edges x) [] (S ++ [(x, x)])%list) as [added S'] eqn:E.
  apply add_members_spec in E as [added' [H1 [H2 [H3 H4]]]]. simpl in H1. subst added'.
  exists added, S'. split.
  - rewrite dict_set_new; [reflexivity|]. intro H. apply Hx, Hk, H.
  - split; [rewrite H2, map_app, <- app_assoc; reflexivity|]. split; [|exact H4].
    intro y. rewrite H3, map_app, in_app_iff. simpl. split.
    + intros [Hy Hn]. split; [exact Hy|]. split; [tauto|]. intro; subst; tauto.
    + intros [Hy [Hn Hne]]. split; [exact Hy|]. intros [H|[H|[]]]; [contradiction|congruence].
Qed.

Lemma greedy_inv_init : greedy_inv ([], []).
Proof. repeat split; simpl; try tauto; constructor. Qed.

Lemma greedy_step_inv st x : greedy_inv st -> greedy_inv (greedy_step edges st x).
Proof.
  destruct st as [C S]. intro Hi.
  destruct (in_dec string_dec x (map fst S)) as [Hx|Hx].
  - rewrite greedy_step_old by exact Hx. exact Hi.
  - destruct (greedy_step_new C S x Hi Hx) as [added [S' [E [HS [Ha Hnd]]]]].
    rewrite E. destruct Hi as [Hc [Hn [Hk Hh]]]; simpl in *.
    split; [|split; [|split]]; simpl.
    + rewrite map_app, concat_app, Hc, HS. simpl. rewrite app_nil_r. reflexivity.
    + rewrite HS. apply NoDup_app; [exact Hn| |].
      * constructor; [|exact Hnd]. intro H. apply Ha in H. tauto.
      * intros y Hy [<-|Hy']; [contradiction|]. apply Ha in Hy'. tauto.
    + intro k. rewrite map_app, in_app_iff, HS, in_app_iff. simpl.
      intros [H|[H|[]]]; [left; now apply Hk|right; now left].
    + apply Forall_app. split; [exact Hh|]. constructor; [|constructor]. now exists added.
Qed.

Lemma greedy_inv_fold l st : greedy_inv st -> greedy_inv (greedy edges l st).
Proof.
  revert st; induction l as [|x l IH]; intros st H; simpl; [exact H|].
  apply IH, greedy_step_inv, H.
Qed.

Lemma greedy_app l1 l2 st : greedy edges (l1 ++ l2) st = greedy edges l2 (greedy edges l1 st).
Proof. revert st; induction l1 as [|x l1 IH]; intro st; simpl; [reflexivity|apply IH]. Qed.

Lemma greedy_keys_S l st :
  greedy_inv st ->
  (forall y, In y (map fst (snd st)) \/ In y l -> In y (map fst (snd (greedy edges l st)))) /\
  (forall y, In y (map fst (snd (greedy edges l st))) ->
     In y (map fst (snd st)) \/ In y l \/ exists x, In x l /\ In y (neighbours edges x)).
Proof.
  revert st; induction l as [|x l IH]; intros [C S] Hi; simpl.
  - split; [intros y [H|[]]; exact H|]. intros y H; now left.
  - pose proof (greedy_step_inv (C, S) x Hi) as Hi'.
    destruct (IH _ Hi') as [IH1 IH2].
    destruct (in_dec string_dec x (map fst S)) as [Hx|Hx].
    + rewrite greedy_step_old in IH1, IH2 |- * by exact Hx. simpl in *. split.
      * intros y [H|[<-|H]]; apply IH1; tauto.
      * intros y H. destruct (IH2 y H) as [H'|[H'|[z [Hz Hy]]]]; [now left|right; left; now right|].
        right; right. exists z. split; [now right|exact Hy].
    + destruct (greedy_step_new C S x Hi Hx) as [added [S' [E [HS [Ha _]]]]].
      rewrite E in IH1, IH2 |- *. simpl in *. rewrite HS in IH1, IH2. split.
      * intros y [H|[<-|H]]; apply IH1; rewrite in_app_iff; simpl; tauto.
      * intros y H. destruct (IH2 y H) as [H'|[H'|[z [Hz Hy]]]].
        -- rewrite in_app_iff in H'. simpl in H'. destruct H' as [H'|[<-|H']]; [now left|right; left; left; reflexivity|].
           apply Ha in H'. right; right. exists x. split; [now left|tauto].
        -- right; left; now right.
        -- right; right. exists z. split; [now right|exact Hy].
Qed.

Lemma greedy_keys_C l st :
  greedy_inv st ->
  exists new, map fst (fst (greedy edges l st)) = (map fst (fst st) ++ new)%list /\
              (forall y, In y new -> In y l).
Proof.
  revert st; induction l as [|x l IH]; intros [C S] Hi; simpl.
  - exists []. now rewrite app_nil_r.
  - pose proof (greedy_step_inv (C, S) x Hi) as Hi'.
    destruct (IH _ Hi') as [new [E1 E2]].
    destruct (in_dec string_dec x (map fst S)) as [Hx|Hx].
    + rewrite greedy_step_old in E1 |- * by exact Hx.
      exists new. split; [exact E1|]. intros y Hy; right; now apply E2.
    + destruct (greedy_step_new C S x Hi Hx) as [added [S' [E [_ _]]]].
      rewrite E in E1 |- *. simpl in *. rewrite E1, map_app, <- app_assoc.
      exists (x :: new). split; [reflexivity|]. intros y [<-|Hy]; [now left|right; now apply E2].
Qed.

Lemma greedy_get l st k v :
  greedy_inv st -> dict_get k (fst st) = Some v -> dict_get k (fst (greedy edges l st)) = Some v.
Proof.
  revert st; induction l as [|x l IH]; intros [C S] Hi Hg; simpl; [exact Hg|].
  apply IH; [now apply greedy_step_inv|].
  destruct (in_dec string_dec x (map fst S)) as [Hx|Hx].
  - rewrite greedy_step_old by exact Hx. exact Hg.
  - destruct (greedy_step_new C S x Hi Hx) as [added [S' [E _]]]. rewrite E.
    apply dict_get_app_some. exact Hg.
Qed.

End Greedy.

(** C1: the greedy walk is one level deep.  When the walk over
    [sorted_seqs] reaches a sequence [c] that the prefix [pre] before it left
    unassigned, the cluster opened for [c] is [c] followed by exactly the
    direct out-edge targets of [c] that were unassigned at that point (and
    are not [c]); no other sequence, in particular none reachable only
    through a neighbour, is added.  Concretely, with A longer than B longer
    than C and qualifying rows A->B and B->C only, the clusters are
    [{A:[A,B]}] and [{C:[C]}]. *)
Theorem greedy_one_level :
  (forall edges (sorted_seqs pre suf : list string) c,
     sorted_seqs = (pre ++ c :: suf)%list ->
     ~ In c (map fst (snd (greedy edges pre ([], [])))) ->
     exists members,
       dict_get c (fst (greedy edges sorted_seqs ([], []))) = Some (c :: members) /\
       (forall x, In x members <->
          In x (neighbours edges c) /\
          ~ In x (map fst (snd (greedy edges pre ([], [])))) /\ x <> c)) /\
  cluster_by_ani [("C", poly_a 900); ("A", poly_a 1000); ("B", poly_a 950)]
    [tsv header_fields; tsv ["A"; "B"; "1"; "99.0"; "100.0"; "100.0"];
     tsv ["B"; "C"; "1"; "99.0"; "100.0"; "100.0"]] 95 0 85 1
  = Ok [("A", ["A"; "B"]); ("C", ["C"])].
Proof.
  split; [|vm_compute; reflexivity].
  intros edges sorted_seqs pre suf c -> Hc.
  pose proof (greedy_inv_fold edges pre _ greedy_inv_init) as Hi.
  rewrite greedy_app. change (greedy edges (c :: suf) ?st) with (greedy edges suf (greedy_step edges st c)).
  destruct (greedy edges pre ([], [])) as [C S] eqn:E. simpl in Hc.
  destruct (greedy_step_new edges C S c Hi Hc) as [added [S' [E1 [_ [Ha _]]]]].
  rewrite E1. exists added. split; [|exact Ha].
  apply greedy_get; [rewrite <- E1; now apply greedy_step_inv|].
  simpl. apply dict_get_app_new. intro H. apply Hc. destruct Hi as [_ [_ [Hk _]]]. now apply Hk.
Qed.

(** ** The clusters returned by [cluster_by_ani] *)

Lemma cluster_by_ani_Ok records ani_lines min_ani min_qcov min_tcov min_length clusters :
  cluster_by_ani records ani_lines min_ani min_qcov min_tcov min_length = Ok clusters ->
  exists rows, map_result parse_ani_line (tl ani_lines) = Ok rows /\
    clusters = fst (greedy (build_edges min_ani min_qcov min_tcov
                              (sorted_seqs_of (load_seqs records min_length)) rows)
                           (sorted_seqs_of (load_seqs records min_length)) ([], [])).
Proof.
  unfold cluster_by_ani. destruct ani_lines as [|h lines]; [discriminate|]. simpl.
  destruct (map_result parse_ani_line lines) as [rows|e]; simpl; [|discriminate].
  intro H. injection H as <-. now exists rows.
Qed.

Lemma sorted_seqs_NoDup seqs :
  NoDup (map fst seqs) -> NoDup (sorted_seqs_of seqs).
Proof.
  intro H. unfold sorted_seqs_of, sort_desc.
  apply (Permutation_NoDup (l := map fst seqs)); [|exact H].
  symmetry. apply Permutation_map, sort_by_perm.
Qed.

Lemma sorted_seqs_In seqs x : In x (sorted_seqs_of seqs) <-> In x (map fst seqs).
Proof.
  unfold sorted_seqs_of, sort_desc. split; apply Permutation_in;
    [|symmetry]; apply Permutation_map, sort_by_perm.
Qed.

Lemma heads_NoDup (C : list (string * list string)) :
  Forall (fun p => exists t, snd p = fst p :: t) C ->
  NoDup (concat (map snd C)) -> NoDup (map fst C).
Proof.
  induction C as [|[k ms] C IH]; intros Hh Hnd; simpl; [constructor|].
  inversion Hh as [|? ? [t Ht] Hh']; subst. simpl in *. subst ms.
  simpl in Hnd. apply NoDup_cons_iff in Hnd as [Hk Hnd].
  constructor; [|apply IH; [exact Hh'|eapply NoDup_app_remove_l; exact Hnd]].
  intro H. apply Hk, in_app_iff. right.
  apply in_map_iff in H as [[k' ms'] [Hk' Hin]]. simpl in Hk'. subst k'.
  rewrite Forall_forall in Hh'. destruct (Hh' _ Hin) as [t' Ht']. simpl in Ht'.
  apply in_concat. exists ms'. split; [apply in_map_iff; exists (k, ms'); auto|].
  rewrite Ht'. now left.
Qed.

(** C2: the clusters returned by [cluster_by_ani] partition the catalog.
    Every sequence of length at least [min_length] occurs exactly once among
    all member lists, and no other id occurs; every member list starts with
    its centroid, and the centroids are distinct.  The walk order lists the
    catalog by descending length, stably (ids of one length keep their order
    in the catalog dict).  A sequence [c] of that order is a centroid iff
    the part of the walk before it left [c] unassigned, so a sequence
    absorbed into an earlier centroid's cluster never becomes a centroid. *)
Theorem cluster_by_ani_partition (records : fasta) (ani_lines : list string)
  (min_ani min_qcov min_tcov : Q) (min_length : nat) clusters :
  cluster_by_ani records ani_lines min_ani min_qcov min_tcov min_length = Ok clusters ->
  let seqs := load_seqs records min_length in
  let sorted_seqs := sorted_seqs_of seqs in
  (forall x, (exists s, In (x, s) records /\ (min_length <= String.length s)%nat) ->
     count_occ string_dec (concat (map snd clusters)) x = 1%nat) /\
  (forall x, ~ (exists s, In (x, s) records /\ (min_length <= String.length s)%nat) ->
     count_occ string_dec (concat (map snd clusters)) x = 0%nat) /\
  (forall c ms, In (c, ms) clusters -> exists t, ms = c :: t) /\
  NoDup (map fst clusters) /\
  Sorted (fun x y => (snd y <= snd x)%nat) (sort_desc seqs) /\
  Permutation (sort_desc seqs) seqs /\
  (forall n, filter (fun p => Nat.eqb (snd p) n) (sort_desc seqs) =
             filter (fun p => Nat.eqb (snd p) n) seqs) /\
  exists rows, map_result parse_ani_line (tl ani_lines) = Ok rows /\
    forall pre c suf, sorted_seqs = (pre ++ c :: suf)%list ->
      (In c (map fst clusters) <->
       ~ In c (map fst (snd (greedy (build_edges min_ani min_qcov min_tcov sorted_seqs rows)
                                    pre ([], []))))).
Proof.
  intros Hok seqs sorted_seqs.
  destruct (cluster_by_ani_Ok _ _ _ _ _ _ _ Hok) as [rows [Hrows Hcl]].
  fold seqs sorted_seqs in Hcl.
  set (edges := build_edges min_ani min_qcov min_tcov sorted_seqs rows) in *.
  destruct (load_seqs_spec records min_length) as [Hnd Hcat]. fold seqs in Hnd, Hcat.
  pose proof (sorted_seqs_NoDup _ Hnd) as Hnd'. fold sorted_seqs in Hnd'.
  pose proof (greedy_inv_fold edges sorted_seqs _ greedy_inv_init) as Hi.
  destruct (greedy edges sorted_seqs ([], [])) as [Cf Sf] eqn:Ef. simpl in Hcl. subst Cf.
  destruct Hi as [Hc [HnS [Hk Hh]]]. simpl in Hc, HnS, Hk, Hh.
  (* the assigned ids are exactly the catalog ids *)
  assert (HS : forall x, In x (map fst Sf) <-> In x sorted_seqs).
  { destruct (greedy_keys_S edges sorted_seqs _ greedy_inv_init) as [H1 H2].
    rewrite Ef in H1, H2. simpl in H1, H2. intro x. split.
    - intro H. destruct (H2 x H) as [[]|[H'|[z [_ Hz]]]]; [exact H'|].
      apply build_edges_In in Hz as [r [_ [_ [<- Hq]]]]. apply Hq.
    - intro H. apply H1. now right. }
  assert (Hcat' : forall x, In x (concat (map snd clusters)) <->
                            exists s, In (x, s) records /\ (min_length <= String.length s)%nat).
  { intro x. rewrite Hc, HS. unfold sorted_seqs. rewrite sorted_seqs_In. apply Hcat. }
  rewrite <- Hc in HnS.
  split; [|split; [|split; [|split; [|split; [|split; [|split]]]]]].
  - intros x Hx. exact (proj1 (NoDup_count_occ' string_dec _) HnS x (proj2 (Hcat' x) Hx)).
  - intros x Hx. apply count_occ_not_In. rewrite Hcat'. exact Hx.
  - intros c ms Hin. rewrite Forall_forall in Hh. exact (Hh _ Hin).
  - apply heads_NoDup; assumption.
  - apply sort_desc_sorted.
  - apply sort_by_perm.
  - intro n. apply sort_desc_stable.
  - exists rows. split; [exact Hrows|]. intros pre c suf Hsplit. fold edges.
    pose proof Hnd' as Hnd''. rewrite Hsplit in Hnd''.
    pose proof (NoDup_remove_2 _ _ _ Hnd'') as Hnin. rewrite in_app_iff in Hnin.
    pose proof (greedy_inv_fold edges pre _ greedy_inv_init) as Hip.
    pose proof (greedy_keys_C edges pre _ greedy_inv_init) as [newp [Ep Hp]].
    simpl in Ep.
    rewrite Hsplit, greedy_app in Ef.
    change (greedy edges (c :: suf) ?st) with (greedy edges suf (greedy_step edges st c)) in Ef.
    destruct (greedy edges pre ([], [])) as [C S] eqn:E. simpl in Ep |- *.
    destruct (in_dec string_dec c (map fst S)) as [HcS|HcS].
    + split; [|intro H; exfalso; apply H; exact HcS]. intro Hin. exfalso.
      rewrite greedy_step_old in Ef by exact HcS.
      destruct (greedy_keys_C edges suf _ Hip) as [news [Es Hs]].
      rewrite Ef in Es. simpl in Es. rewrite Es, in_app_iff, Ep in Hin.
      destruct Hin as [Hin|Hin]; [apply Hnin; left; now apply Hp|apply Hnin; right; now apply Hs].
    + split; [intros _; exact HcS|intros _].
      destruct (greedy_step_new edges C S c Hip HcS) as [added [S' [E1 _]]].
      rewrite E1 in Ef.
      assert (Hg : dict_get c (fst (greedy edges suf ((C ++ [(c, c :: added)])%list, S'))) =
                   Some (c :: added)).
      { apply greedy_get; [rewrite <- E1; now apply greedy_step_inv|].
        simpl. apply dict_get_app_new. intro H. apply HcS.
        destruct Hip as [_ [_ [Hkp _]]]. now apply Hkp. }
      rewrite Ef in Hg. simpl in Hg. apply dict_get_In in Hg.
      apply in_map_iff. exists (c, c :: added). split; [reflexivity|exact Hg].
Qed.

(** ** Empty inputs *)

Lemma greedy_no_edges edges l C S :
  (forall x, In x l -> neighbours edges x = []) ->
  greedy_inv (C, S) -> NoDup l -> (forall x, In x l -> ~ In x (map fst S)) ->
  fst (greedy edges l (C, S)) = (C ++ map (fun s => (s, [s])) l)%list.
Proof.
  revert C S; induction l as [|x l IH]; intros C S Hn Hi Hnd Hl; cbn [greedy map].
  - now rewrite app_nil_r.
  - apply NoDup_cons_iff in Hnd as [Hx Hnd].
    assert (HxS : ~ In x (map fst S)) by (apply Hl; now left).
    destruct (greedy_step_new edges C S x Hi HxS) as [added [S' [E [HS [Ha _]]]]].
    assert (added = []) as ->.
    { destruct added as [|y added]; [reflexivity|].
      destruct (proj1 (Ha y) (or_introl eq_refl)) as [Hy _].
      rewrite Hn in Hy by (now left). destruct Hy. }
    rewrite E. rewrite IH.
    + rewrite <- app_assoc. reflexivity.
    + intros y Hy. apply Hn. now right.
    + rewrite <- E. now apply greedy_step_inv.
    + exact Hnd.
    + intros y Hy. rewrite HS, in_app_iff. simpl.
      intros [H|[<-|[]]]; [apply (Hl y); [now right|exact H]|contradiction].
Qed.

(** C9 (counterexample): a summary file with a header and no data rows is
    not refused.  With an empty catalog the result is the empty cluster
    set; with a non-empty one every sequence becomes its own cluster. *)
Lemma cluster_by_ani_header_only :
  cluster_by_ani [] [tsv header_fields] 95 0 85 1 = Ok [] /\
  cluster_by_ani [("A", poly_a 5)] [tsv header_fields] 95 0 85 1 = Ok [("A", ["A"])].
Proof. split; vm_compute; reflexivity. Qed.

(** C9 (amended): there is no EmptyInput failure.  An alignment file with
    no lines makes [next(handle)] raise [StopIteration] inside the generator,
    which Python turns into [RuntimeError] after the header line of the
    summary has been written.  A summary file with no lines at all makes
    [next(handle)] in [cluster_by_ani] raise [StopIteration].  A summary
    file holding only its header gives no error: every catalog sequence of
    length at least [min_length] becomes a singleton cluster, in the walk
    order, and the result is empty exactly when that catalog part is. *)
Theorem empty_inputs_amended :
  (forall min_length, calculate_ani [] min_length = ([HeaderLine header_fields], Some RuntimeError)) /\
  (forall records min_ani min_qcov min_tcov min_length,
     cluster_by_ani records [] min_ani min_qcov min_tcov min_length = Err StopIteration) /\
  (forall records header min_ani min_qcov min_tcov min_length,
     cluster_by_ani records [header] min_ani min_qcov min_tcov min_length =
     Ok (map (fun s => (s, [s])) (sorted_seqs_of (load_seqs records min_length))) /\
     (cluster_by_ani records [header] min_ani min_qcov min_tcov min_length = Ok [] <->
      forall x s, In (x, s) records -> (String.length s < min_length)%nat)).
Proof.
  split; [reflexivity|]. split; [reflexivity|].
  intros records header min_ani min_qcov min_tcov min_length.
  assert (Heq : cluster_by_ani records [header] min_ani min_qcov min_tcov min_length =
     Ok (map (fun s => (s, [s])) (sorted_seqs_of (load_seqs records min_length)))).
  { unfold cluster_by_ani. simpl. f_equal.
    destruct (load_seqs_spec records min_length) as [Hnd _].
    rewrite greedy_no_edges.
    - reflexivity.
    - intros x _. unfold build_edges. simpl. apply neighbours_init.
    - exact greedy_inv_init.
    - now apply sorted_seqs_NoDup.
    - intros x _ []. }
  split; [exact Heq|]. rewrite Heq. split.
  - intros H x s Hin. destruct (Nat.lt_ge_cases (String.length s) min_length) as [Hl|Hl]; [exact Hl|].
    exfalso. destruct (load_seqs_spec records min_length) as [_ Hcat].
    assert (Hx : In x (sorted_seqs_of (load_seqs records min_length))).
    { apply sorted_seqs_In, Hcat. now exists s. }
    injection H as H. destruct (sorted_seqs_of (load_seqs records min_length)); [destruct Hx|discriminate].
  - intro H. destruct (sorted_seqs_of (load_seqs records min_length)) as [|x l] eqn:E; [reflexivity|].
    exfalso. destruct (load_seqs_spec records min_length) as [_ Hcat].
    assert (Hx : In x (sorted_seqs_of (load_seqs records min_length))) by (rewrite E; now left).
    apply sorted_seqs_In, Hcat in Hx as [s [Hs Hl]]. specialize (H x s Hs). lia.
Qed.

(** ** The summary rows *)

Lemma blocks_loop_nonempty key alns lines :
  alns <> [] -> Forall (fun b => b <> []) (fst (blocks_loop key alns lines)).
Proof.
  revert key alns; induction lines as [|line lines IH]; intros key alns H; simpl.
  - destruct alns; [contradiction|]. constructor; [exact H|constructor].
  - destruct (parse_blast_line line) as [a|e]; simpl; [|constructor].
    destruct (key_eqb (aln_key a) key).
    + apply IH. destruct alns; discriminate.
    + pose proof (IH (aln_key a) [a] ltac:(discriminate)) as IH'.
      destruct (blocks_loop (aln_key a) [a] lines) as [bs e]. simpl in *.
      constructor; [exact H|exact IH'].
Qed.

Lemma yield_alignment_blocks_nonempty lines :
  Forall (fun b => b <> []) (fst (yield_alignment_blocks lines)).
Proof.
  destruct lines as [|l lines]; simpl; [constructor|].
  destruct (parse_blast_line l) as [a|e]; [|constructor].
  apply blocks_loop_nonempty. discriminate.
Qed.

Lemma compute_coverage_ok (a0 : aln) (rest : list aln) :
  ~ qlen a0 == 0 -> ~ tlen a0 == 0 -> exists cov, compute_coverage (a0 :: rest) = Ok cov.
Proof.
  intros Hq Ht. unfold compute_coverage, merge_side, percent.
  assert (Psq := sort_by_perm span_leb (map qcoords (a0 :: rest))).
  assert (Pst := sort_by_perm span_leb (map tcoords (a0 :: rest))).
  fold (sort_spans (map qcoords (a0 :: rest))) in Psq.
  fold (sort_spans (map tcoords (a0 :: rest))) in Pst.
  destruct (sort_spans (map qcoords (a0 :: rest))) as [|s1 sq'].
  { apply Permutation_length in Psq. discriminate. }
  destruct (sort_spans (map tcoords (a0 :: rest))) as [|t1 st'].
  { apply Permutation_length in Pst. discriminate. }
  simpl.
  destruct (Qeq_bool (qlen a0) 0) eqn:E1; [apply Qeq_bool_iff in E1; contradiction|].
  destruct (Qeq_bool (tlen a0) 0) eqn:E2; [apply Qeq_bool_iff in E2; contradiction|].
  eexists; reflexivity.
Qed.

Lemma subseq_In {A} (l1 l2 : list A) x : subseq l1 l2 -> In x l1 -> In x l2.
Proof. induction 1; simpl; intuition. Qed.

Lemma prune_alignments_cons a b min_length min_evalue :
  prune_alignments (a :: b) min_length min_evalue =
  Ok (prune_loop (qlen a) min_length min_evalue 0 (a :: b)).
Proof. reflexivity. Qed.

Lemma expected_rows_cons min_length a b bs :
  expected_rows min_length ((a :: b) :: bs) =
  ((match prune_loop (qlen a) min_length default_min_evalue 0 (a :: b) with
    | [] => []
    | (k0 :: _) as kept =>
        match compute_coverage kept with
        | Ok cov => [mk_row (qname k0) (tname k0) (length kept) (compute_ani kept)
                            (fst cov) (snd cov)]
        | Err _ => []
        end
    end) ++ expected_rows min_length bs)%list.
Proof. reflexivity. Qed.

Lemma write_blocks_spec min_length bs :
  Forall (fun b => b <> []) bs ->
  (forall b a, In b bs -> In a b -> ~ qlen a == 0 /\ ~ tlen a == 0) ->
  write_blocks min_length bs = (expected_rows min_length bs, None).
Proof.
  induction bs as [|b bs IH]; intros Hne Hl; [reflexivity|].
  inversion Hne as [|? ? Hb Hne']; subst.
  destruct b as [|a b']; [contradiction|].
  assert (IH' := IH Hne' (fun b0 a0 Hb0 Ha0 => Hl b0 a0 (or_intror Hb0) Ha0)).
  cbn [write_blocks]. unfold summarise_block. rewrite prune_alignments_cons, expected_rows_cons.
  destruct (prune_loop (qlen a) min_length default_min_evalue 0 (a :: b')) as [|k0 kept] eqn:E;
    [exact IH'|].
  assert (Hk : In k0 (a :: b')).
  { apply (subseq_In (prune_loop (qlen a) min_length default_min_evalue 0 (a :: b'))).
    - apply prune_loop_subseq.
    - rewrite E. now left. }
  destruct (Hl _ k0 (or_introl eq_refl) Hk) as [Hq Ht].
  destruct (compute_coverage_ok k0 kept Hq Ht) as [cov Hc].
  simpl. rewrite Hc. simpl. rewrite IH'. reflexivity.
Qed.

(** C7: the summary is the fixed header line followed by exactly one row
    per block whose pruned list is non-empty, in block order: the pair of
    the first kept record, the number of kept records, their ANI and their
    coverage ([expected_rows]); a block pruned to nothing gives no row (its
    pair is absent from the summary), and an exception of the block reader
    comes after these rows.  A self-pair block ([qname = tname]) is written
    like any other: a single record q1/q1 gives the row q1, q1, 1, 100.00,
    50.00, 50.00, while a q1/q2 record with e-value 1.0 gives none. *)
Theorem calculate_ani_rows (lines : list string) (min_length : Z) bs gen_err :
  yield_alignment_blocks lines = (bs, gen_err) ->
  (forall b a, In b bs -> In a b -> ~ qlen a == 0 /\ ~ tlen a == 0) ->
  calculate_ani lines min_length =
    (HeaderLine header_fields :: map DataLine (expected_rows min_length bs), gen_err) /\
  length (expected_rows min_length bs) =
    length (filter (fun b => match prune_alignments b min_length default_min_evalue with
                             | Ok (_ :: _) => true | _ => false end) bs) /\
  calculate_ani
    [tsv ["q1"; "q1"; "100.0"; "500"; "0"; "0"; "1"; "500"; "1"; "500"; "0.0"; "900"; "1000"; "1000"];
     tsv ["q1"; "q2"; "99.0"; "500"; "0"; "0"; "1"; "500"; "1"; "500"; "1.0"; "900"; "1000"; "1000"]] 0
  = ([HeaderLine header_fields; DataLine (mk_row "q1" "q1" 1 100.00 50.00 50.00)], None).
Proof.
  intros Hy Hl.
  pose proof (yield_alignment_blocks_nonempty lines) as Hne. rewrite Hy in Hne. simpl in Hne.
  split; [|split; [|vm_compute; reflexivity]].
  - unfold calculate_ani. rewrite Hy, write_blocks_spec by assumption. reflexivity.
  - clear Hy. induction bs as [|b bs IH]; [reflexivity|].
    inversion Hne as [|? ? Hb Hne']; subst.
    assert (IH' := IH (fun b0 a0 Hb0 Ha0 => Hl b0 a0 (or_intror Hb0) Ha0) Hne').
    destruct b as [|a b']; [contradiction|].
    rewrite expected_rows_cons. cbn [filter]. rewrite prune_alignments_cons.
    destruct (prune_loop (qlen a) min_length default_min_evalue 0 (a :: b')) as [|k0 kept] eqn:E;
      [exact IH'|].
    assert (Hk : In k0 (a :: b')).
    { apply (subseq_In (prune_loop (qlen a) min_length default_min_evalue 0 (a :: b'))).
      - apply prune_loop_subseq.
      - rewrite E. now left. }
    destruct (Hl _ k0 (or_introl eq_refl) Hk) as [Hq Ht].
    destruct (compute_coverage_ok k0 kept Hq Ht) as [cov Hc].
    rewrite Hc. simpl. f_equal. exact IH'.
Qed.

(** ** [compute_coverage] and the record objects *)

Lemma map_insert_by {A B} (f : A -> B) (leb : B -> B -> bool) x l :
  map f (insert_by (fun u v => leb (f u) (f v)) x l) = insert_by leb (f x) (map f l).
Proof.
  induction l as [|y l IH]; simpl; [reflexivity|].
  destruct (leb (f y) (f x)); simpl; [now rewrite IH|reflexivity].
Qed.

Lemma map_sort_by {A B} (f : A -> B) (leb : B -> B -> bool) l :
  map f (sort_by (fun u v => leb (f u) (f v)) l) = sort_by leb (map f l).
Proof.
  unfold sort_by. change (@nil B) with (map f (@nil A)).
  generalize (@nil A) as acc. induction l as [|x l IH]; intro acc; simpl; [reflexivity|].
  rewrite <- map_insert_by. apply IH.
Qed.

Module StoreProofs.
Import Store.

(** The stores built by [alloc] and [set_stop] are typed [heap * nat] and
    those of the lemmas [heap * loc]; these tactics line the two up before
    a case analysis on the call. *)
Ltac sync_merge_refs H x y z :=
  match type of H with context [merge_refs ?st ?a ?b ?c] =>
    match goal with |- context [merge_refs ?st' ?a' ?b' ?c'] =>
      change (merge_refs st' a' b' c') with (merge_refs st a b c) end;
    destruct (merge_refs st a b c) as [x [y z]] end.

Ltac sync_merge_side H x y z :=
  match type of H with context [merge_side_refs ?st ?a] =>
    match goal with |- context [merge_side_refs ?st' ?a'] =>
      change (merge_side_refs st' a') with (merge_side_refs st a) end;
    destruct (merge_side_refs st a) as [x [y z]] end.

Lemma deref_upd_other h l l' v : l' <> l -> deref (upd h l v) l' = deref h l'.
Proof.
  intro H. unfold deref, upd. destruct (Nat.eqb_spec l' l); [contradiction|reflexivity].
Qed.

Lemma deref_upd_same h l v : deref (upd h l v) l = v.
Proof. unfold deref, upd. now rewrite Nat.eqb_refl. Qed.

(** The merge loop writes only [nr_coords[-1]] and fresh list objects. *)
Lemma merge_refs_spec (h : heap) (n : loc) (nr : list loc) (cur : loc) (l : list loc) (n0 : loc) :
  (n0 <= cur < n)%nat -> (forall x, In x l -> (x < n0)%nat) ->
  (forall y, In y nr -> (y < n)%nat /\ y <> cur) ->
  let '(nr', (h', n')) := merge_refs (h, n) nr cur l in
  (n <= n')%nat /\
  (forall y, (y < n)%nat -> y <> cur -> h' y = h y) /\
  map (deref h') nr' = (map (deref h) nr ++ merge_spans (deref h cur) (map (deref h) l))%list.
Proof.
  revert h n nr cur; induction l as [|x l IH]; intros h n nr cur Hc Hl Hnr; simpl.
  - split; [lia|]. split; [reflexivity|]. rewrite map_app. reflexivity.
  - destruct (deref h x) as [start stop] eqn:Ex.
    assert (Hl' : forall x', In x' l -> (x' < n0)%nat) by (intros; apply Hl; now right).
    assert (Hmap : forall h1, (forall y, (y < n0)%nat -> h1 y = h y) ->
                     map (deref h1) l = map (deref h) l).
    { intros h1 H1. apply map_ext_in. intros y Hy. unfold deref. rewrite H1; [reflexivity|].
      now apply Hl'. }
    destruct (start <=? snd (deref h cur) + 1)%Z eqn:Em.
    + unfold set_stop. cbv beta iota.
      set (h1 := upd h cur (fst (deref h cur), Z.max (snd (deref h cur)) stop)).
      pose proof (IH h1 n nr cur Hc Hl' Hnr) as IH'.
      sync_merge_refs IH' nr' h' n'. cbv beta iota in IH'.
      destruct IH' as [Hn [Hf Hm]]. split; [exact Hn|]. split.
      * intros y Hy Hyc. rewrite Hf by assumption. unfold h1, upd.
        destruct (Nat.eqb_spec y cur); [contradiction|reflexivity].
      * rewrite Hm. f_equal.
        -- apply map_ext_in. intros y Hy. apply deref_upd_other, Hnr, Hy.
        -- unfold h1. rewrite deref_upd_same, Hmap.
           ++ destruct (deref h cur) as [c1 c2]. reflexivity.
           ++ intros y Hy. unfold upd. destruct (Nat.eqb_spec y cur); [lia|reflexivity].
    + unfold alloc. cbv beta iota. set (h1 := upd h n (start, stop)).
      assert (Hnr' : forall y, In y (nr ++ [cur])%list -> (y < S n)%nat /\ y <> n).
      { intros y Hy. apply in_app_iff in Hy as [Hy|[<-|[]]]; [|lia].
        destruct (Hnr y Hy). lia. }
      pose proof (IH h1 (S n) (nr ++ [cur])%list n ltac:(lia) Hl' Hnr') as IH'.
      sync_merge_refs IH' nr' h' n'.
      cbv beta iota in IH'. destruct IH' as [Hn [Hf Hm]]. split; [lia|]. split.
      * intros y Hy Hyc. rewrite Hf by lia. unfold h1, upd.
        destruct (Nat.eqb_spec y n); [lia|reflexivity].
      * rewrite Hm, map_app, <- app_assoc. f_equal.
        -- apply map_ext_in. intros y Hy. apply deref_upd_other. destruct (Hnr y Hy). lia.
        -- unfold h1. rewrite deref_upd_same, Hmap.
           ++ simpl. rewrite deref_upd_other by lia. reflexivity.
           ++ intros y Hy. unfold upd. destruct (Nat.eqb_spec y n); [lia|reflexivity].
Qed.

Lemma sort_refs_map h refs : map (deref h) (sort_refs h refs) = sort_spans (map (deref h) refs).
Proof. unfold sort_refs, sort_spans. apply map_sort_by. Qed.

(** One side of [compute_coverage]: the record list objects are only read,
    and the merged spans are those of [merge_side] on their contents. *)
Lemma merge_side_refs_spec (h : heap) (n : loc) (refs : list loc) :
  (forall x, In x refs -> (x < n)%nat) ->
  let '(r, (h', n')) := merge_side_refs (h, n) refs in
  (n <= n')%nat /\ (forall y, (y < n)%nat -> h' y = h y) /\
  match r with
  | Ok nr => merge_side (map (deref h) refs) = Ok (map (deref h') nr)
  | Err e => merge_side (map (deref h) refs) = Err e
  end.
Proof.
  intro Hr. unfold merge_side_refs, merge_side. cbn [fst].
  rewrite <- sort_refs_map.
  assert (Hs : forall x, In x (sort_refs h refs) -> (x < n)%nat).
  { intros x Hx. apply Hr. eapply Permutation_in; [apply sort_by_perm|exact Hx]. }
  destruct (sort_refs h refs) as [|first rest]; simpl.
  - split; [lia|]. split; reflexivity.
  - set (h1 := upd h n (deref h first)).
    assert (Hrest : forall x, In x rest -> (x < n)%nat) by (intros; apply Hs; now right).
    pose proof (merge_refs_spec h1 (S n) (@nil loc) n rest n ltac:(lia) Hrest
                  ltac:(intros y [])) as H.
    sync_merge_refs H nr h' n'. cbv beta iota in H.
    destruct H as [Hn [Hf Hm]]. split; [lia|]. split.
    + intros y Hy. rewrite Hf by lia. unfold h1, upd.
      destruct (Nat.eqb_spec y n); [lia|reflexivity].
    + rewrite Hm. simpl. unfold h1. rewrite deref_upd_same. f_equal. f_equal.
      apply map_ext_in. intros y Hy. symmetry. apply deref_upd_other. specialize (Hrest y Hy). lia.
Qed.

Lemma compute_coverage_st_spec (alns : list haln) (h : heap) (n : loc) :
  (forall a, In a alns -> (h_qcoords a < n)%nat /\ (h_tcoords a < n)%nat) ->
  let '(r, (h', n')) := compute_coverage_st alns (h, n) in
  r = compute_coverage (map (to_aln h) alns) /\
  (forall y, (y < n)%nat -> h' y = h y) /\ (n <= n')%nat.
Proof.
  intro Ha.
  assert (Eq : map qcoords (map (to_aln h) alns) = map (deref h) (map h_qcoords alns))
    by (now rewrite !map_map).
  assert (Et : map tcoords (map (to_aln h) alns) = map (deref h) (map h_tcoords alns))
    by (now rewrite !map_map).
  unfold compute_coverage_st, compute_coverage. rewrite Eq, Et.
  assert (Hq : forall x, In x (map h_qcoords alns) -> (x < n)%nat).
  { intros x Hx. apply in_map_iff in Hx as [a [<- Hx]]. apply Ha, Hx. }
  assert (Hfr : forall (h1 : heap), (forall y, (y < n)%nat -> h1 y = h y) ->
                map (deref h1) (map h_tcoords alns) = map (deref h) (map h_tcoords alns)).
  { intros h1 Hf1. apply map_ext_in. intros x Hx. unfold deref. rewrite Hf1; [reflexivity|].
    apply in_map_iff in Hx as [a [<- Hx]]. apply Ha, Hx. }
  remember (map h_qcoords alns) as qr eqn:Eqr.
  remember (map h_tcoords alns) as tr eqn:Etr.
  pose proof (merge_side_refs_spec h n qr Hq) as H1.
  sync_merge_side H1 r1 h1 n1.
  destruct H1 as [Hn1 [Hf1 Hm1]].
  destruct r1 as [nr_q|e]; rewrite Hm1; cbn [bind]; [|split; [reflexivity|split; assumption]].
  destruct alns as [|a0 rest]; [subst qr; discriminate|].
  cbn [map py_index of_option nth_error bind fst snd to_aln qlen tlen].
  destruct (percent (merged_length (map (deref h1) nr_q)) (h_qlen a0)) as [qcov|e];
    cbn [bind fst snd]; [|split; [reflexivity|split; assumption]].
  assert (Ht : forall x, In x tr -> (x < n1)%nat).
  { intros x Hx. subst tr. apply in_map_iff in Hx as [a [<- Hx]]. specialize (Ha a Hx). lia. }
  pose proof (merge_side_refs_spec h1 n1 tr Ht) as H2.
  sync_merge_side H2 r2 h2 n2.
  destruct H2 as [Hn2 [Hf2 Hm2]]. rewrite Hfr in Hm2 by exact Hf1.
  assert (Hf : forall y, (y < n)%nat -> h2 y = h y).
  { intros y Hy. rewrite Hf2 by lia. apply Hf1, Hy. }
  destruct r2 as [nr_t|e]; rewrite Hm2; cbn [bind fst snd]; [|split; [reflexivity|split; [exact Hf|lia]]].
  destruct (percent (merged_length (map (deref h2) nr_t)) (h_tlen a0)) as [tcov|e];
    cbn [bind fst snd]; (split; [reflexivity|split; [exact Hf|lia]]).
Qed.

(** C10: [compute_coverage] leaves its input unchanged.  When the block's
    coordinate list objects are allocated in the store, every location
    allocated before the call holds the same pair after it, so each
    record's ["qcoords"] and ["tcoords"] read the same values as before (the
    merge works on [qcoords[0][:]] and on fresh lists); the call computes
    [compute_coverage] of the records' contents; and [compute_ani] and
    [compute_coverage] run on the same block give the same results in
    either order. *)
Theorem compute_coverage_input_unchanged (alns : list haln) (h : heap) (n : loc) :
  (forall a, In a alns -> (h_qcoords a < n)%nat /\ (h_tcoords a < n)%nat) ->
  let '(r, (h', n')) := compute_coverage_st alns (h, n) in
  (forall y, (y < n)%nat -> h' y = h y) /\
  map (to_aln h') alns = map (to_aln h) alns /\
  r = compute_coverage (map (to_aln h) alns) /\
  (let '(ani1, st1) := compute_ani_st alns (h, n) in
   let '(cov1, _) := compute_coverage_st alns st1 in
   let '(cov2, st2) := compute_coverage_st alns (h, n) in
   let '(ani2, _) := compute_ani_st alns st2 in
   ani1 = ani2 /\ cov1 = cov2).
Proof.
  intro Ha.
  pose proof (compute_coverage_st_spec alns h n Ha) as H.
  destruct (compute_coverage_st alns (h, n)) as [r [h' n']] eqn:E.
  destruct H as [Hr [Hf Hn]].
  assert (Hm : map (to_aln h') alns = map (to_aln h) alns).
  { apply map_ext_in. intros a Hin. destruct (Ha a Hin) as [Hq Ht].
    unfold to_aln, deref. rewrite (Hf _ Hq), (Hf _ Ht). reflexivity. }
  split; [exact Hf|]. split; [exact Hm|]. split; [exact Hr|].
  unfold compute_ani_st at 1. cbn [fst]. rewrite E.
  unfold compute_ani_st. cbn [fst]. rewrite Hm. split; reflexivity.
Qed.

End StoreProofs.

(** ** Instances of the theorems with hypotheses *)

(** [prune_alignments_scan] on a one-record block. *)
Lemma prune_alignments_scan_witness :
  [mk_aln "q" "t" 95 100 (1, 100)%Z (1, 100)%Z 1000 1000 0] =
    mk_aln "q" "t" 95 100 (1, 100)%Z (1, 100)%Z 1000 1000 0 :: [] /\
  prune_alignments [mk_aln "q" "t" 95 100 (1, 100)%Z (1, 100)%Z 1000 1000 0] 0 (1 # 1000) =
  Ok (prune_loop 1000 0 (1 # 1000) 0 [mk_aln "q" "t" 95 100 (1, 100)%Z (1, 100)%Z 1000 1000 0]).
Proof.
  split; [reflexivity|].
  exact (proj1 (prune_alignments_scan [mk_aln "q" "t" 95 100 (1, 100)%Z (1, 100)%Z 1000 1000 0]
                  0 (1 # 1000) (mk_aln "q" "t" 95 100 (1, 100)%Z (1, 100)%Z 1000 1000 0) []
                  eq_refl)).
Defined.

(** [compute_coverage_merge] on the two-record block of its example. *)
Lemma compute_coverage_merge_witness :
  ~ qlen (mk_aln "q" "t" 95 100 (1, 100)%Z (1, 100)%Z 1000 1000 0) == 0 /\
  ~ tlen (mk_aln "q" "t" 95 100 (1, 100)%Z (1, 100)%Z 1000 1000 0) == 0 /\
  Permutation (sort_spans (map qcoords [mk_aln "q" "t" 95 100 (1, 100)%Z (1, 100)%Z 1000 1000 0;
                                       mk_aln "q" "t" 95 100 (201, 300)%Z (1, 100)%Z 1000 1000 0]))
              (map qcoords [mk_aln "q" "t" 95 100 (1, 100)%Z (1, 100)%Z 1000 1000 0;
                            mk_aln "q" "t" 95 100 (201, 300)%Z (1, 100)%Z 1000 1000 0]).
Proof.
  assert (Hq : ~ qlen (mk_aln "q" "t" 95 100 (1, 100)%Z (1, 100)%Z 1000 1000 0) == 0)
    by (intro H; vm_compute in H; discriminate H).
  assert (Ht : ~ tlen (mk_aln "q" "t" 95 100 (1, 100)%Z (1, 100)%Z 1000 1000 0) == 0)
    by (intro H; vm_compute in H; discriminate H).
  split; [exact Hq|]. split; [exact Ht|].
  exact (proj1 (proj2 (compute_coverage_merge
                         (mk_aln "q" "t" 95 100 (1, 100)%Z (1, 100)%Z 1000 1000 0)
                         [mk_aln "q" "t" 95 100 (201, 300)%Z (1, 100)%Z 1000 1000 0] Hq Ht))).
Defined.

(** [cluster_by_ani_partition] on the A/B/C catalog of C1: C is in
    exactly one cluster. *)
Lemma cluster_by_ani_partition_witness :
  cluster_by_ani [("C", poly_a 900); ("A", poly_a 1000); ("B", poly_a 950)]
    [tsv header_fields; tsv ["A"; "B"; "1"; "99.0"; "100.0"; "100.0"];
     tsv ["B"; "C"; "1"; "99.0"; "100.0"; "100.0"]] 95 0 85 1
  = Ok [("A", ["A"; "B"]); ("C", ["C"])] /\
  count_occ string_dec (concat (map snd [("A", ["A"; "B"]); ("C", ["C"])])) "C" = 1%nat.
Proof.
  assert (H : cluster_by_ani [("C", poly_a 900); ("A", poly_a 1000); ("B", poly_a 950)]
    [tsv header_fields; tsv ["A"; "B"; "1"; "99.0"; "100.0"; "100.0"];
     tsv ["B"; "C"; "1"; "99.0"; "100.0"; "100.0"]] 95 0 85 1
    = Ok [("A", ["A"; "B"]); ("C", ["C"])]) by (vm_compute; reflexivity).
  split; [exact H|].
  apply (proj1 (cluster_by_ani_partition _ _ _ _ _ _ _ H)).
  exists (poly_a 900). split; [left; reflexivity|apply Nat.leb_le; vm_compute; reflexivity].
Defined.

(** [calculate_ani_rows] on the two-line file of its example. *)
Lemma calculate_ani_rows_witness :
  let lines :=
    [tsv ["q1"; "q1"; "100.0"; "500"; "0"; "0"; "1"; "500"; "1"; "500"; "0.0"; "900"; "1000"; "1000"];
     tsv ["q1"; "q2"; "99.0"; "500"; "0"; "0"; "1"; "500"; "1"; "500"; "1.0"; "900"; "1000"; "1000"]] in
  calculate_ani lines 0 =
    (HeaderLine header_fields ::
       map DataLine (expected_rows 0 (fst (yield_alignment_blocks lines))),
     snd (yield_alignment_blocks lines)).
Proof.
  intro lines.
  assert (Hy : yield_alignment_blocks lines =
               (fst (yield_alignment_blocks lines), snd (yield_alignment_blocks lines)))
    by (vm_compute; reflexivity).
  assert (Hl : forall b a, In b (fst (yield_alignment_blocks lines)) -> In a b ->
                 ~ qlen a == 0 /\ ~ tlen a == 0).
  { intros b a Hb Ha. vm_compute in Hb.
    destruct Hb as [<-|[<-|[]]]; destruct Ha as [<-|[]];
      split; intro H; vm_compute in H; discriminate H. }
  exact (proj1 (calculate_ani_rows lines 0 _ _ Hy Hl)).
Defined.

(** [compute_coverage_input_unchanged] on a block of two records whose
    query spans [1,100] and [50,150] merge. *)
Lemma compute_coverage_input_unchanged_witness :
  let h0 : Store.heap := fun l => match l with
    | 0%nat => Some (1, 100)%Z | 1%nat => Some (1, 100)%Z
    | 2%nat => Some (50, 150)%Z | 3%nat => Some (1, 100)%Z | _ => None end in
  let alns := [Store.mk_haln "q" "t" 95 100 0%nat 1%nat 1000 1000 0;
               Store.mk_haln "q" "t" 95 101 2%nat 3%nat 1000 1000 0] in
  fst (Store.compute_coverage_st alns (@pair Store.heap Store.loc h0 4%nat)) =
    compute_coverage (map (Store.to_aln h0) alns).
Proof.
  intros h0 alns.
  assert (Ha : forall a, In a alns -> (Store.h_qcoords a < 4)%nat /\ (Store.h_tcoords a < 4)%nat).
  { intros a [<-|[<-|[]]]; simpl; lia. }
  pose proof (StoreProofs.compute_coverage_input_unchanged alns h0 4%nat Ha) as H.
  destruct (Store.compute_coverage_st alns (@pair Store.heap Store.loc h0 4%nat)) as [r [h' n']].
  exact (proj1 (proj2 (proj2 H))).
Defined.

(** * Further properties of the code *)

(** ** Writing FASTA: [write_fasta] *)

Lemma las_app (a b : string) :
  list_ascii_of_string (a ++ b) = (list_ascii_of_string a ++ list_ascii_of_string b)%list.
Proof. induction a as [|c a IH]; simpl; [reflexivity|now rewrite IH]. Qed.

Lemma las_length (s : string) : List.length (list_ascii_of_string s) = String.length s.
Proof. induction s as [|c s IH]; simpl; [reflexivity|now rewrite IH]. Qed.

Lemma las_substring i w (s : string) :
  list_ascii_of_string (substring i w s) = firstn w (skipn i (list_ascii_of_string s)).
Proof.
  revert i w; induction s as [|c s IH]; intros [|i] [|w]; simpl; try reflexivity.
  - now rewrite IH.
  - rewrite IH. destruct i; reflexivity.
  - apply IH.
Qed.

Lemma las_concat (l : list string) :
  list_ascii_of_string (String.concat EmptyString l) = concat (map list_ascii_of_string l).
Proof.
  induction l as [|x l IH]; [reflexivity|].
  destruct l as [|y l].
  - simpl. now rewrite app_nil_r.
  - change (String.concat EmptyString (x :: y :: l))
      with (x ++ String.concat EmptyString (y :: l)).
    rewrite las_app, IH. reflexivity.
Qed.

Lemma las_inj (a b : string) : list_ascii_of_string a = list_ascii_of_string b -> a = b.
Proof.
  intro H. rewrite <- (string_of_list_ascii_of_string a), <- (string_of_list_ascii_of_string b).
  now f_equal.
Qed.

Lemma wrap_from_spec (s : string) w fuel i :
  (0 < w)%nat -> (String.length s - i <= fuel)%nat ->
  concat (map list_ascii_of_string (wrap_from fuel w i s)) = skipn i (list_ascii_of_string s) /\
  Forall (fun c => 0 < String.length c <= w)%nat (wrap_from fuel w i s) /\
  Forall (fun c => String.length c = w) (removelast (wrap_from fuel w i s)).
Proof.
  intro Hw. revert i; induction fuel as [|fuel IH]; intros i Hf; simpl.
  - rewrite skipn_all2 by (rewrite las_length; lia). repeat split; constructor.
  - destruct (Nat.ltb_spec i (String.length s)) as [Hi|Hi].
    + destruct (IH (i + w)%nat ltac:(lia)) as [H1 [H2 H3]].
      assert (Hc : String.length (substring i w s) = Nat.min w (String.length s - i)).
      { rewrite <- las_length, las_substring, length_firstn, length_skipn, las_length.
        reflexivity. }
      split; [|split].
      * simpl. rewrite H1, las_substring, Nat.add_comm, <- skipn_skipn. apply firstn_skipn.
      * constructor; [rewrite Hc; lia|exact H2].
      * destruct (wrap_from fuel w (i + w) s) as [|c' rest] eqn:E; [constructor|].
        constructor; [|exact H3].
        rewrite Hc. destruct fuel as [|fuel]; [discriminate|].
        simpl in E. destruct (Nat.ltb_spec (i + w) (String.length s)); [lia|discriminate].
    + rewrite skipn_all2 by (rewrite las_length; lia). repeat split; constructor.
Qed.

(** X1: [write_fasta] writes each record as a header line [>seq_id] and
    then the sequence lines.  With [line_width > 0] these are the slices of
    the sequence: they concatenate back to it, each holds 1 to
    [line_width] characters and all but the last exactly [line_width] (so an
    empty sequence gets no sequence line).  With [line_width <= 0] the whole
    sequence is one line (an empty one for an empty sequence). *)
Theorem write_fasta_record_lines (line_width : Z) (seq_id sequence : string) :
  exists chunks,
    write_fasta [(seq_id, sequence)] line_width =
      String ">"%char (seq_id ++ newline) :: map (fun c => c ++ newline) chunks /\
    String.concat EmptyString chunks = sequence /\
    ((0 < line_width)%Z ->
       Forall (fun c => 0 < String.length c <= Z.to_nat line_width)%nat chunks /\
       Forall (fun c => String.length c = Z.to_nat line_width) (removelast chunks)) /\
    ((line_width <= 0)%Z -> chunks = [sequence]).
Proof.
  unfold write_fasta, write_record. simpl.
  destruct (Z.ltb_spec 0 line_width) as [Hw|Hw].
  - exists (wrap_from (String.length sequence) (Z.to_nat line_width) 0 sequence).
    destruct (wrap_from_spec sequence (Z.to_nat line_width) (String.length sequence) 0
                ltac:(lia) ltac:(lia)) as [H1 [H2 H3]].
    split; [now rewrite app_nil_r|]. split; [|split; [auto|lia]].
    apply las_inj. now rewrite las_concat, H1.
  - exists [sequence]. split; [reflexivity|]. split; [reflexivity|]. split; [lia|auto].
Qed.

(** ** Filtering FASTA: [filter_sequences] *)

(** X2: [filter_sequences] writes, in input order, exactly the records whose
    id is in the set (or, with [exclude], not in it), every record with
    such an id, repeated ids included, and returns how many it wrote; the
    keep and exclude runs on one set split the input between them. *)
Theorem filter_sequences_selects (records : fasta) (sequence_ids : list string) :
  (forall exclude,
     exists kept,
       filter_sequences records sequence_ids exclude = (write_fasta kept 80, length kept) /\
       subseq kept records /\
       (forall r, In r records ->
          In r kept <-> (In (fst r) sequence_ids <-> exclude = false))) /\
  (snd (filter_sequences records sequence_ids false) +
   snd (filter_sequences records sequence_ids true) = length records)%nat.
Proof.
  assert (Hmem : forall x, mem_ids sequence_ids x = true <-> In x sequence_ids).
  { intro x. unfold mem_ids. rewrite existsb_exists. split.
    - intros [y [Hy Hxy]]. apply String.eqb_eq in Hxy. now subst.
    - intro H. exists x. split; [exact H|apply String.eqb_refl]. }
  split.
  - intro exclude. eexists. split; [reflexivity|]. split.
    + induction records as [|r records IH]; simpl; [constructor|].
      destruct (xorb _ _); [now constructor|now constructor].
    + intros r Hr. rewrite filter_In, <- Hmem.
      destruct (mem_ids sequence_ids (fst r)), exclude; simpl; intuition congruence.
  - simpl. induction records as [|r records IH]; simpl; [reflexivity|].
    destruct (mem_ids sequence_ids (fst r)); simpl; lia.
Qed.

(** ** The temporary directory: [get_temp_directory] *)

Lemma first_usable_Some isdir ds d :
  first_usable isdir ds = Some d -> In (Some d) ds /\ usable_dir isdir (Some d) = true.
Proof.
  induction ds as [|d0 ds IH]; simpl; [discriminate|].
  destruct (usable_dir isdir d0) eqn:E.
  - intros ->. auto.
  - intro H. destruct (IH H). auto.
Qed.

Lemma first_usable_None isdir ds :
  first_usable isdir ds = None <-> Forall (fun d => usable_dir isdir d = false) ds.
Proof.
  induction ds as [|d0 ds IH]; simpl; [split; auto|].
  destruct (usable_dir isdir d0) eqn:E.
  - split; [|intro H; inversion H; congruence].
    intros ->. discriminate.
  - rewrite IH. split; [auto|intro H; now inversion H].
Qed.

Lemma usable_dir_Some isdir s :
  usable_dir isdir (Some s) = true -> s <> EmptyString /\ isdir s = true.
Proof.
  simpl. intro H. apply andb_true_iff in H as [H1 H2]. split; [|exact H2].
  intros ->. discriminate.
Qed.

(** X3: [get_temp_directory] returns a non-empty path that is a directory:
    [tmp_arg] when it is one, and otherwise the first of [$TEMP], [$TMP],
    [/tmp] and [.] that is; it raises only when none of them is.  So it
    never fails when [/tmp] is a directory. *)
Theorem get_temp_directory_spec (isdir : string -> bool) (environ : string -> option string)
  (tmp_arg : string) :
  (forall d, get_temp_directory isdir environ tmp_arg = Some d ->
     d <> EmptyString /\ isdir d = true /\
     (d = tmp_arg \/ environ "TEMP" = Some d \/ environ "TMP" = Some d \/
      d = "/tmp" \/ d = ".")) /\
  (usable_dir isdir (Some tmp_arg) = true ->
     get_temp_directory isdir environ tmp_arg = Some tmp_arg) /\
  (get_temp_directory isdir environ tmp_arg = None <->
     Forall (fun d => usable_dir isdir d = false)
       [Some tmp_arg; environ "TEMP"; environ "TMP"; Some "/tmp"; Some "."]) /\
  (isdir "/tmp" = true -> get_temp_directory isdir environ tmp_arg <> None).
Proof.
  unfold get_temp_directory.
  destruct (usable_dir isdir (Some tmp_arg)) eqn:E0.
  - split; [intros d H; injection H as <-; destruct (usable_dir_Some _ _ E0); tauto|].
    split; [reflexivity|]. split; [split; [discriminate|intro H; inversion H; congruence]|].
    intros _; discriminate.
  - assert (HN : first_usable isdir [environ "TEMP"; environ "TMP"; Some "/tmp"; Some "."] = None <->
              Forall (fun d => usable_dir isdir d = false)
                [Some tmp_arg; environ "TEMP"; environ "TMP"; Some "/tmp"; Some "."]).
    { rewrite first_usable_None. split; [intro H; now constructor|intro H; now inversion H]. }
    split; [|split; [discriminate|split; [exact HN|]]].
    + intros d H. apply first_usable_Some in H as [Hin Hu].
      destruct (usable_dir_Some _ _ Hu) as [H1 H2]. split; [exact H1|split; [exact H2|]].
      simpl in Hin. intuition congruence.
    + intros Ht H. apply HN in H. inversion_clear H as [|? ? _ H1].
      inversion_clear H1 as [|? ? _ H2]. inversion_clear H2 as [|? ? _ H3].
      inversion_clear H3 as [|? ? H4 _]. simpl in H4. rewrite Ht in H4. discriminate.
Qed.

(** ** The [derep] command after BLAST: [dereplicate_sequences] and [filter_sequences] *)

Lemma cluster_by_ani_keys records ani_lines min_ani min_qcov min_tcov min_length clusters :
  cluster_by_ani records ani_lines min_ani min_qcov min_tcov min_length = Ok clusters ->
  NoDup (map fst clusters) /\
  forall c, In c (map fst clusters) ->
    exists s, In (c, s) records /\ (min_length <= String.length s)%nat.
Proof.
  intro Hok. destruct (cluster_by_ani_Ok _ _ _ _ _ _ _ Hok) as [rows [_ Hcl]].
  set (sorted_seqs := sorted_seqs_of (load_seqs records min_length)) in Hcl.
  set (edges := build_edges min_ani min_qcov min_tcov sorted_seqs rows) in Hcl.
  pose proof (greedy_inv_fold edges sorted_seqs _ greedy_inv_init) as Hi.
  destruct (greedy_keys_S edges sorted_seqs _ greedy_inv_init) as [_ H2].
  destruct (greedy edges sorted_seqs ([], [])) as [Cf Sf] eqn:Ef. simpl in Hcl, H2. subst Cf.
  destruct Hi as [Hc [HnS [Hk Hh]]]. simpl in Hc, HnS, Hk, Hh.
  split; [apply heads_NoDup; [exact Hh|now rewrite Hc]|].
  intros c Hin. apply (proj2 (load_seqs_spec records min_length) c).
  apply sorted_seqs_In. fold sorted_seqs.
  destruct (H2 c (Hk c Hin)) as [[]|[H|[z [_ Hz]]]]; [exact H|].
  apply build_edges_In in Hz as [r [_ [_ [<- Hq]]]]. apply Hq.
Qed.

Lemma dereplicate_sequences_Ok records blast_lines min_ani min_tcov reps :
  dereplicate_sequences records blast_lines min_ani min_tcov = Ok reps ->
  exists ani_lines clusters,
    cluster_by_ani records ani_lines min_ani 0 min_tcov 1 = Ok clusters /\
    reps = map fst clusters.
Proof.
  unfold dereplicate_sequences. destruct (calculate_ani blast_lines 0) as [out [e|]]; [discriminate|].
  destruct (cluster_by_ani _ _ _ _ _ _) as [clusters|e] eqn:E; simpl; [|discriminate].
  intro H. injection H as <-. eauto.
Qed.

Lemma NoDup_fst_In {A B} (l : list (A * B)) k a b :
  NoDup (map fst l) -> In (k, a) l -> In (k, b) l -> a = b.
Proof.
  induction l as [|[k' c] l IH]; simpl; [tauto|].
  intros Hnd Ha Hb. apply NoDup_cons_iff in Hnd as [Hk Hnd].
  destruct Ha as [Ha|Ha], Hb as [Hb|Hb].
  - congruence.
  - injection Ha as -> ->. exfalso. apply Hk, in_map_iff. now exists (k, b).
  - injection Hb as -> ->. exfalso. apply Hk, in_map_iff. now exists (k, a).
  - now apply IH.
Qed.

(** X4: with distinct ids in the input FASTA, the [derep] command writes
    one record per cluster: the records of the centroids, in input order,
    each with a non-empty sequence, and the count it reports is the number
    of clusters. *)
Theorem derep_output_one_per_cluster (records : fasta) (blast_lines : list string)
  (min_ani min_tcov : Q) out num_written :
  NoDup (map fst records) ->
  derep_output records blast_lines min_ani min_tcov = Ok (out, num_written) ->
  exists reps kept,
    dereplicate_sequences records blast_lines min_ani min_tcov = Ok reps /\
    out = write_fasta kept 80 /\ num_written = length reps /\
    subseq kept records /\ Permutation (map fst kept) reps /\
    Forall (fun r => 0 < String.length (snd r))%nat kept.
Proof.
  intros Hnd H. unfold derep_output in H.
  destruct (dereplicate_sequences records blast_lines min_ani min_tcov) as [reps|e] eqn:Ed;
    [|discriminate].
  simpl in H. injection H as Hout Hn.
  destruct (dereplicate_sequences_Ok _ _ _ _ _ Ed) as [ani_lines [clusters [Hc ->]]].
  destruct (cluster_by_ani_keys _ _ _ _ _ _ _ Hc) as [Hrnd Hrin].
  set (kept := filter (fun r => xorb (mem_ids (map fst clusters) (fst r)) false) records) in *.
  assert (Hmem : forall x, mem_ids (map fst clusters) x = true <-> In x (map fst clusters)).
  { intro x. unfold mem_ids. rewrite existsb_exists. split.
    - intros [y [Hy Hxy]]. apply String.eqb_eq in Hxy. now subst.
    - intro Hx. exists x. split; [exact Hx|apply String.eqb_refl]. }
  assert (Hkept : forall r, In r kept <-> In r records /\ In (fst r) (map fst clusters)).
  { intro r. unfold kept. rewrite filter_In, xorb_false_r, Hmem. reflexivity. }
  assert (Hperm : Permutation (map fst kept) (map fst clusters)).
  { apply NoDup_Permutation; [|exact Hrnd|].
    - unfold kept. clear - Hnd.
      induction records as [|r records IH]; simpl; [constructor|].
      apply NoDup_cons_iff in Hnd as [Hr Hnd].
      destruct (xorb _ _); simpl; [|now apply IH].
      constructor; [|now apply IH].
      intro Hin. apply Hr. apply in_map_iff in Hin as [r' [Hr' Hin]].
      apply filter_In in Hin as [Hin _]. apply in_map_iff. now exists r'.
    - intro x. split.
      + intro Hx. apply in_map_iff in Hx as [r [<- Hr]]. apply Hkept in Hr. apply Hr.
      + intro Hx. destruct (Hrin x Hx) as [s [Hs _]].
        apply in_map_iff. exists (x, s). split; [reflexivity|]. apply Hkept. now split. }
  exists (map fst clusters), kept. split; [reflexivity|]. split; [now rewrite <- Hout|].
  split; [rewrite <- Hn; apply Permutation_length in Hperm;
          now rewrite <- Hperm, length_map|].
  split; [|split; [exact Hperm|]].
  - unfold kept. clear. induction records as [|r records IH]; simpl; [constructor|].
    destruct (xorb _ _); now constructor.
  - apply Forall_forall. intros [x s] Hr. apply Hkept in Hr as [Hr Hx]. simpl in Hx |- *.
    destruct (Hrin x Hx) as [s' [Hs' Hl]].
    rewrite (NoDup_fst_In records x s s' Hnd Hr Hs'). lia.
Qed.

(** [derep_output_one_per_cluster] on two sequences, [B] contained in [A]. *)
Lemma derep_output_one_per_cluster_witness :
  let records := [("A", poly_a 100); ("B", poly_a 95)] in
  let lines :=
    [tsv ["A"; "A"; "100.0"; "100"; "0"; "0"; "1"; "100"; "1"; "100"; "0.0"; "180"; "100"; "100"];
     tsv ["A"; "B"; "99.0"; "95"; "1"; "0"; "1"; "95"; "1"; "95"; "0.0"; "170"; "100"; "95"];
     tsv ["B"; "A"; "99.0"; "95"; "1"; "0"; "1"; "95"; "1"; "95"; "0.0"; "170"; "95"; "100"];
     tsv ["B"; "B"; "100.0"; "95"; "0"; "0"; "1"; "95"; "1"; "95"; "0.0"; "170"; "95"; "95"]] in
  derep_output records lines 95 85 = Ok (write_fasta [("A", poly_a 100)] 80, 1%nat) /\
  exists reps kept,
    dereplicate_sequences records lines 95 85 = Ok reps /\
    write_fasta [("A", poly_a 100)] 80 = write_fasta kept 80 /\ 1%nat = length reps /\
    subseq kept records /\ Permutation (map fst kept) reps /\
    Forall (fun r => 0 < String.length (snd r))%nat kept.
Proof.
  intros records lines.
  assert (E : derep_output records lines 95 85 = Ok (write_fasta [("A", poly_a 100)] 80, 1%nat))
    by (vm_compute; reflexivity).
  split; [exact E|].
  apply (derep_output_one_per_cluster records lines 95 85 _ _); [|exact E].
  constructor; [simpl; intros [H|[]]; discriminate|constructor; [intros []|constructor]].
Defined.

(** ** The ANI file round trip *)

Lemma digit_char_val d : (0 <= d <= 9)%Z -> digit_val (digit_char d) = Some d.
Proof.
  intro H. assert (d = 0 \/ d = 1 \/ d = 2 \/ d = 3 \/ d = 4 \/ d = 5 \/ d = 6 \/ d = 7 \/
                   d = 8 \/ d = 9)%Z as Hd by lia.
  repeat (destruct Hd as [->|Hd]; [reflexivity|]); subst; reflexivity.
Qed.

Lemma num_char_safe c :
  num_char c -> c <> tab /\ c <> lf /\ c <> cr /\ is_space c = false.
Proof.
  intros [->|[->|[d [H ->]]]]; [repeat split; discriminate..|].
  assert (d = 0 \/ d = 1 \/ d = 2 \/ d = 3 \/ d = 4 \/ d = 5 \/ d = 6 \/ d = 7 \/
          d = 8 \/ d = 9)%Z as Hd by lia.
  repeat (destruct Hd as [->|Hd]; [repeat split; discriminate|]); subst;
    repeat split; discriminate.
Qed.

Lemma num_char_not_underscore c : num_char c -> c <> "_"%char.
Proof.
  intros [->|[->|[d [H ->]]]]; [discriminate..|].
  assert (d = 0 \/ d = 1 \/ d = 2 \/ d = 3 \/ d = 4 \/ d = 5 \/ d = 6 \/ d = 7 \/
          d = 8 \/ d = 9)%Z as Hd by lia.
  repeat (destruct Hd as [->|Hd]; [discriminate|]); subst; discriminate.
Qed.

Lemma drop_underscores_id prev s :
  prev <> "_"%char -> Forall (fun c => c <> "_"%char) (list_ascii_of_string s) ->
  drop_underscores prev s = Some s.
Proof.
  revert prev; induction s as [|c s IH]; intros prev Hp Hs; simpl.
  - destruct (Ascii.eqb_spec prev "_"%char); congruence.
  - inversion Hs as [|? ? Hc Hs']; subst.
    destruct (Ascii.eqb_spec c "_"%char); [contradiction|].
    destruct (Ascii.eqb_spec prev "_"%char); [contradiction|]. simpl.
    rewrite (IH c Hc Hs'). reflexivity.
Qed.

(** Text made of digits, [-] and [.] has no underscore to drop. *)
Lemma without_underscores_num s :
  Forall num_char (list_ascii_of_string s) -> without_underscores s = Some s.
Proof.
  intro H. apply drop_underscores_id; [discriminate|].
  eapply Forall_impl; [|exact H]. exact num_char_not_underscore.
Qed.

Lemma digits_digit c s a k d :
  digit_val c = Some d -> digits (String c s) a k = digits s (10 * a + d) (S k).
Proof. intro H. simpl. now rewrite H. Qed.

Lemma dec_digits_S fuel n acc :
  dec_digits (S fuel) n acc =
  if (n <? 10)%Z then String (digit_char (n mod 10)) acc
  else dec_digits fuel (n / 10) (String (digit_char (n mod 10)) acc).
Proof. reflexivity. Qed.

Lemma dec_digits_spec fuel n acc :
  (0 <= n < 10 ^ Z.of_nat (S fuel))%Z ->
  exists ds, list_ascii_of_string (dec_digits (S fuel) n acc) =
             (ds ++ list_ascii_of_string acc)%list /\
    ds <> [] /\ Forall (fun c => exists d, (0 <= d <= 9)%Z /\ c = digit_char d) ds /\
    forall a k, digits (dec_digits (S fuel) n acc) a k =
                digits acc (a * 10 ^ Z.of_nat (List.length ds) + n) (k + List.length ds).
Proof.
  revert n acc; induction fuel as [|fuel IH]; intros n acc Hn;
    pose proof (Z.mod_pos_bound n 10 ltac:(lia)) as Hm;
    assert (Hd : Forall (fun c => exists d, (0 <= d <= 9)%Z /\ c = digit_char d)
                   [digit_char (n mod 10)])
      by (constructor; [exists (n mod 10)%Z; split; [lia|reflexivity]|constructor]).
  - change (10 ^ Z.of_nat 1)%Z with 10%Z in Hn. rewrite dec_digits_S.
    replace (n <? 10)%Z with true by (symmetry; apply Z.ltb_lt; lia).
    exists [digit_char (n mod 10)]. split; [reflexivity|]. split; [discriminate|].
    split; [exact Hd|]. intros a k.
    rewrite (digits_digit _ _ _ _ (n mod 10)) by (apply digit_char_val; lia).
    rewrite Z.mod_small by lia. cbn [List.length].
    change (10 ^ Z.of_nat 1)%Z with 10%Z. f_equal; [f_equal; lia|lia].
  - rewrite dec_digits_S. destruct (Z.ltb_spec n 10) as [Hs|Hs].
    + exists [digit_char (n mod 10)]. split; [reflexivity|]. split; [discriminate|].
      split; [exact Hd|]. intros a k.
      rewrite (digits_digit _ _ _ _ (n mod 10)) by (apply digit_char_val; lia).
      rewrite Z.mod_small by lia. cbn [List.length].
      change (10 ^ Z.of_nat 1)%Z with 10%Z. f_equal; [f_equal; lia|lia].
    + destruct (IH (n / 10)%Z (String (digit_char (n mod 10)) acc)) as [ds [H1 [H2 [H3 H4]]]].
      { split; [apply Z.div_pos; lia|]. apply Z.div_lt_upper_bound; [lia|].
        rewrite Nat2Z.inj_succ, Z.pow_succ_r in Hn by lia. lia. }
      exists (ds ++ [digit_char (n mod 10)])%list.
      split; [rewrite H1, <- app_assoc; reflexivity|].
      split; [now destruct ds|]. split; [apply Forall_app; split; [exact H3|exact Hd]|].
      intros a k. rewrite H4.
      rewrite (digits_digit _ _ _ _ (n mod 10)) by (apply digit_char_val; lia).
      rewrite length_app. cbn [List.length]. f_equal; [|lia].
      rewrite Nat2Z.inj_add, Z.pow_add_r by lia. change (10 ^ Z.of_nat 1)%Z with 10%Z.
      pose proof (Z.div_mod n 10 ltac:(lia)) as Hdm.
      set (P := (10 ^ Z.of_nat (List.length ds))%Z). set (q := (n / 10)%Z) in *.
      set (r := (n mod 10)%Z) in *. rewrite Hdm. ring.
Qed.

Lemma digits_nondigit c s a k : digit_val c = None -> digits (String c s) a k = (a, k, String c s).
Proof. intro H. simpl. now rewrite H. Qed.

Lemma las_rev_string s acc :
  list_ascii_of_string (rev_string s acc) = (rev (list_ascii_of_string s) ++ list_ascii_of_string acc)%list.
Proof.
  revert acc; induction s as [|c s IH]; intro acc; simpl; [reflexivity|].
  rewrite IH. simpl. now rewrite <- app_assoc.
Qed.

Lemma lstrip_app sp u :
  Forall (fun c => is_space c = true) (list_ascii_of_string sp) ->
  (forall c t, u = String c t -> is_space c = false) ->
  lstrip (sp ++ u) = u.
Proof.
  intros Hsp Hu. induction sp as [|c sp IH]; simpl.
  - destruct u as [|c t]; [reflexivity|]. simpl. now rewrite (Hu c t eq_refl).
  - inversion_clear Hsp as [|? ? Hc Hsp']. rewrite Hc. now apply IH.
Qed.

Lemma rstrip_app t sp cs c :
  list_ascii_of_string t = (cs ++ [c])%list -> is_space c = false ->
  Forall (fun c => is_space c = true) (list_ascii_of_string sp) ->
  rstrip (t ++ sp) = t.
Proof.
  intros Ht Hc Hsp. unfold rstrip.
  assert (E : rev_string (t ++ sp) EmptyString =
              rev_string sp EmptyString ++ rev_string t EmptyString).
  { apply las_inj. rewrite las_app, !las_rev_string, las_app. simpl.
    rewrite !app_nil_r. apply rev_app_distr. }
  rewrite E, lstrip_app.
  - apply las_inj. rewrite !las_rev_string. simpl. now rewrite !app_nil_r, rev_involutive.
  - rewrite las_rev_string. simpl. rewrite app_nil_r. now apply Forall_rev.
  - intros c' t' Ht'. apply (f_equal list_ascii_of_string) in Ht'.
    rewrite las_rev_string, Ht, rev_app_distr in Ht'. simpl in Ht'. injection Ht' as <- _.
    exact Hc.
Qed.

Lemma num_char_num_space c : num_char c -> is_num_space c = false.
Proof.
  intro H. apply num_char_safe in H as [_ [_ [_ H]]]. revert H.
  unfold is_num_space, is_space. set (n := Ascii.nat_of_ascii c).
  destruct ((9 <=? n)%nat && (n <=? 13)%nat); [discriminate|]. cbn [orb].
  destruct (Nat.eqb_spec n 32) as [->|]; [discriminate|].
  destruct (Nat.eqb_spec n 133); [intros; rewrite !orb_true_r in *; discriminate|].
  destruct (Nat.eqb_spec n 160); [intros; rewrite !orb_true_r in *; discriminate|].
  reflexivity.
Qed.

(** [int] and [float] leave a text alone whose ends are not blank. *)
Lemma num_strip_id t c0 cs c :
  list_ascii_of_string t = (c0 :: cs ++ [c])%list -> is_num_space c0 = false ->
  is_num_space c = false -> num_strip t = t.
Proof.
  intros Ht H0 Hc. unfold num_strip.
  assert (E0 : num_lstrip t = t).
  { destruct t as [|c' t']; [discriminate|]. injection Ht as -> _. simpl. now rewrite H0. }
  rewrite E0.
  assert (Er : exists t', rev_string t EmptyString = String c t').
  { destruct (rev_string t EmptyString) as [|c' t'] eqn:E;
      apply (f_equal list_ascii_of_string) in E; rewrite las_rev_string, Ht in E;
      simpl in E; rewrite rev_app_distr in E; simpl in E; [discriminate|].
    injection E as -> _. now exists t'. }
  destruct Er as [t' Er]. rewrite Er. simpl. rewrite Hc. rewrite <- Er.
  apply las_inj. rewrite !las_rev_string. simpl. now rewrite !app_nil_r, rev_involutive.
Qed.

Lemma append_empty (s : string) : (s ++ EmptyString)%string = s.
Proof. apply las_inj. rewrite las_app. apply app_nil_r. Qed.

(** [strip] leaves a line alone whose ends are not blank, and removes the
    line break after it. *)
Lemma strip_line t sp c0 cs c :
  list_ascii_of_string t = (c0 :: cs ++ [c])%list -> is_space c0 = false -> is_space c = false ->
  Forall (fun c => is_space c = true) (list_ascii_of_string sp) ->
  strip (t ++ sp) = t.
Proof.
  intros Ht H0 Hc Hsp. unfold strip.
  change (lstrip (t ++ sp)) with (lstrip (EmptyString ++ (t ++ sp))).
  rewrite (lstrip_app EmptyString (t ++ sp)); [|constructor|].
  - apply (rstrip_app t sp (c0 :: cs) c); assumption.
  - intros c' t' E. apply (f_equal list_ascii_of_string) in E.
    rewrite las_app, Ht in E. simpl in E. injection E as <- _. exact H0.
Qed.

Lemma digit_char_sign c s d :
  (0 <= d <= 9)%Z -> c = digit_char d -> sign (String c s) = (1%Z, String c s).
Proof.
  intros H ->.
  assert (d = 0 \/ d = 1 \/ d = 2 \/ d = 3 \/ d = 4 \/ d = 5 \/ d = 6 \/ d = 7 \/
          d = 8 \/ d = 9)%Z as Hd by lia.
  repeat (destruct Hd as [->|Hd]; [reflexivity|]); subst; reflexivity.
Qed.

Lemma log2_digits n : (0 <= n)%Z -> (0 <= n < 10 ^ Z.of_nat (S (Z.to_nat (Z.log2 n))))%Z.
Proof.
  intro Hn. split; [exact Hn|].
  rewrite Nat2Z.inj_succ, Z2Nat.id by apply Z.log2_nonneg.
  destruct (Z.eq_dec n 0) as [->|Hn0]; [reflexivity|].
  destruct (Z.log2_spec n ltac:(lia)) as [_ H].
  eapply Z.lt_le_trans; [exact H|]. apply Z.pow_le_mono_l. lia.
Qed.

Lemma frac_spec d1 d2 :
  (0 <= d1 <= 9)%Z -> (0 <= d2 <= 9)%Z ->
  let frac := if (d2 =? 0)%Z then String (digit_char d1) EmptyString
              else String (digit_char d1) (String (digit_char d2) EmptyString) in
  exists fs c fp k2,
    list_ascii_of_string frac = (fs ++ [c])%list /\
    Forall (fun c => exists d, (0 <= d <= 9)%Z /\ c = digit_char d) (fs ++ [c]) /\
    digits frac 0 0 = (fp, k2, EmptyString) /\
    ((k2 = 1%nat /\ fp = d1 /\ d2 = 0%Z) \/ (k2 = 2%nat /\ fp = 10 * d1 + d2)%Z).
Proof.
  intros H1 H2 frac. unfold frac. destruct (Z.eqb_spec d2 0) as [E|E].
  - exists [], (digit_char d1), d1, 1%nat. split; [reflexivity|].
    split; [constructor; [exists d1; auto|constructor]|].
    split; [|left; auto].
    rewrite (digits_digit _ _ _ _ d1) by (apply digit_char_val; lia). reflexivity.
  - exists [digit_char d1], (digit_char d2), (10 * d1 + d2)%Z, 2%nat. split; [reflexivity|].
    split; [repeat constructor; [exists d1; auto|exists d2; auto]|].
    split; [|right; auto].
    rewrite (digits_digit _ _ _ _ d1) by (apply digit_char_val; lia).
    rewrite (digits_digit _ _ _ _ d2) by (apply digit_char_val; lia). reflexivity.
Qed.

(** [str] of a two-decimal float reads back, through [float], as the same
    value; its characters are a sign, digits and a dot, the last a digit. *)
Lemma str_float2_spec x :
  exists c0 cs c,
    list_ascii_of_string (str_float2 x) = (c0 :: cs ++ [c])%list /\
    Forall num_char (c0 :: cs ++ [c]) /\ (exists d, (0 <= d <= 9)%Z /\ c = digit_char d) /\
    exists q, py_float (str_float2 x) = Some q /\ q * 100 == inject_Z (Qfloor (x * 100)).
Proof.
  unfold str_float2.
  set (m := Qfloor (x * 100)). set (a := Z.abs m). set (ip := (a / 100)%Z).
  set (d1 := ((a mod 100) / 10)%Z). set (d2 := (a mod 10)%Z).
  assert (Ha : (0 <= a)%Z) by (unfold a; lia).
  assert (Hip : (0 <= ip)%Z) by (unfold ip; apply Z.div_pos; lia).
  assert (H1 : (0 <= d1 <= 9)%Z).
  { unfold d1. pose proof (Z.mod_pos_bound a 100 ltac:(lia)).
    split; [apply Z.div_pos; lia|]. apply Z.lt_succ_r, Z.div_lt_upper_bound; lia. }
  assert (H2 : (0 <= d2 <= 9)%Z) by (unfold d2; pose proof (Z.mod_pos_bound a 10 ltac:(lia)); lia).
  assert (Hadec : a = (100 * ip + 10 * d1 + d2)%Z).
  { unfold ip, d1, d2. pose proof (Z.div_mod a 100 ltac:(lia)).
    pose proof (Z.div_mod (a mod 100) 10 ltac:(lia)).
    rewrite <- (Z.mod_mod_divide a 100 10) by (exists 10%Z; reflexivity).
    lia. }
  destruct (frac_spec d1 d2 H1 H2) as [fs [cl [fp [k2 [Hfl [Hfd [Hfp Hk2]]]]]]].
  set (frac := if (d2 =? 0)%Z then String (digit_char d1) EmptyString
               else String (digit_char d1) (String (digit_char d2) EmptyString)) in *.
  destruct (dec_digits_spec (Z.to_nat (Z.log2 ip)) ip (String "."%char frac) (log2_digits ip Hip))
    as [ds [Hbl [Hne [Hds Hdig]]]].
  set (body := dec_digits (S (Z.to_nat (Z.log2 ip))) ip (String "."%char frac)) in *.
  assert (Hbody : digits body 0 0 = (ip, List.length ds, String "."%char frac)).
  { rewrite Hdig, digits_nondigit by reflexivity. rewrite Z.mul_0_l, Z.add_0_l. reflexivity. }
  assert (Hfrac : fraction (String "."%char frac) = (fp, k2, EmptyString)) by exact Hfp.
  destruct ds as [|dh dt]; [congruence|].
  assert (Hdh : exists d, (0 <= d <= 9)%Z /\ dh = digit_char d) by (inversion Hds; assumption).
  assert (Hnum : Forall num_char (dh :: dt ++ "."%char :: fs ++ [cl])).
  { apply Forall_forall. intros c Hc. simpl in Hc. rewrite in_app_iff in Hc. simpl in Hc.
    rewrite in_app_iff in Hc. unfold num_char.
    destruct Hc as [<-|[Hc|[<-|Hc]]]; [tauto| |tauto|].
    - right; right. rewrite Forall_forall in Hds. apply Hds. now right.
    - right; right. rewrite Forall_forall in Hfd. apply Hfd. apply in_app_iff. exact Hc. }
  assert (Hlast : exists d, (0 <= d <= 9)%Z /\ cl = digit_char d).
  { rewrite Forall_forall in Hfd. apply Hfd, in_app_iff. right. now left. }
  assert (Hval : forall sg, (sg = 1 \/ sg = -1)%Z -> (sg * a = m)%Z ->
            Qmake (sg * (ip * 10 ^ Z.of_nat k2 + fp)) (Pos.of_nat (Nat.pow 10 k2)) *
            Qpower (inject_Z 10) 0 * 100 == inject_Z m).
  { intros sg Hsg Hm. change (Qpower (inject_Z 10) 0) with 1.
    destruct Hk2 as [[-> [-> E]]|[-> ->]];
      [change (Pos.of_nat (Nat.pow 10 1)) with 10%positive;
       change (10 ^ Z.of_nat 1)%Z with 10%Z; rewrite E in Hadec
      |change (Pos.of_nat (Nat.pow 10 2)) with 100%positive;
       change (10 ^ Z.of_nat 2)%Z with 100%Z];
      unfold Qeq, Qmult; cbn [Qnum Qden inject_Z]; lia. }
  destruct (Z.ltb_spec m 0) as [Hm|Hm].
  - exists "-"%char, (dh :: dt ++ "."%char :: fs)%list, cl.
    assert (Hl : list_ascii_of_string (String "-"%char body) =
                 ("-"%char :: (dh :: dt ++ "."%char :: fs) ++ [cl])%list).
    { simpl. rewrite Hbl. simpl. rewrite Hfl. simpl. now rewrite <- app_assoc. }
    split; [exact Hl|]. split; [|split; [exact Hlast|]].
    { constructor; [now left|]. rewrite <- app_comm_cons, <- app_assoc. exact Hnum. }
    unfold py_float.
    rewrite without_underscores_num
      by (rewrite Hl; constructor; [now left|]; rewrite <- app_comm_cons, <- app_assoc; exact Hnum).
    unfold decimal_float.
    destruct Hlast as [d [Hd ->]].
    rewrite (num_strip_id _ "-"%char (dh :: dt ++ "."%char :: fs) (digit_char d))
      by first [exact Hl|reflexivity|apply num_char_num_space; right; right; eauto].
    cbn beta iota zeta.
    change (sign (String "-"%char body)) with ((-1)%Z, body). cbn beta iota zeta.
    rewrite Hbody. cbn beta iota zeta. rewrite Hfrac. cbn beta iota zeta.
    destruct (Nat.eqb_spec (List.length (dh :: dt) + k2) 0) as [E|_]; [simpl in E; lia|].
    change (exponent EmptyString) with (Some 0%Z). cbn beta iota zeta.
    eexists. split; [reflexivity|]. apply Hval; [now right|unfold a; lia].
  - exists dh, (dt ++ "."%char :: fs)%list, cl.
    assert (Hl : list_ascii_of_string body = (dh :: (dt ++ "."%char :: fs) ++ [cl])%list).
    { rewrite Hbl. simpl. rewrite Hfl. now rewrite <- !app_assoc. }
    split; [exact Hl|]. split; [|split; [exact Hlast|]].
    { rewrite <- app_assoc. exact Hnum. }
    destruct Hdh as [d0 [Hd0 Ed0]].
    assert (Hb : exists t, body = String dh t).
    { destruct body as [|c t]; [discriminate|]. injection Hl as -> _. now exists t. }
    destruct Hb as [t Ht].
    unfold py_float.
    rewrite without_underscores_num by (rewrite Hl, <- app_assoc; exact Hnum).
    unfold decimal_float.
    destruct Hlast as [d [Hd ->]].
    rewrite (num_strip_id _ dh (dt ++ "."%char :: fs) (digit_char d))
      by first [exact Hl|apply num_char_num_space; right; right; eauto
               |rewrite Ed0; apply num_char_num_space; right; right; eauto].
    assert (Hs : sign body = (1%Z, body))
      by (rewrite Ht; apply (digit_char_sign dh t d0 Hd0 Ed0)).
    rewrite Hs. cbn beta iota zeta.
    rewrite Hbody. cbn beta iota zeta. rewrite Hfrac. cbn beta iota zeta.
    destruct (Nat.eqb_spec (List.length (dh :: dt) + k2) 0) as [E|_]; [simpl in E; lia|].
    change (exponent EmptyString) with (Some 0%Z). cbn beta iota zeta.
    eexists. split; [reflexivity|]. apply Hval; [now left|unfold a; lia].
Qed.

Lemma str_int_chars n : Forall num_char (list_ascii_of_string (str_int n)).
Proof.
  assert (H : forall k, (0 <= k)%Z ->
            Forall num_char (list_ascii_of_string (dec_digits (S (Z.to_nat (Z.log2 k))) k EmptyString))).
  { intros k Hk. destruct (dec_digits_spec _ k EmptyString (log2_digits k Hk)) as [ds [Hl [_ [Hds _]]]].
    rewrite Hl, app_nil_r. eapply Forall_impl; [|exact Hds]. intros c Hc. right; right. exact Hc. }
  unfold str_int. destruct (Z.ltb_spec n 0).
  - simpl. constructor; [now left|]. apply H. lia.
  - apply H. lia.
Qed.

Lemma split_on_app sep a rest :
  ~ In sep (list_ascii_of_string a) -> split_on sep (a ++ String sep rest) = a :: split_on sep rest.
Proof.
  induction a as [|c a IH]; intro H; simpl.
  - now rewrite Ascii.eqb_refl.
  - simpl in H. destruct (Ascii.eqb_spec c sep) as [E|E]; [tauto|].
    rewrite IH by tauto. reflexivity.
Qed.

Lemma split_on_single sep a : ~ In sep (list_ascii_of_string a) -> split_on sep a = [a].
Proof.
  induction a as [|c a IH]; intro H; simpl; [reflexivity|].
  simpl in H. destruct (Ascii.eqb_spec c sep) as [E|E]; [tauto|].
  rewrite IH by tauto. reflexivity.
Qed.

Lemma las_tsv_cons x y l :
  list_ascii_of_string (tsv (x :: y :: l)) =
  (list_ascii_of_string x ++ tab :: list_ascii_of_string (tsv (y :: l)))%list.
Proof. unfold tsv. change (String.concat (String tab EmptyString) (x :: y :: l)) with
  (x ++ String tab EmptyString ++ String.concat (String tab EmptyString) (y :: l)).
  rewrite las_app. reflexivity. Qed.

Lemma split_tab_tsv fields :
  fields <> [] -> Forall (fun f => ~ In tab (list_ascii_of_string f)) fields ->
  split_tab (tsv fields) = fields.
Proof.
  intro Hne. induction fields as [|x l IH]; [congruence|]. intro H.
  inversion_clear H as [|? ? Hx Hl]. destruct l as [|y l].
  - apply split_on_single. exact Hx.
  - unfold split_tab, tsv. change (String.concat (String tab EmptyString) (x :: y :: l)) with
      (x ++ String tab (String.concat (String tab EmptyString) (y :: l))).
    rewrite split_on_app by exact Hx. f_equal. apply IH; [discriminate|exact Hl].
Qed.

(** A data line of the ANI file reads back with the names and values
    [calculate_ani] wrote. *)
Lemma render_line_parse r :
  field_safe (row_qname r) -> field_safe (row_tname r) -> starts_nonspace (row_qname r) ->
  exists ar, parse_ani_line (render_line (DataLine r) ++ newline) = Ok ar /\
    a_qname ar = row_qname r /\ a_tname ar = row_tname r /\
    a_ani ar * 100 == inject_Z (Qfloor (row_pid r * 100)) /\
    a_qcov ar * 100 == inject_Z (Qfloor (row_qcov r * 100)) /\
    a_tcov ar * 100 == inject_Z (Qfloor (row_tcov r * 100)).
Proof.
  intros [Hq1 [Hq2 Hq3]] [Ht1 [Ht2 Ht3]] [c0 [q' [Hq Hc0]]].
  destruct (str_float2_spec (row_pid r)) as [p0 [ps [pl [Hpl [Hpn [_ [vp [Hvp Hvp']]]]]]]].
  destruct (str_float2_spec (row_qcov r)) as [u0 [us [ul [Hul [Hun [_ [vu [Hvu Hvu']]]]]]]].
  destruct (str_float2_spec (row_tcov r)) as [t0 [ts [tl' [Htl [Htn [[d [Hd Ed]] [vt [Hvt Hvt']]]]]]]].
  assert (Hnt : forall cs, Forall num_char cs -> ~ In tab cs).
  { intros cs Hcs Hin. rewrite Forall_forall in Hcs. destruct (num_char_safe _ (Hcs _ Hin)).
    tauto. }
  unfold parse_ani_line. unfold render_line.
  rewrite (strip_line _ newline c0
             ((list_ascii_of_string q' ++ tab :: list_ascii_of_string (row_tname r) ++
               tab :: list_ascii_of_string (str_int (Z.of_nat (row_num_alns r))) ++
               tab :: (p0 :: ps ++ [pl]) ++ tab :: (u0 :: us ++ [ul]) ++ tab :: t0 :: ts)%list)
             tl').
  - rewrite split_tab_tsv; [|discriminate|].
    + cbn [py_index nth_error of_option bind]. unfold float_.
      rewrite Hvp, Hvu, Hvt. cbn [of_option bind].
      eexists. split; [reflexivity|]. cbn [a_qname a_tname a_ani a_qcov a_tcov]. auto.
    + repeat constructor; try assumption; apply Hnt;
        [apply str_int_chars|rewrite Hpl|rewrite Hul|rewrite Htl]; assumption.
  - rewrite !las_tsv_cons.
    change (tsv [str_float2 (row_tcov r)]) with (str_float2 (row_tcov r)).
    rewrite Hq, Hpl, Hul, Htl. cbn [list_ascii_of_string app].
    repeat first [rewrite <- app_assoc | rewrite <- app_comm_cons]. reflexivity.
  - exact Hc0.
  - rewrite Ed. apply num_char_safe. right; right. eauto.
  - constructor; [reflexivity|constructor].
Qed.

Lemma append_assoc (a b c : string) : ((a ++ b) ++ c)%string = (a ++ (b ++ c))%string.
Proof. apply las_inj. rewrite !las_app. symmetry. apply app_assoc. Qed.

Lemma text_lines_app a rest :
  ~ In lf (list_ascii_of_string a) -> ~ In cr (list_ascii_of_string a) ->
  text_lines (a ++ newline ++ rest) = (a ++ newline) :: text_lines rest.
Proof.
  induction a as [|c a IH]; intros H1 H2; [reflexivity|].
  simpl in H1, H2. change ((String c a ++ newline ++ rest)%string)
    with (String c (a ++ newline ++ rest)). cbn [text_lines].
  rewrite (proj2 (Ascii.eqb_neq c lf)) by tauto.
  rewrite (proj2 (Ascii.eqb_neq c cr)) by tauto.
  rewrite IH by tauto. reflexivity.
Qed.

Lemma text_lines_ani_text ls :
  Forall (fun l => ~ In lf (list_ascii_of_string (render_line l)) /\
                   ~ In cr (list_ascii_of_string (render_line l))) ls ->
  text_lines (ani_text ls) = map (fun l => render_line l ++ newline) ls.
Proof.
  unfold ani_text. induction ls as [|l ls IH]; intro H; [reflexivity|].
  inversion_clear H as [|? ? [H1 H2] H'].
  assert (E : String.concat EmptyString (map (fun l => render_line l ++ newline) (l :: ls)) =
              (render_line l ++ newline ++ String.concat EmptyString
                 (map (fun l => render_line l ++ newline) ls))%string).
  { destruct ls as [|l' ls]; simpl; [now rewrite ?append_empty|].
    now rewrite append_assoc. }
  rewrite E, text_lines_app by assumption. cbn [map]. f_equal. now apply IH.
Qed.

(** A value [str] prints exactly: two decimals at most. *)
Lemma round2_two_dec y : round2 y * 100 == inject_Z (Qfloor (round2 y * 100)).
Proof.
  assert (H : forall m, Qmake m 100 * 100 == inject_Z (Qfloor (Qmake m 100 * 100))).
  { intro m. unfold Qfloor, Qmult. cbn [Qnum Qden].
    rewrite Z.div_mul by discriminate. unfold Qeq. simpl. lia. }
  unfold round2. cbv zeta. apply H.
Qed.

Lemma percent_two_dec c t v :
  percent c t = Ok v -> v * 100 == inject_Z (Qfloor (v * 100)).
Proof.
  unfold percent. destruct (Qeq_bool t 0); [discriminate|].
  intro H. injection H as <-. apply round2_two_dec.
Qed.

Lemma compute_coverage_two_dec alns q t :
  compute_coverage alns = Ok (q, t) ->
  q * 100 == inject_Z (Qfloor (q * 100)) /\ t * 100 == inject_Z (Qfloor (t * 100)).
Proof.
  unfold compute_coverage.
  destruct (merge_side (map qcoords alns)) as [nq|e]; cbn [bind]; [|discriminate].
  destruct (py_index alns 0) as [a0|e]; cbn [bind]; [|discriminate].
  destruct (percent _ (qlen a0)) as [qc|e] eqn:Eq; cbn [bind]; [|discriminate].
  destruct (merge_side (map tcoords alns)) as [nt|e]; cbn [bind]; [|discriminate].
  destruct (percent _ (tlen a0)) as [tc|e] eqn:Et; cbn [bind]; [|discriminate].
  intro H. injection H as <- <-. split; eapply percent_two_dec; eassumption.
Qed.

Lemma compute_ani_two_dec alns :
  compute_ani alns * 100 == inject_Z (Qfloor (compute_ani alns * 100)).
Proof.
  unfold compute_ani. destruct (Qltb 0 _); [apply round2_two_dec|reflexivity].
Qed.

Lemma write_blocks_two_dec min_length bs rs e :
  write_blocks min_length bs = (rs, e) ->
  Forall (fun r => row_pid r * 100 == inject_Z (Qfloor (row_pid r * 100)) /\
                   row_qcov r * 100 == inject_Z (Qfloor (row_qcov r * 100)) /\
                   row_tcov r * 100 == inject_Z (Qfloor (row_tcov r * 100))) rs.
Proof.
  revert rs e; induction bs as [|b bs IH]; intros rs e; simpl.
  - intro H. injection H as <- _. constructor.
  - destruct (summarise_block min_length b) as [[r|]|e'] eqn:Es.
    + destruct (write_blocks min_length bs) as [rs' e''] eqn:Ew.
      intro H. injection H as <- _. constructor; [|now apply (IH rs' e'')].
      unfold summarise_block in Es.
      destruct (prune_alignments b min_length default_min_evalue) as [alns|e0];
        cbn [bind] in Es; [|discriminate].
      destruct alns as [|a0 alns]; [discriminate|].
      destruct (compute_coverage (a0 :: alns)) as [[q t]|e0] eqn:Ec; cbn [bind] in Es;
        [|discriminate].
      injection Es as <-. cbn [row_pid row_qcov row_tcov fst snd].
      destruct (compute_coverage_two_dec _ _ _ Ec). split; [apply compute_ani_two_dec|auto].
    + apply IH.
    + intro H. injection H as <- _. constructor.
Qed.

Lemma Qltb_compat x x' y y' : x == x' -> y == y' -> Qltb x y = Qltb x' y'.
Proof.
  intros Hx Hy. destruct (Qltb x y) eqn:E; symmetry.
  - apply Qltb_iff in E. apply Qltb_iff. now rewrite <- Hx, <- Hy.
  - apply Qltb_false in E. apply Qltb_false. now rewrite <- Hx, <- Hy.
Qed.

Lemma build_edges_same min_ani min_qcov min_tcov sorted_seqs rows rows' :
  Forall2 same_row rows rows' ->
  build_edges min_ani min_qcov min_tcov sorted_seqs rows =
  build_edges min_ani min_qcov min_tcov sorted_seqs rows'.
Proof.
  intro H. unfold build_edges. generalize (map (fun s => (s, [] : list string)) sorted_seqs).
  induction H as [|r r' rows rows' [H1 [H2 [H3 [H4 H5]]]] _ IH]; intro e; [reflexivity|].
  simpl. rewrite <- IH. f_equal. unfold add_edge. rewrite H1, H2.
  rewrite (Qltb_compat _ _ min_qcov min_qcov H4 (Qeq_refl _)),
          (Qltb_compat _ _ min_tcov min_tcov H5 (Qeq_refl _)),
          (Qltb_compat _ _ min_ani min_ani H3 (Qeq_refl _)).
  reflexivity.
Qed.

Lemma calculate_ani_two_dec blast_lines min_length rs e :
  calculate_ani blast_lines min_length = (HeaderLine header_fields :: map DataLine rs, e) ->
  Forall (fun r => row_pid r * 100 == inject_Z (Qfloor (row_pid r * 100)) /\
                   row_qcov r * 100 == inject_Z (Qfloor (row_qcov r * 100)) /\
                   row_tcov r * 100 == inject_Z (Qfloor (row_tcov r * 100))) rs.
Proof.
  unfold calculate_ani. destruct (yield_alignment_blocks blast_lines) as [bs ge].
  destruct (write_blocks min_length bs) as [rs0 err] eqn:Ew.
  intro H. injection H as Hm _.
  assert (rs0 = rs) as <-.
  { clear Ew. revert rs Hm; induction rs0 as [|r rs0 IH]; intros [|r' rs] Hm;
      try discriminate; [reflexivity|].
    injection Hm as -> Hm. f_equal. now apply IH. }
  eapply write_blocks_two_dec. exact Ew.
Qed.

Lemma render_line_no_break r :
  field_safe (row_qname r) -> field_safe (row_tname r) ->
  ~ In lf (list_ascii_of_string (render_line (DataLine r))) /\
  ~ In cr (list_ascii_of_string (render_line (DataLine r))).
Proof.
  intros [_ [Hq2 Hq3]] [_ [Ht2 Ht3]].
  assert (Hn : forall s, Forall num_char (list_ascii_of_string s) ->
                 ~ In lf (list_ascii_of_string s) /\ ~ In cr (list_ascii_of_string s)).
  { intros s Hs. rewrite Forall_forall in Hs.
    split; intro Hin; destruct (num_char_safe _ (Hs _ Hin)) as [_ [H1 [H2 _]]]; tauto. }
  assert (Hf : forall x, Forall num_char (list_ascii_of_string (str_float2 x))).
  { intro x. destruct (str_float2_spec x) as [c0 [cs [c [Hl [Hnum _]]]]]. now rewrite Hl. }
  destruct (Hn _ (str_int_chars (Z.of_nat (row_num_alns r)))) as [Hn1 Hn2].
  destruct (Hn _ (Hf (row_pid r))) as [Hp1 Hp2].
  destruct (Hn _ (Hf (row_qcov r))) as [Hu1 Hu2].
  destruct (Hn _ (Hf (row_tcov r))) as [Hv1 Hv2].
  unfold render_line. rewrite !las_tsv_cons.
  change (tsv [str_float2 (row_tcov r)]) with (str_float2 (row_tcov r)).
  split; intro H; repeat (apply in_app_iff in H as [H|H]; [tauto|];
                          destruct H as [H|H]; [discriminate|]); tauto.
Qed.

Lemma map_result_rendered rs :
  Forall (fun r => field_safe (row_qname r) /\ field_safe (row_tname r) /\
                   starts_nonspace (row_qname r)) rs ->
  Forall (fun r => row_pid r * 100 == inject_Z (Qfloor (row_pid r * 100)) /\
                   row_qcov r * 100 == inject_Z (Qfloor (row_qcov r * 100)) /\
                   row_tcov r * 100 == inject_Z (Qfloor (row_tcov r * 100))) rs ->
  exists rows, map_result parse_ani_line
                 (map (fun l => render_line l ++ newline) (map DataLine rs)) = Ok rows /\
               Forall2 same_row rows (map summary_ani_row rs).
Proof.
  induction rs as [|r rs IH]; intros Hs Hd; [exists []; split; [reflexivity|constructor]|].
  inversion_clear Hs as [|? ? [Hq [Ht Hst]] Hs'].
  inversion_clear Hd as [|? ? [Hp [Hu Hv]] Hd'].
  destruct (render_line_parse r Hq Ht Hst) as [ar [Har [H1 [H2 [H3 [H4 H5]]]]]].
  destruct (IH Hs' Hd') as [rows [Hrows Hf]].
  exists (ar :: rows). cbn [map map_result]. rewrite Har. cbn [bind]. rewrite Hrows.
  split; [reflexivity|]. constructor; [|exact Hf].
  unfold same_row, summary_ani_row. cbn [a_qname a_tname a_ani a_qcov a_tcov].
  assert (Hc : forall u v, u * 100 == inject_Z (Qfloor (v * 100)) ->
                 v * 100 == inject_Z (Qfloor (v * 100)) -> u == v).
  { intros u v Hu' Hv'. apply (proj1 (Qmult_inj_r u v 100 ltac:(discriminate))).
    transitivity (inject_Z (Qfloor (v * 100))); [exact Hu' | symmetry; exact Hv']. }
  repeat split; auto.
Qed.

(** X5: the ANI file is a lossless hand-over.  When [calculate_ani] ends
    without an exception and the sequence names it writes hold no tab or
    line break (and the query name does not start with whitespace),
    [dereplicate_sequences] returns the centroids that the greedy
    clustering computes directly on the rows [calculate_ani] produced:
    every ANI and coverage value [str] writes is read back by [float] as
    the same number, and the names come back unchanged. *)
Theorem dereplicate_sequences_reads_back (records : fasta) (blast_lines : list string)
  (min_ani min_tcov : Q) (rs : list summary_row) :
  calculate_ani blast_lines 0 = (HeaderLine header_fields :: map DataLine rs, None) ->
  Forall (fun r => field_safe (row_qname r) /\ field_safe (row_tname r) /\
                   starts_nonspace (row_qname r)) rs ->
  let sorted_seqs := sorted_seqs_of (load_seqs records 1) in
  dereplicate_sequences records blast_lines min_ani min_tcov =
  Ok (map fst (fst (greedy (build_edges min_ani 0 min_tcov sorted_seqs (map summary_ani_row rs))
                           sorted_seqs ([], [])))).
Proof.
  intros Hc Hs sorted_seqs.
  pose proof (calculate_ani_two_dec _ _ _ _ Hc) as Hd.
  unfold dereplicate_sequences. rewrite Hc. cbn beta iota.
  rewrite text_lines_ani_text.
  - unfold cluster_by_ani. cbn [map].
    destruct (map_result_rendered rs Hs Hd) as [rows [Hrows Hsame]].
    rewrite Hrows. cbn [bind]. fold sorted_seqs.
    rewrite (build_edges_same _ _ _ _ _ _ Hsame). reflexivity.
  - constructor.
    + split; intro H; vm_compute in H; repeat (destruct H as [H|H]; [discriminate H|]); exact H.
    + apply Forall_map. eapply Forall_impl; [|exact Hs]. intros r [Hq [Ht _]].
      now apply render_line_no_break.
Qed.

Lemma dereplicate_sequences_reads_back_witness :
  let records := [("A", poly_a 100); ("B", poly_a 95)] in
  let lines :=
    [tsv ["A"; "A"; "100.0"; "100"; "0"; "0"; "1"; "100"; "1"; "100"; "0.0"; "180"; "100"; "100"];
     tsv ["A"; "B"; "97.5"; "80"; "1"; "0"; "1"; "80"; "1"; "80"; "0.0"; "170"; "100"; "95"];
     tsv ["A"; "B"; "96.25"; "15"; "1"; "0"; "81"; "95"; "81"; "95"; "0.0"; "170"; "100"; "95"];
     tsv ["B"; "B"; "100.0"; "95"; "0"; "0"; "1"; "95"; "1"; "95"; "0.0"; "170"; "95"; "95"]] in
  let rs := [mk_row "A" "A" 1 (10000 # 100) (10000 # 100) (10000 # 100);
             mk_row "A" "B" 2 (9730 # 100) (9500 # 100) (10000 # 100);
             mk_row "B" "B" 1 (10000 # 100) (10000 # 100) (10000 # 100)] in
  let sorted_seqs := sorted_seqs_of (load_seqs records 1) in
  calculate_ani lines 0 = (HeaderLine header_fields :: map DataLine rs, None) /\
  dereplicate_sequences records lines 95 85 = Ok ["A"] /\
  dereplicate_sequences records lines 95 85 =
  Ok (map fst (fst (greedy (build_edges 95 0 85 sorted_seqs (map summary_ani_row rs))
                           sorted_seqs ([], [])))).
Proof.
  intros records lines rs sorted_seqs.
  assert (Hc : calculate_ani lines 0 = (HeaderLine header_fields :: map DataLine rs, None))
    by (vm_compute; reflexivity).
  split; [exact Hc|]. split; [vm_compute; reflexivity|].
  apply (dereplicate_sequences_reads_back records lines 95 85 rs Hc).
  assert (HA : field_safe "A" /\ starts_nonspace "A").
  { split; [unfold field_safe; vm_compute; repeat split; intros [H|[]]; discriminate H|].
    exists "A"%char, EmptyString. split; reflexivity. }
  assert (HB : field_safe "B" /\ starts_nonspace "B").
  { split; [unfold field_safe; vm_compute; repeat split; intros [H|[]]; discriminate H|].
    exists "B"%char, EmptyString. split; reflexivity. }
  repeat constructor; cbn [row_qname row_tname]; try apply HA; try apply HB.
Defined.

(** ** Grouping of the alignment file into blocks *)

Lemma key_eqb_true k1 k2 : key_eqb k1 k2 = true <-> k1 = k2.
Proof.
  destruct k1 as [a b], k2 as [c d]. unfold key_eqb. cbn [fst snd].
  rewrite andb_true_iff, !String.eqb_eq. split; [intros [-> ->]; reflexivity|].
  intro H; injection H as -> ->; tauto.
Qed.

Lemma blocks_loop_ok lines : forall key alns bs,
  alns <> [] -> Forall (fun a => aln_key a = key) alns ->
  blocks_loop key alns lines = (bs, None) ->
  exists rest, map_result parse_blast_line lines = Ok rest /\
    concat bs = (alns ++ rest)%list /\ Forall uniform_block bs /\ adjacent_distinct bs /\
    exists b bs', bs = b :: bs' /\ block_key b = Some key.
Proof.
  induction lines as [|line lines IH]; intros key alns bs Hne Hk H.
  - destruct alns as [|a0 alns0]; [congruence|]. cbn in H. injection H as <-.
    inversion Hk as [|? ? Hk0 Hk']; subst.
    exists []. split; [reflexivity|]. split; [cbn; now rewrite !app_nil_r|].
    split; [|split].
    + constructor; [|constructor]. split; [discriminate|]. constructor; [reflexivity|].
      eapply Forall_impl; [|exact Hk']. intros a Ha. cbn. now rewrite Ha.
    + intros [|i] b1 b2 _ H2; [discriminate|]. destruct i; discriminate.
    + exists (a0 :: alns0), []. split; reflexivity.
  - cbn [blocks_loop] in H. destruct (parse_blast_line line) as [a|e] eqn:Ep; [|discriminate].
    destruct (key_eqb (aln_key a) key) eqn:Ek.
    + apply key_eqb_true in Ek.
      destruct (IH key (alns ++ [a])%list bs) as [rest [Hm [Hc Hrest]]]; auto.
      { destruct alns; discriminate. }
      { apply Forall_app. split; [exact Hk|constructor; [exact Ek|constructor]]. }
      exists (a :: rest). cbn [map_result]. rewrite Ep, Hm. split; [reflexivity|].
      split; [rewrite Hc, <- app_assoc; reflexivity|exact Hrest].
    + destruct (blocks_loop (aln_key a) [a] lines) as [bs1 e1] eqn:E1.
      injection H as <- ->.
      destruct (IH (aln_key a) [a] bs1) as [rest [Hm [Hc [Hu [Hadj [b [bs' [-> Hb]]]]]]]];
        auto; [discriminate|].
      exists (a :: rest). cbn [map_result]. rewrite Ep, Hm. split; [reflexivity|].
      split; [change (concat (alns :: b :: bs')) with (alns ++ concat (b :: bs'))%list;
              rewrite Hc; reflexivity|].
      assert (Hka : block_key alns = Some key).
      { destruct alns as [|a0 alns0]; [congruence|]. inversion Hk; subst. reflexivity. }
      split; [|split].
      * constructor; [|exact Hu]. split; [exact Hne|].
        eapply Forall_impl; [|exact Hk]. intros a' Ha'. now rewrite Hka, Ha'.
      * intros [|i] b1 b2 H1 H2.
        -- injection H1 as <-. injection H2 as <-. rewrite Hka, Hb. intro Heq.
           injection Heq as Heq. rewrite Heq in Ek. now rewrite (proj2 (key_eqb_true _ _) eq_refl) in Ek.
        -- exact (Hadj i b1 b2 H1 H2).
      * exists alns, (b :: bs'). split; [reflexivity|exact Hka].
Qed.

(** X6: when [yield_alignment_blocks] reads the whole alignment file
    without an exception, the file is nonempty, every line parses, and the
    yielded blocks are nonempty, hold the parsed records in file order
    (their concatenation is the parsed file), all records of a block share
    its [(qname, tname)] key, and two consecutive blocks have different
    keys: a pair whose lines are not contiguous gives several blocks. *)
Theorem yield_alignment_blocks_groups (lines : list string) (bs : list (list aln)) :
  yield_alignment_blocks lines = (bs, None) ->
  lines <> [] /\ bs <> [] /\
  map_result parse_blast_line lines = Ok (concat bs) /\
  Forall uniform_block bs /\ adjacent_distinct bs.
Proof.
  destruct lines as [|line lines]; [discriminate|]. cbn [yield_alignment_blocks].
  destruct (parse_blast_line line) as [a|e] eqn:Ep; [|discriminate]. intro H.
  destruct (blocks_loop_ok lines (aln_key a) [a] bs) as [rest [Hm [Hc [Hu [Hadj [b [bs' [-> _]]]]]]]];
    auto; [discriminate|].
  split; [discriminate|]. split; [discriminate|].
  cbn [map_result]. rewrite Ep, Hm, Hc. split; [reflexivity|]. split; assumption.
Qed.

(** ** A malformed line of the ANI file *)



Lemma yield_alignment_blocks_groups_witness :
  let lines :=
    [tsv ["A"; "B"; "99.0"; "95"; "1"; "0"; "1"; "95"; "1"; "95"; "0.0"; "170"; "100"; "95"];
     tsv ["A"; "B"; "98.0"; "5"; "0"; "0"; "96"; "100"; "90"; "95"; "0.0"; "9"; "100"; "95"];
     tsv ["B"; "A"; "99.0"; "95"; "1"; "0"; "1"; "95"; "1"; "95"; "0.0"; "170"; "95"; "100"];
     tsv ["A"; "B"; "97.0"; "10"; "0"; "0"; "1"; "10"; "1"; "10"; "0.0"; "19"; "100"; "95"]] in
  let bs := fst (yield_alignment_blocks lines) in
  yield_alignment_blocks lines = (bs, None) /\ map (@length aln) bs = [2; 1; 1]%nat /\
  (lines <> [] /\ bs <> [] /\
   map_result parse_blast_line lines = Ok (concat bs) /\
   Forall uniform_block bs /\ adjacent_distinct bs).
Proof.
  intros lines bs.
  assert (H : yield_alignment_blocks lines = (bs, None)) by (vm_compute; reflexivity).
  split; [exact H|]. split; [vm_compute; reflexivity|].
  exact (yield_alignment_blocks_groups lines bs H).
Defined.


(** ** The catalog of [cluster_by_ani] as a Python dict *)

Lemma mem_ids_In ids x : mem_ids ids x = true <-> In x ids.
Proof.
  unfold mem_ids. rewrite existsb_exists. split.
  - intros [y [Hy Hxy]]. apply String.eqb_eq in Hxy. now subst.
  - intro H. exists x. split; [exact H|apply String.eqb_refl].
Qed.

Lemma first_occurrences_ext s1 s2 l :
  (forall x, In x s1 <-> In x s2) -> first_occurrences s1 l = first_occurrences s2 l.
Proof.
  revert s1 s2; induction l as [|x l IH]; intros s1 s2 Hs; [reflexivity|]. cbn [first_occurrences].
  assert (Hm : mem_ids s1 x = mem_ids s2 x).
  { destruct (mem_ids s1 x) eqn:E1, (mem_ids s2 x) eqn:E2; try reflexivity.
    - apply mem_ids_In, Hs, mem_ids_In in E1. congruence.
    - apply mem_ids_In, Hs, mem_ids_In in E2. congruence. }
  rewrite Hm. destruct (mem_ids s2 x); [now apply IH|].
  f_equal. apply IH. intro y. cbn. now rewrite Hs.
Qed.

Lemma first_occurrences_In seen l x :
  In x (first_occurrences seen l) -> In x l /\ ~ In x seen.
Proof.
  revert seen; induction l as [|y l IH]; intros seen H; [destruct H|]. cbn in H.
  destruct (mem_ids seen y) eqn:Ey.
  - destruct (IH seen H) as [H1 H2]. split; [now right|exact H2].
  - destruct H as [<-|H].
    + split; [now left|]. intro Hin. apply mem_ids_In in Hin. congruence.
    + destruct (IH (y :: seen) H) as [H1 H2]. split; [now right|]. intro Hin. apply H2. now right.
Qed.

Lemma first_occurrences_NoDup seen l : NoDup (first_occurrences seen l).
Proof.
  revert seen; induction l as [|y l IH]; intro seen; cbn; [constructor|].
  destruct (mem_ids seen y); [apply IH|]. constructor; [|apply IH].
  intro H. apply first_occurrences_In in H as [_ H]. apply H. now left.
Qed.

Lemma dict_get_set_same {V} (k : string) (v : V) d : dict_get k (dict_set k v d) = Some v.
Proof.
  induction d as [|[k' v'] d IH]; cbn.
  - now rewrite String.eqb_refl.
  - destruct (String.eqb_spec k k'); cbn; [now rewrite String.eqb_refl|].
    destruct (String.eqb_spec k k'); [contradiction|exact IH].
Qed.

Section Catalog.

Variable min_length : nat.

Let qualifies (r : string * string) : bool := (min_length <=? String.length (snd r))%nat.

Let load_step (seqs : list (string * nat)) (r : string * string) : list (string * nat) :=
  if qualifies r then dict_set (fst r) (String.length (snd r)) seqs else seqs.

Lemma load_seqs_keys_acc records : forall d,
  map fst (fold_left load_step records d) =
  (map fst d ++ first_occurrences (map fst d) (map fst (filter qualifies records)))%list.
Proof.
  induction records as [|[k s] records IH]; intro d; cbn [fold_left filter].
  - cbn. now rewrite app_nil_r.
  - rewrite IH. unfold load_step. cbn [fst snd].
    destruct (qualifies (k, s)); [|reflexivity]. cbn [map fst first_occurrences].
    destruct (in_dec string_dec k (map fst d)) as [Hin|Hin].
    + rewrite dict_set_keys by exact Hin.
      assert (Hm : mem_ids (map fst d) k = true) by now apply mem_ids_In.
      now rewrite Hm.
    + rewrite dict_set_new by exact Hin. rewrite map_app. cbn [map fst].
      assert (Hm : mem_ids (map fst d) k = false).
      { destruct (mem_ids (map fst d) k) eqn:E; [|reflexivity]. apply mem_ids_In in E. contradiction. }
      rewrite Hm, <- app_assoc. cbn [app]. f_equal. f_equal.
      apply first_occurrences_ext. intro x. rewrite in_app_iff. cbn. tauto.
Qed.

Lemma last_occurrence_snoc {B} (l : list (string * B)) (x : string * B) (seq_id : string)
  (P : B -> Prop) :
  (exists pre s post, (l ++ [x])%list = (pre ++ (seq_id, s) :: post)%list /\ P s /\
                      ~ In seq_id (map fst post)) <->
  (if String.eqb seq_id (fst x) then P (snd x)
   else exists pre s post, l = (pre ++ (seq_id, s) :: post)%list /\ P s /\
                           ~ In seq_id (map fst post)).
Proof.
  split.
  - intros [pre [s [post [Heq [HP Hn]]]]].
    destruct post as [|y post'] using rev_ind.
    + apply app_inj_tail in Heq as [-> ->]. cbn. now rewrite String.eqb_refl.
    + rewrite app_comm_cons, app_assoc in Heq. apply app_inj_tail in Heq as [-> ->].
      rewrite map_app, in_app_iff in Hn. cbn in Hn.
      destruct (String.eqb_spec seq_id (fst y)); [exfalso; apply Hn; right; left; congruence|].
      exists pre, s, post'. split; [reflexivity|split; [exact HP|tauto]].
  - destruct (String.eqb_spec seq_id (fst x)) as [Heq|Hne].
    + intro HP. exists l, (snd x), []. split; [|split; [exact HP|intros []]].
      destruct x as [k v]. cbn in Heq. now subst.
    + intros [pre [s [post [-> [HP Hn]]]]]. exists pre, s, (post ++ [x])%list.
      split; [now rewrite <- app_assoc|split; [exact HP|]].
      rewrite map_app, in_app_iff. cbn. intros [H|[H|[]]]; [tauto|congruence].
Qed.

Lemma load_seqs_last records seq_id n :
  dict_get seq_id (fold_left load_step records []) = Some n <->
  exists pre s post, filter qualifies records = (pre ++ (seq_id, s) :: post)%list /\
                     String.length s = n /\ ~ In seq_id (map fst post).
Proof.
  induction records as [|r records IH] using rev_ind.
  - cbn. split; [discriminate|]. intros [pre [s [post [H _]]]].
    destruct pre; discriminate.
  - rewrite fold_left_app, filter_app. cbn [fold_left filter]. unfold load_step at 1.
    destruct (qualifies r).
    + rewrite last_occurrence_snoc with (P := fun s => String.length s = n).
      destruct (String.eqb_spec seq_id (fst r)) as [->|Hne].
      * rewrite dict_get_set_same. split; [intro H; injection H as H; exact H|intros ->; reflexivity].
      * rewrite dict_get_set_other by exact Hne. exact IH.
    + now rewrite app_nil_r.
Qed.

End Catalog.

(** X8: the catalog [seqs] of [cluster_by_ani] is a Python dict filled
    record by record: it has one entry per id of a record at least
    [min_length] long, the ids in the order of their first such record
    (so duplicate ids do not move an entry), and each id maps to the
    length of its LAST such record (a later duplicate overwrites the
    length). *)
Theorem load_seqs_dict_semantics (records : fasta) (min_length : nat) :
  let kept := filter (fun r => (min_length <=? String.length (snd r))%nat) records in
  map fst (load_seqs records min_length) = first_occurrences [] (map fst kept) /\
  NoDup (map fst (load_seqs records min_length)) /\
  forall seq_id n,
    dict_get seq_id (load_seqs records min_length) = Some n <->
    exists pre s post, kept = (pre ++ (seq_id, s) :: post)%list /\
                       String.length s = n /\ ~ In seq_id (map fst post).
Proof.
  intro kept. unfold load_seqs.
  pose proof (load_seqs_keys_acc min_length records []) as Hk. cbn [map app] in Hk.
  split; [exact Hk|]. split.
  - rewrite Hk. apply first_occurrences_NoDup.
  - intros seq_id n. apply (load_seqs_last min_length records seq_id n).
Qed.

(** ** Coverage stays a percentage *)

Lemma round2_bounds x : 0 <= x <= 100 -> 0 <= round2 x <= 100.
Proof.
  intros [H0 H1]. unfold round2. cbv zeta.
  set (n := Qfloor (x * 100)).
  assert (Hn : (0 <= n <= 10000)%Z).
  { split.
    - change 0%Z with (Qfloor 0). apply Qfloor_resp_le. lra.
    - change 10000%Z with (Qfloor 10000). apply Qfloor_resp_le. lra. }
  assert (Hlast : n = 10000%Z -> Qltb (x * 100 - inject_Z n) (1 # 2) = true).
  { intro Heq. apply Qltb_iff. pose proof (Qfloor_le (x * 100)) as Hf. fold n in Hf.
    rewrite Heq in *. change (inject_Z 10000) with (10000 # 1) in *. lra. }
  clearbody n.
  destruct (Qltb (x * 100 - inject_Z n) (1 # 2)) eqn:E1.
  - split; unfold Qle; simpl; lia.
  - assert (n <> 10000%Z) by (intro Heq; specialize (Hlast Heq); congruence).
    destruct (Qltb (1 # 2) (x * 100 - inject_Z n)); [|destruct (Z.even n)];
      split; unfold Qle; simpl; lia.
Qed.

Lemma merged_length_acc l : forall a,
  fold_left (fun acc sp => acc + (snd sp - fst sp + 1))%Z l a =
  (a + fold_left (fun acc sp => acc + (snd sp - fst sp + 1))%Z l 0)%Z.
Proof.
  induction l as [|x l IH]; intro a; cbn [fold_left]; [lia|].
  rewrite IH, (IH (0 + _)%Z). lia.
Qed.

Lemma merged_length_nil : merged_length [] = 0%Z.
Proof. reflexivity. Qed.

Lemma merged_length_cons x l :
  merged_length (x :: l) = (snd x - fst x + 1 + merged_length l)%Z.
Proof. unfold merged_length. cbn [fold_left]. rewrite merged_length_acc. lia. Qed.

Lemma merge_spans_bound l : forall cur hi,
  (fst cur <= snd cur <= hi)%Z ->
  (forall s, In s l -> fst cur <= fst s /\ fst s <= snd s <= hi)%Z ->
  Sorted (fun x y => (fst x <= fst y)%Z) l ->
  (0 <= merged_length (merge_spans cur l) <= hi - fst cur + 1)%Z.
Proof.
  induction l as [|[st sp] l IH]; intros [c1 c2] hi Hc Hl Hs; cbn [fst snd] in Hc.
  - cbn [merge_spans]. rewrite merged_length_cons, merged_length_nil. cbn [fst snd]. lia.
  - assert (Hss := Sorted_StronglySorted
                     (ltac:(intros x y z; lia) : Transitive (fun x y : Z * Z => (fst x <= fst y)%Z)) Hs).
    inversion Hss as [|? ? Hss' Hge]; subst. rewrite Forall_forall in Hge.
    apply Sorted_inv in Hs as [Hs _].
    destruct (Hl (st, sp) (or_introl eq_refl)) as [H1 H2]. cbn [fst snd] in H1, H2.
    cbn [merge_spans fst snd]. destruct (Z.leb_spec st (c2 + 1)).
    + apply (IH (c1, Z.max c2 sp) hi); cbn [fst snd]; [lia| |exact Hs].
      intros s Hin. destruct (Hl s (or_intror Hin)) as [H3 H4]. cbn [fst] in H3. lia.
    + rewrite merged_length_cons. cbn [fst snd].
      assert (IH' := IH (st, sp) hi). cbn [fst snd] in IH'.
      assert (Hr : (0 <= merged_length (merge_spans (st, sp) l) <= hi - st + 1)%Z).
      { apply IH'; [lia| |exact Hs]. intros s Hin. split; [exact (Hge s Hin)|].
        exact (proj2 (Hl s (or_intror Hin))). }
      lia.
Qed.

Lemma merge_side_bound spans hi :
  spans <> [] -> (forall s, In s spans -> 1 <= fst s /\ fst s <= snd s <= hi)%Z ->
  exists ms, merge_side spans = Ok ms /\ (0 <= merged_length ms <= hi)%Z.
Proof.
  intros Hne Hin. unfold merge_side.
  pose proof (sort_by_perm span_leb spans) as Hp. pose proof (sort_spans_sorted spans) as Hs.
  unfold sort_spans in *. destruct (sort_by span_leb spans) as [|first rest] eqn:E.
  - apply Permutation_nil in Hp. contradiction.
  - cbn [py_index nth_error of_option bind tl]. eexists. split; [reflexivity|].
    assert (Hall : forall s, In s (first :: rest) -> (1 <= fst s /\ fst s <= snd s <= hi)%Z).
    { intros s H. apply Hin. eapply Permutation_in; [exact Hp|exact H]. }
    assert (Hss := Sorted_StronglySorted
                     (ltac:(intros x y z; lia) : Transitive (fun x y : Z * Z => (fst x <= fst y)%Z)) Hs).
    inversion Hss as [|? ? Hss' Hge]; subst. rewrite Forall_forall in Hge.
    apply Sorted_inv in Hs as [Hs _].
    destruct (Hall first (or_introl eq_refl)) as [H1 H2].
    assert (Hb : (0 <= merged_length (merge_spans first rest) <= hi - fst first + 1)%Z).
    { apply merge_spans_bound; [lia| |exact Hs]. intros s H. split; [exact (Hge s H)|].
      exact (proj2 (Hall s (or_intror H))). }
    lia.
Qed.

Lemma percent_bound c total L :
  (0 <= c <= L)%Z -> (0 < L)%Z -> total == inject_Z L ->
  exists v, percent c total = Ok v /\ 0 <= v <= 100.
Proof.
  intros Hc HL Ht. unfold percent.
  destruct (Qeq_bool total 0) eqn:E.
  - apply Qeq_bool_iff in E. rewrite Ht in E. change 0 with (inject_Z 0) in E.
    rewrite inject_Z_injective in E. lia.
  - eexists. split; [reflexivity|]. apply round2_bounds. rewrite Ht.
    assert (Hc0 : 0 <= inject_Z c) by (change 0 with (inject_Z 0); rewrite <- Zle_Qle; lia).
    assert (HcL : inject_Z c <= inject_Z L) by (rewrite <- Zle_Qle; lia).
    assert (HL0 : 0 < inject_Z L) by (change 0 with (inject_Z 0); rewrite <- Zlt_Qlt; lia).
    split.
    + apply Qle_shift_div_l; [exact HL0|]. lra.
    + apply Qle_shift_div_r; [exact HL0|]. lra.
Qed.

(** X9: when every alignment's query span lies within [1..L] and its
    target span within [1..M], where [L] and [M] are the query and target
    lengths of the block's first record, [compute_coverage] raises no
    exception and both coverages lie between 0 and 100: merging the spans
    never counts a base twice. *)
Theorem compute_coverage_bounded (a0 : aln) (rest : list aln) (L M : Z) :
  qlen a0 == inject_Z L -> tlen a0 == inject_Z M ->
  (forall a, In a (a0 :: rest) ->
     (1 <= fst (qcoords a) /\ fst (qcoords a) <= snd (qcoords a) <= L)%Z /\
     (1 <= fst (tcoords a) /\ fst (tcoords a) <= snd (tcoords a) <= M)%Z) ->
  exists qcov tcov, compute_coverage (a0 :: rest) = Ok (qcov, tcov) /\
                    0 <= qcov <= 100 /\ 0 <= tcov <= 100.
Proof.
  intros HL HM Hin. unfold compute_coverage.
  destruct (merge_side_bound (map qcoords (a0 :: rest)) L) as [qs [Hq Hqb]];
    [discriminate| |].
  { intros s Hs. apply in_map_iff in Hs as [a [<- Ha]]. exact (proj1 (Hin a Ha)). }
  destruct (merge_side_bound (map tcoords (a0 :: rest)) M) as [ts [Ht Htb]];
    [discriminate| |].
  { intros s Hs. apply in_map_iff in Hs as [a [<- Ha]]. exact (proj2 (Hin a Ha)). }
  destruct (Hin a0 (or_introl eq_refl)) as [Ha0q Ha0t].
  destruct (percent_bound (merged_length qs) (qlen a0) L) as [qcov [Hpq Hqcov]];
    [exact Hqb|lia|exact HL|].
  destruct (percent_bound (merged_length ts) (tlen a0) M) as [tcov [Hpt Htcov]];
    [exact Htb|lia|exact HM|].
  exists qcov, tcov. rewrite Hq. cbn [bind py_index nth_error of_option].
  rewrite Hpq. cbn [bind]. rewrite Ht. cbn [bind]. rewrite Hpt. cbn [bind].
  split; [reflexivity|split; assumption].
Qed.

Lemma compute_coverage_bounded_witness :
  let a0 := mk_aln "A" "B" 99 95 (1, 95)%Z (1, 95)%Z 100 95 0 in
  let a1 := mk_aln "A" "B" 98 11 (90, 100)%Z (85, 95)%Z 100 95 0 in
  compute_coverage [a0; a1] = Ok (10000 # 100, 10000 # 100) /\
  exists qcov tcov, compute_coverage [a0; a1] = Ok (qcov, tcov) /\
                    0 <= qcov <= 100 /\ 0 <= tcov <= 100.
Proof.
  intros a0 a1. split; [vm_compute; reflexivity|].
  apply (compute_coverage_bounded a0 [a1] 100 95); [reflexivity|reflexivity|].
  intros a [<-|[<-|[]]]; cbn; lia.
Defined.

Lemma sumQ_weighted_bound (alns : list aln) : forall aw at_,
  0 <= aw <= 100 * at_ ->
  (forall a, In a alns -> 0 <= len a /\ 0 <= pid a <= 100) ->
  0 <= fold_left (fun acc a => acc + len a * pid a) alns aw <=
  100 * fold_left (fun acc a => acc + len a) alns at_.
Proof.
  induction alns as [|a alns IH]; intros aw at_ Hacc Hin; cbn [fold_left]; [exact Hacc|].
  apply IH; [|intros a' Ha'; apply Hin; now right].
  destruct (Hin a (or_introl eq_refl)) as [Hl [Hp0 Hp1]].
  assert (H0 : 0 <= len a * pid a) by (apply Qmult_le_0_compat; assumption).
  assert (H1 : len a * pid a <= len a * 100).
  { rewrite (Qmult_comm (len a) (pid a)), (Qmult_comm (len a) 100).
    apply Qmult_le_compat_r; assumption. }
  set (w := len a * pid a) in *. set (l := len a) in *. lra.
Qed.

(** X10: when every alignment of the block has a nonnegative length and a
    percent identity between 0 and 100, [compute_ani] returns a value
    between 0 and 100: a weighted mean of percentages, rounded to two
    decimals, is again a percentage (and a zero total length gives 0.0). *)
Theorem compute_ani_bounded (alns : list aln) :
  (forall a, In a alns -> 0 <= len a /\ 0 <= pid a <= 100) ->
  0 <= compute_ani alns <= 100.
Proof.
  intro Hin. unfold compute_ani.
  destruct (Qltb 0 (sumQ len alns)) eqn:E; [|split; discriminate].
  apply Qltb_iff in E. apply round2_bounds.
  destruct (sumQ_weighted_bound alns 0 0 ltac:(lra) Hin) as [H0 H1].
  fold (sumQ (fun a => len a * pid a) alns) in H0, H1. fold (sumQ len alns) in H1.
  split.
  - apply Qle_shift_div_l; [exact E|]. lra.
  - apply Qle_shift_div_r; [exact E|]. lra.
Qed.

Lemma compute_ani_bounded_witness :
  let a0 := mk_aln "A" "B" 95 100 (1, 100)%Z (1, 100)%Z 1000 1000 0 in
  let a1 := mk_aln "A" "B" 90 50 (201, 250)%Z (201, 250)%Z 1000 1000 0 in
  compute_ani [a0; a1] = 9333 # 100 /\ 0 <= compute_ani [a0; a1] <= 100.
Proof.
  intros a0 a1. split; [vm_compute; reflexivity|].
  apply (compute_ani_bounded [a0; a1]).
  intros a [<-|[<-|[]]]; cbn; (split; [|split]); unfold Qle; simpl; lia.
Defined.

(** ** The representative is a longest member of its cluster *)

Lemma greedy_cluster_origin edges l : forall st c ms,
  greedy_inv st -> In (c, ms) (fst (greedy edges l st)) ->
  In (c, ms) (fst st) \/
  exists pre suf added, l = (pre ++ c :: suf)%list /\ ms = c :: added /\
    forall y, In y added ->
      In y (neighbours edges c) /\ ~ In y (map fst (snd (greedy edges pre st))) /\ y <> c.
Proof.
  induction l as [|x l IH]; intros [C S] c ms Hi Hin; cbn [greedy] in Hin; [now left|].
  destruct (IH _ c ms (greedy_step_inv edges _ x Hi) Hin)
    as [H|[pre [suf [added [-> [-> Hy]]]]]].
  - destruct (in_dec string_dec x (map fst S)) as [Hx|Hx].
    + rewrite greedy_step_old in H by exact Hx. now left.
    + destruct (greedy_step_new edges C S x Hi Hx) as [added [S' [E [_ [Ha _]]]]].
      rewrite E in H. cbn [fst] in H. apply in_app_iff in H as [H|[H|[]]]; [now left|].
      injection H as <- <-. right. exists [], l, added. split; [reflexivity|].
      split; [reflexivity|]. intros y Hy. cbn [greedy snd]. now apply Ha.
  - right. exists (x :: pre), suf, added. split; [reflexivity|]. split; [reflexivity|].
    exact Hy.
Qed.

Lemma dict_get_NoDup_In {V} (k : string) (v : V) d :
  NoDup (map fst d) -> In (k, v) d -> dict_get k d = Some v.
Proof.
  induction d as [|[k' v'] d IH]; intros Hnd Hin; [destruct Hin|]. cbn in Hnd |- *.
  inversion Hnd as [|? ? Hk Hnd']; subst.
  destruct Hin as [Heq|Hin].
  - injection Heq as -> ->. now rewrite String.eqb_refl.
  - destruct (String.eqb_spec k k') as [->|]; [|now apply IH].
    exfalso. apply Hk. apply in_map_iff. now exists (k', v).
Qed.

(** X11: every member of a cluster returned by [cluster_by_ani] is at most
    as long as the cluster's centroid, by the lengths of the catalog: the
    walk goes by descending length and a centroid only takes members that
    the walk has not reached yet, so the representative that [derep]
    writes is a longest sequence of its cluster. *)
Theorem cluster_by_ani_centroid_longest (records : fasta) (ani_lines : list string)
  (min_ani min_qcov min_tcov : Q) (min_length : nat) clusters c ms m :
  cluster_by_ani records ani_lines min_ani min_qcov min_tcov min_length = Ok clusters ->
  In (c, ms) clusters -> In m ms ->
  exists lc lm, dict_get c (load_seqs records min_length) = Some lc /\
                dict_get m (load_seqs records min_length) = Some lm /\ (lm <= lc)%nat.
Proof.
  intros Hok Hcl Hm.
  destruct (cluster_by_ani_Ok _ _ _ _ _ _ _ Hok) as [rows [_ ->]].
  set (seqs := load_seqs records min_length) in *.
  set (sorted_seqs := sorted_seqs_of seqs) in *.
  set (edges := build_edges min_ani min_qcov min_tcov sorted_seqs rows) in *.
  destruct (greedy_cluster_origin edges sorted_seqs ([], []) c ms greedy_inv_init Hcl)
    as [[]|[pre [suf [added [Hsplit [-> Hadded]]]]]].
  destruct (load_seqs_spec records min_length) as [Hnd _]. fold seqs in Hnd.
  (* the walk order with its lengths *)
  assert (Hss : map fst (sort_desc seqs) = (pre ++ c :: suf)%list) by exact Hsplit.
  apply map_eq_app in Hss as [ssp [sss0 [Hss [_ Hsss0]]]].
  apply map_eq_cons in Hsss0 as [[c' lc] [sss [-> [Hc' Hsuf]]]]. cbn [fst] in Hc'. subst c'.
  pose proof (sort_desc_sorted seqs) as Hsorted. rewrite Hss in Hsorted.
  apply Sorted_StronglySorted in Hsorted; [|intros x y z; cbn; lia].
  assert (Hsuf_sorted : forall (l1 l2 : list (string * nat)),
            StronglySorted (fun x y => (snd y <= snd x)%nat) (l1 ++ l2)%list ->
            StronglySorted (fun x y => (snd y <= snd x)%nat) l2).
  { induction l1 as [|x l1 IHl]; intros l2 H; [exact H|].
    apply StronglySorted_inv in H as [H _]. now apply IHl. }
  apply Hsuf_sorted in Hsorted.
  apply StronglySorted_inv in Hsorted as [_ Hge]. rewrite Forall_forall in Hge.
  assert (Hin_seqs : forall p, In p (sort_desc seqs) -> dict_get (fst p) seqs = Some (snd p)).
  { intros [k v] Hp. apply dict_get_NoDup_In; [exact Hnd|].
    eapply Permutation_in; [apply sort_by_perm|exact Hp]. }
  assert (Hc : dict_get c seqs = Some lc).
  { apply (Hin_seqs (c, lc)). rewrite Hss. apply in_app_iff. right. now left. }
  exists lc. destruct Hm as [<-|Hm].
  - exists lc. split; [exact Hc|]. split; [exact Hc|lia].
  - destruct (Hadded m Hm) as [Hnb [Hnot Hne]].
    assert (Hmsuf : In m suf).
    { apply build_edges_In in Hnb as [r [_ [_ [<- Hq]]]].
      destruct Hq as [_ [_ [Hmin _]]]. fold sorted_seqs in Hmin. rewrite Hsplit in Hmin.
      apply in_app_iff in Hmin as [Hmin|[Hmin|Hmin]]; [|congruence|exact Hmin].
      exfalso. apply Hnot.
      destruct (greedy_keys_S edges pre ([], []) greedy_inv_init) as [H1 _].
      apply H1. now right. }
    rewrite <- Hsuf in Hmsuf. apply in_map_iff in Hmsuf as [[m' lm] [Hm' Hp]].
    cbn [fst] in Hm'. subst m'.
    exists lm. split; [exact Hc|]. split.
    + apply (Hin_seqs (m, lm)). rewrite Hss. apply in_app_iff. right. now right.
    + exact (Hge (m, lm) Hp).
Qed.

Lemma cluster_by_ani_centroid_longest_witness :
  let records := [("C", poly_a 900); ("A", poly_a 1000); ("B", poly_a 950)] in
  let lines := [tsv header_fields; tsv ["A"; "B"; "1"; "99.0"; "100.0"; "100.0"];
                tsv ["B"; "C"; "1"; "99.0"; "100.0"; "100.0"]] in
  cluster_by_ani records lines 95 0 85 1 = Ok [("A", ["A"; "B"]); ("C", ["C"])] /\
  exists lc lm, dict_get "A" (load_seqs records 1) = Some lc /\
                dict_get "B" (load_seqs records 1) = Some lm /\ (lm <= lc)%nat.
Proof.
  intros records lines.
  assert (H : cluster_by_ani records lines 95 0 85 1 = Ok [("A", ["A"; "B"]); ("C", ["C"])])
    by (vm_compute; reflexivity).
  split; [exact H|].
  apply (cluster_by_ani_centroid_longest records lines 95 0 85 1 _ "A" ["A"; "B"] "B" H);
    [left; reflexivity|right; left; reflexivity].
Defined.
